(** * eventpp: the CallbackList of include/eventpp/callbacklist.h

    A shallow embedding of [CallbackListBase]: the nodes live in a store
    indexed by node identities, [std::shared_ptr<Node>] is an optional
    identity, [std::weak_ptr<Node>] (the Handle) is an optional identity
    that is upgraded by looking it up in the store, and the reference
    counting of [shared_ptr] is modelled by destroying every node that no
    strong reference reaches any more.

    The 64-bit counters are integers with the wrap-around written out. *)

From Stdlib Require Import ZArith Lia.
From stdpp Require Import base option relations list gmap fin_maps.

Local Open Scope Z_scope.

(** ** Data model *)

(** The identity of a node (of its control block, in C++ terms).  Identities
    are never reused, so an expired Handle stays expired. *)
Definition addr := nat.

(** [uint64_t] arithmetic. *)
Definition counterModulus : Z := 2 ^ 64.
Definition counterMax : Z := counterModulus - 1.
Definition wrap64 (z : Z) : Z := z mod counterModulus.

(** [enum : Counter { removedCounter = 0 }] *)
Definition removedCounter : Z := 0.

Section Model.

Context {Callback : Type}.
Implicit Types (a b node : addr) (p q : option addr) (l : list addr).

(** [struct Node]; a null [NodePtr] is [None]. *)
Record Node : Type := mkNode {
  previous : option addr;
  next : option addr;
  callback : Callback;
  counter : Z
}.

(** [class Handle_ : public std::weak_ptr<Node>] *)
Definition Handle : Type := option addr.

(** The members of [CallbackListBase] ([head], [tail], [currentCounter];
    the mutex has no sequential content), the free store the nodes are
    allocated in ([heap], [nextAddr]), and the strong references held by the
    local [NodePtr node] of every [doForEachIf] that is in progress
    ([pins]). *)
Record State : Type := mkState {
  head : option addr;
  tail : option addr;
  currentCounter : Z;
  heap : gmap addr Node;
  nextAddr : addr;
  pins : list addr
}.

Definition set_previous (p : option addr) (n : Node) : Node :=
  mkNode p (next n) (callback n) (counter n).
Definition set_next (p : option addr) (n : Node) : Node :=
  mkNode (previous n) p (callback n) (counter n).
Definition set_counter (c : Z) (n : Node) : Node :=
  mkNode (previous n) (next n) (callback n) c.

Definition set_head (p : option addr) (s : State) : State :=
  mkState p (tail s) (currentCounter s) (heap s) (nextAddr s) (pins s).
Definition set_tail (p : option addr) (s : State) : State :=
  mkState (head s) p (currentCounter s) (heap s) (nextAddr s) (pins s).
Definition set_currentCounter (c : Z) (s : State) : State :=
  mkState (head s) (tail s) c (heap s) (nextAddr s) (pins s).
Definition set_heap (h : gmap addr Node) (s : State) : State :=
  mkState (head s) (tail s) (currentCounter s) h (nextAddr s) (pins s).
Definition set_pins (ps : list addr) (s : State) : State :=
  mkState (head s) (tail s) (currentCounter s) (heap s) (nextAddr s) ps.

(** The constructor: [head(), tail(), mutex(), currentCounter(0)]. *)
Definition init : State := mkState None None 0 ∅ O [].

(** ** The store: writes through a pointer, allocation, reference counts *)

(** [p->field = v]: dereferencing a pointer that is not in the store has no
    result. *)
Definition store (a : addr) (f : Node → Node) (h : gmap addr Node)
  : option (gmap addr Node) :=
  n ← h !! a; Some (<[a := f n]> h).

(** [std::make_shared<Node>(callback, counter)] *)
Definition make_shared (cb : Callback) (c : Z) (s : State) : addr * State :=
  (nextAddr s,
   mkState (head s) (tail s) (currentCounter s)
           (<[nextAddr s := mkNode None None cb c]> (heap s))
           (S (nextAddr s)) (pins s)).

(** A node has a strong reference when [head], [tail], the local of an
    iteration in progress, or a link of a node of the store points to it. *)
Definition points_to (a : addr) (n : Node) : Prop :=
  previous n = Some a ∨ next n = Some a.

Definition referenced (s : State) (a : addr) : Prop :=
  head s = Some a ∨ tail s = Some a ∨ a ∈ pins s ∨
  map_Exists (λ _ n, points_to a n) (heap s).

#[global] Instance points_to_dec a n : Decision (points_to a n).
Proof. unfold points_to. apply _. Defined.

#[global] Instance referenced_dec s a : Decision (referenced s a).
Proof. unfold referenced. apply _. Defined.

(** One round of destruction: the nodes whose use count is zero are
    destroyed (which releases the links they held). *)
Definition sweep1 (s : State) : State :=
  set_heap (filter (λ kv, referenced s kv.1) (heap s)) s.

Fixpoint sweep_rounds (k : nat) (s : State) : State :=
  match k with
  | O => s
  | S k' => sweep_rounds k' (sweep1 s)
  end.

(** What happens when the local strong references of an operation go out
    of scope: destruction cascades until every remaining node is referenced.
    Every round that destroys something shrinks the store, so as many rounds
    as there are nodes are enough. *)
Definition release (s : State) : State :=
  sweep_rounds (size (heap s)) s.

(** [weak_ptr::lock]: the node when it is still alive, null otherwise. *)
Definition lock (s : State) (h : Handle) : option addr :=
  a ← h; _ ← heap s !! a; Some a.

(** [Handle_::operator bool]: [! this->expired()] *)
Definition handle_bool (s : State) (h : Handle) : bool :=
  bool_decide (is_Some (lock s h)).

(** ** The operations of CallbackListBase *)



(** The loop of [getNextCounter] that runs on overflow:
    [while(node) { node->counter = 1; node = node->next; }].
    It has no result when it runs out of [fuel]. *)
Fixpoint resetCounters (fuel : nat) (h : gmap addr Node) (node : option addr)
  : option (gmap addr Node) :=
  match node with
  | None => Some h
  | Some a =>
    match fuel with
    | O => None
    | S fuel' =>
      h' ← store a (set_counter 1) h;
      n ← h' !! a;
      resetCounters fuel' h' (next n)
    end
  end.

(** [Counter getNextCounter()].  A chain without a cycle has at most as many
    nodes as the store, which is the fuel of the reset loop. *)
Definition getNextCounter (s : State) : option (Z * State) :=
  let s1 := set_currentCounter (wrap64 (currentCounter s + 1)) s in
  let result := currentCounter s1 in
  if decide (result = 0) then
    h ← resetCounters (size (heap s1)) (heap s1) (head s1);
    let s2 := set_currentCounter (wrap64 (currentCounter s1 + 1)) (set_heap h s1) in
    Some (currentCounter s2, s2)
  else Some (result, s1).

(** [Handle append(const Callback & callback)] *)
Definition append (cb : Callback) (s : State) : option (Handle * State) :=
  '(c, s1) ← getNextCounter s;
  let '(node, s2) := make_shared cb c s1 in
  s3 ← match head s2 with
       | Some _ =>
         h1 ← store node (set_previous (tail s2)) (heap s2);
         t ← tail s2;
         h2 ← store t (set_next (Some node)) h1;
         Some (set_tail (Some node) (set_heap h2 s2))
       | None => Some (set_tail (Some node) (set_head (Some node) s2))
       end;
  Some (Some node, release s3).

(** [Handle prepend(const Callback & callback)] *)
Definition prepend (cb : Callback) (s : State) : option (Handle * State) :=
  '(c, s1) ← getNextCounter s;
  let '(node, s2) := make_shared cb c s1 in
  s3 ← match head s2 with
       | Some hd =>
         h1 ← store node (set_next (head s2)) (heap s2);
         h2 ← store hd (set_previous (Some node)) h1;
         Some (set_head (Some node) (set_heap h2 s2))
       | None => Some (set_tail (Some node) (set_head (Some node) s2))
       end;
  Some (Some node, release s3).

(** [void doInsert(NodePtr & node, NodePtr & beforeNode)] *)
Definition doInsert (node beforeNode : addr) (s : State) : option State :=
  b ← heap s !! beforeNode;
  h1 ← store node (set_previous (previous b)) (heap s);
  h2 ← store node (set_next (Some beforeNode)) h1;
  b2 ← h2 !! beforeNode;
  h3 ← match previous b2 with
       | Some p => store p (set_next (Some node)) h2
       | None => Some h2
       end;
  h4 ← store beforeNode (set_previous (Some node)) h3;
  let s4 := set_heap h4 s in
  Some (if decide (Some beforeNode = head s4) then set_head (Some node) s4 else s4).

(** [Handle insert(const Callback & callback, const Handle before)] *)
Definition insert (cb : Callback) (before : Handle) (s : State)
  : option (Handle * State) :=
  match lock s before with
  | Some beforeNode =>
    '(c, s1) ← getNextCounter s;
    let '(node, s2) := make_shared cb c s1 in
    s3 ← doInsert node beforeNode s2;
    Some (Some node, release s3)
  | None => append cb s
  end.

(** [void doRemoveNode(NodePtr & node)] *)
Definition doRemoveNode (node : addr) (s : State) : option State :=
  n ← heap s !! node;
  h1 ← match next n with
       | Some nx => store nx (set_previous (previous n)) (heap s)
       | None => Some (heap s)
       end;
  n1 ← h1 !! node;
  h2 ← match previous n1 with
       | Some pv => store pv (set_next (next n1)) h1
       | None => Some h1
       end;
  n2 ← h2 !! node;
  let s1 := set_heap h2 s in
  let s2 := if decide (head s1 = Some node) then set_head (next n2) s1 else s1 in
  let s3 := if decide (tail s2 = Some node) then set_tail (previous n2) s2 else s2 in
  h3 ← store node (set_counter removedCounter) (heap s3);
  Some (set_heap h3 s3).

(** [bool remove(const Handle handle)] *)
Definition remove (handle : Handle) (s : State) : option (bool * State) :=
  match lock s handle with
  | Some node => s1 ← doRemoveNode node s; Some (true, release s1)
  | None => Some (false, s)
  end.

(** ** Dispatch *)

(** A visitor is a C++ closure: it may call back into the list, so it is a
    function of the list's state, and of [V], which stands for everything
    else it can observe or change. *)
Definition Visitor (V : Type) : Type := addr → State → V → option (bool * State * V).

(** The local [NodePtr node] of [doForEachIf]: [pin] is its initialisation
    or assignment from a pointer, [unpin] the end of its hold on a node. *)
Fixpoint remove1 (a : addr) (l : list addr) : list addr :=
  match l with
  | [] => []
  | b :: l' => if decide (a = b) then l' else b :: remove1 a l'
  end.

Definition pin (node : option addr) (s : State) : State :=
  match node with
  | Some a => set_pins (a :: pins s) s
  | None => s
  end.

Definition unpin (a : addr) (s : State) : State :=
  release (set_pins (remove1 a (pins s)) s).

(** The loop of [doForEachIf]; [counter0] is the snapshot of
    [currentCounter].  Each iteration uses one unit of [fuel]. *)
Fixpoint doForEachIf_loop {V : Type} (fuel : nat) (f : Visitor V) (counter0 : Z)
    (node : option addr) (s : State) (u : V) : option (bool * State * V) :=
  match node with
  | None => Some (true, s, u)
  | Some a =>
    match fuel with
    | O => None
    | S fuel' =>
      n ← heap s !! a;
      '(go, s1, u1) ←
        (if decide (counter n ≠ removedCounter ∧ counter n ≤ counter0)
         then f a s u else Some (true, s, u));
      if (go : bool) then
        n1 ← heap s1 !! a;
        doForEachIf_loop fuel' f counter0 (next n1)
                         (unpin a (pin (next n1) s1)) u1
      else Some (false, unpin a s1, u1)
    end
  end.

(** [template <typename F> bool doForEachIf(F && f) const] *)
Definition doForEachIf {V : Type} (fuel : nat) (f : Visitor V) (s : State) (u : V)
  : option (bool * State * V) :=
  let node := head s in
  let counter0 := currentCounter s in
  doForEachIf_loop fuel f counter0 node (pin node s) u.

(** The three shapes of visitor that [doForEachInvoke] accepts, with result
    type [RT]: [func(Handle, Callback &)], [func(Handle)],
    [func(Callback &)]. *)
Inductive Func (V RT : Type) : Type :=
  | FuncHandleCallback (g : Handle → Callback → State → V → option (RT * State * V))
  | FuncHandle (g : Handle → State → V → option (RT * State * V))
  | FuncCallback (g : Callback → State → V → option (RT * State * V)).
Arguments FuncHandleCallback {V RT} g.
Arguments FuncHandle {V RT} g.
Arguments FuncCallback {V RT} g.

(** [doForEachInvoke<RT>(func, node)] *)
Definition doForEachInvoke {V RT : Type} (func : Func V RT) (node : addr)
    (s : State) (u : V) : option (RT * State * V) :=
  match func with
  | FuncHandleCallback g => n ← heap s !! node; g (Some node) (callback n) s u
  | FuncHandle g => g (Some node) s u
  | FuncCallback g => n ← heap s !! node; g (callback n) s u
  end.

(** The closure that [forEach] passes to [doForEachIf]. *)
Definition forEach_visitor {V : Type} (func : Func V unit) : Visitor V :=
  λ node s u, '(_, s1, u1) ← doForEachInvoke func node s u; Some (true, s1, u1).

(** [template <typename Func> void forEach(Func && func) const] *)
Definition forEach {V : Type} (fuel : nat) (func : Func V unit) (s : State) (u : V)
  : option (State * V) :=
  '(_, s', u') ← doForEachIf fuel (forEach_visitor func) s u;
  Some (s', u').

(** The closure that [forEachIf] passes to [doForEachIf]. *)
Definition forEachIf_visitor {V : Type} (func : Func V bool) : Visitor V :=
  λ node s u, doForEachInvoke func node s u.

(** [template <typename Func> bool forEachIf(Func && func) const] *)
Definition forEachIf {V : Type} (fuel : nat) (func : Func V bool) (s : State) (u : V)
  : option (bool * State * V) :=
  doForEachIf fuel (forEachIf_visitor func) s u.

(** [call] is what calling a stored callback with an argument pack does, and
    [canContinueInvoking] the policy's [canContinueInvoking(args...)], which
    may read what the callbacks changed. *)
Definition invoke_func {V Args : Type}
    (call : Callback → Args → State → V → option (State * V))
    (canContinueInvoking : Args → V → bool) (args : Args) : Func V bool :=
  FuncCallback (λ cb s u,
    '(s1, u1) ← call cb args s u;
    Some (canContinueInvoking args u1, s1, u1)).

(** [void operator() (Args ...args) const] *)
Definition invoke {V Args : Type}
    (call : Callback → Args → State → V → option (State * V))
    (canContinueInvoking : Args → V → bool)
    (fuel : nat) (args : Args) (s : State) (u : V) : option (State * V) :=
  '(_, s', u') ← forEachIf fuel (invoke_func call canContinueInvoking args) s u;
  Some (s', u').

(** ** Destruction *)



(** ** Specification vocabulary *)

(** [dseg h p l q]: in the store [h] the nodes [l] are linked in this order
    in both directions; [p] is what the first one's [previous] holds and [q]
    what the last one's [next] holds. *)
Fixpoint dseg (h : gmap addr Node) (p : option addr) (l : list addr)
    (q : option addr) : Prop :=
  match l with
  | [] => True
  | a :: l' =>
    match h !! a with
    | Some n =>
      previous n = p ∧ next n = from_option Some q (hd_error l') ∧
      dseg h (Some a) l' q
    | None => False
    end
  end.

(** The list is the well-formed doubly linked chain [l]. *)
Definition wf (s : State) (l : list addr) : Prop :=
  NoDup l ∧ dseg (heap s) None l None ∧ head s = hd_error l ∧ tail s = last l.

(** I2 of the specification for one node. *)
Definition counter_ok (cc : Z) (n : Node) : Prop :=
  counter n = removedCounter ∨ (0 < counter n ∧ counter n ≤ cc).

(** Identities are handed out in increasing order. *)
Definition fresh (s : State) : Prop :=
  map_Forall (λ a _, (a < nextAddr s)%nat) (heap s).

(** A quiescent point: no operation is in progress, so no iteration holds
    a node and the store holds exactly the nodes of the chain. *)
Definition quiescent (s : State) (l : list addr) : Prop :=
  pins s = [] ∧ dom (heap s) = list_to_set l ∧ fresh s.

(** I1 and I2 at a quiescent point. *)
Definition Inv (s : State) (l : list addr) : Prop :=
  wf s l ∧
  ((head s = None ↔ tail s = None) ∧ (tail s = None ↔ l = [])) ∧
  map_Forall (λ _ n, counter_ok (currentCounter s) n) (heap s) ∧
  (0 ≤ currentCounter s < counterModulus) ∧
  quiescent s l.

(** No node of the store carries the removed sentinel. *)
Definition all_live (s : State) : Prop :=
  map_Forall (λ _ n, counter n ≠ removedCounter) (heap s).

#[global] Instance dseg_dec h p l q : Decision (dseg h p l q).
Proof.
  revert p. induction l as [|a l IH]; simpl; intros p; [apply _|].
  destruct (h !! a); apply _.
Defined.

#[global] Instance counter_ok_dec cc n : Decision (counter_ok cc n).
Proof. unfold counter_ok. apply _. Defined.

#[global] Instance Inv_dec s l : Decision (Inv s l).
Proof. unfold Inv, wf, quiescent, fresh. apply _. Defined.

#[global] Instance all_live_dec s : Decision (all_live s).
Proof. unfold all_live. apply _. Defined.

(** The callbacks of a list of nodes, in order. *)
Definition callbacks_of (h : gmap addr Node) (l : list addr) : list Callback :=
  omap (λ a, callback <$> h !! a) l.

(** A visitor instrumented to record, in order, the node of each call and
    the call's result. *)
Definition traced {V : Type} (f : Visitor V) : Visitor (V * list (addr * bool)) :=
  λ a s ul,
    '(r, s', u') ← f a s ul.1;
    Some (r, s', (u', ul.2 ++ [(a, r)])).

(** The calls a visitor or a callback can make on its own list while a
    dispatch is in progress. *)
Inductive Op : Type :=
  | OpAppend (cb : Callback)
  | OpPrepend (cb : Callback)
  | OpInsert (cb : Callback) (before : Handle)
  | OpRemove (h : Handle).

Definition run_op (o : Op) (s : State) : option State :=
  match o with
  | OpAppend cb => snd <$> append cb s
  | OpPrepend cb => snd <$> prepend cb s
  | OpInsert cb before => snd <$> insert cb before s
  | OpRemove h => snd <$> remove h s
  end.

Fixpoint run_ops (os : list Op) (s : State) : option State :=
  match os with
  | [] => Some s
  | o :: os' => s' ← run_op o s; run_ops os' s'
  end.

(** One thing that code called from a visitor can do to the list: call
    append, prepend, insert or remove, or, in a dispatch of its own, take or
    drop the hold of its iteration on a node. *)
Inductive step : State → State → Prop :=
  | step_op o s s' : run_op o s = Some s' → step s s'
  | step_pin (p : option addr) s : step s (pin p s)
  | step_unpin a s : step s (unpin a s).

(** The visitor changes the list only through the list's own operations,
    dispatches included. *)
Definition uses_api {V : Type} (f : Visitor V) : Prop :=
  ∀ a s u r s' u', f a s u = Some (r, s', u') → rtc step s s'.

(** A set of nodes each of which is referenced by a root or by a node of
    the set. *)
Definition anchored (s : State) (X : addr → Prop) : Prop :=
  ∀ a, X a →
    head s = Some a ∨ tail s = Some a ∨ a ∈ pins s ∨
    ∃ b n, X b ∧ heap s !! b = Some n ∧ points_to a n.

(** The two links of a node, when it is in the store. *)
Definition links (h : gmap addr Node) (a : addr) : option (option addr * option addr) :=
  (λ n, (previous n, next n)) <$> h !! a.

(** The callback and the counter of a node, when it is in the store. *)
Definition data (h : gmap addr Node) (a : addr) : option (Callback * Z) :=
  (λ n, (callback n, counter n)) <$> h !! a.

(** What getNextCounter leaves of the store: everything, unless the counter
    wrapped, in which case the counters of the chain are reset. *)
Definition counter_step (s s' : State) (l : list addr) : Prop :=
  (wrap64 (currentCounter s + 1) ≠ 0 ∧ heap s' = heap s ∧
   currentCounter s' = wrap64 (currentCounter s + 1)) ∨
  (wrap64 (currentCounter s + 1) = 0 ∧ currentCounter s' = 1 ∧
   ∀ a, heap s' !! a =
        if decide (a ∈ l) then set_counter 1 <$> heap s !! a else heap s !! a).

(** How an insertion leaves the store: the new node [x] is [nx], and the
    callbacks and counters of the other nodes are as before. *)
Definition linked_new (s1 s3 : State) (x : addr) (nx : Node) : Prop :=
  x = nextAddr s1 ∧ heap s1 !! x = None ∧ heap s3 !! x = Some nx ∧
  (∀ a, a ≠ x → data (heap s3) a = data (heap s1) a) ∧
  nextAddr s3 = S (nextAddr s1) ∧ currentCounter s3 = currentCounter s1 ∧
  pins s3 = pins s1.

(** The nodes of [l] that an iteration with snapshot [c0] calls the visitor
    on: the counter is not the removed sentinel and not above [c0]. *)
Definition eligible (c0 : Z) (h : gmap addr Node) (a : addr) : bool :=
  match h !! a with
  | Some n => bool_decide (counter n ≠ removedCounter ∧ counter n ≤ c0)
  | None => false
  end.

Definition visible (c0 : Z) (h : gmap addr Node) (l : list addr) : list addr :=
  filter (λ a, eligible c0 h a) l.

(** What a sequence of visitor calls that leave the list alone amounts to:
    [g] is called on the nodes in order until it returns false. *)
Fixpoint visit_until {V : Type} (g : addr → V → option (bool * V)) (l : list addr)
    (u : V) : option (bool * V) :=
  match l with
  | [] => Some (true, u)
  | a :: l' =>
    '(r, u') ← g a u;
    if (r : bool) then visit_until g l' u' else Some (false, u')
  end.

(** The visitor behaves as [g] on the state [s0], whatever iterations are in
    progress, and leaves it alone. *)
Definition acts_as {V : Type} (f : Visitor V) (s0 : State)
    (g : addr → V → option (bool * V)) : Prop :=
  ∀ a ps u, f a (set_pins ps s0) u = (λ ru, (ru.1, set_pins ps s0, ru.2)) <$> g a u.

(** A state in which nothing is destroyed whatever the iterations hold. *)
Definition stable (s : State) : Prop := ∀ ps, release (set_pins ps s) = set_pins ps s.

(** The results recorded by a run: all true when the run returns true;
    otherwise a single false, which is the last one. *)
Definition stops_at_first_false (r : bool) (log : list (addr * bool)) : Prop :=
  if r then Forall (λ e, e.2 = true) log
  else ∃ pre a, log = pre ++ [(a, false)] ∧ Forall (λ e, e.2 = true) pre.

(** Every node of [h'] was in [h] with the same counter, unless its counter
    is now the removed sentinel. *)
Definition ctr_rel (h h' : gmap addr Node) : Prop :=
  ∀ a n', h' !! a = Some n' →
    ∃ n, h !! a = Some n ∧ (counter n' = counter n ∨ counter n' = removedCounter).

(** The node [a], if it is still in the store, carries the removed
    sentinel. *)
Definition tombstoned (a : addr) (s : State) : Prop :=
  ∀ n, heap s !! a = Some n → counter n = removedCounter.

(** What holds of a state reached after a dispatch took the snapshot [snap]
    of currentCounter, when [k0] was the next identity: the counter has not
    moved by more than the number of nodes made since, and the nodes made
    since have a counter above the snapshot, unless they are removed. *)
Definition after_snapshot (snap : Z) (k0 : nat) (s : State) : Prop :=
  snap ≤ currentCounter s ∧
  currentCounter s - snap ≤ Z.of_nat (nextAddr s) - Z.of_nat k0 ∧
  ∀ a n, heap s !! a = Some n → (k0 ≤ a)%nat →
    counter n = removedCounter ∨ snap < counter n.


(** A state, possibly in the middle of a dispatch, in which the store holds
    the nodes of the chain [l] and no other. *)
Definition chained (s : State) (l : list addr) : Prop :=
  wf s l ∧ (∀ b, is_Some (heap s !! b) → b ∈ l) ∧ fresh s ∧ 0 ≤ currentCounter s.

(** ** Visitors that change the list they are called from *)

(** A visitor of shape [func(Handle, Callback &)] that runs the effect of
    the callback and then, when [once] selects the callback, calls remove
    with the Handle it was given. *)
Definition removing_func {V : Type} (once : Callback → bool)
    (eff : Callback → V → V) : Func V unit :=
  FuncHandleCallback (λ hd cb s u,
    if once cb then '(_, s1) ← remove hd s; Some (tt, s1, eff cb u)
    else Some (tt, s, eff cb u)).

(** A visitor of shape [func(Callback &)] that runs the effect of the
    callback and then appends the callbacks [more cb] to the list. *)
Definition appending_func {V : Type} (more : Callback → list Callback)
    (eff : Callback → V → V) : Func V unit :=
  FuncCallback (λ cb s u,
    s1 ← run_ops (OpAppend <$> more cb) s; Some (tt, s1, eff cb u)).




(** A visitor of shape [func(Callback &)] that first dispatches the list it
    is called from, with forEach and a visitor that runs the effect
    [eff_in] of each callback, and then runs the effect [eff] of its own
    callback. *)
Definition redispatching_func {V : Type} (fuel_in : nat)
    (eff_in eff : Callback → V → V) : Func V unit :=
  FuncCallback (λ cb s u,
    '(s1, u1) ← forEach fuel_in (FuncCallback (λ cb' s' u', Some (tt, s', eff_in cb' u'))) s u;
    Some (tt, s1, eff cb u1)).


(** A state of a dispatch, begun in the state [s0], whose visitors only
    remove: [k] is the chain, whose nodes hold what they held in [s0]; [R]
    are the nodes removed since, in the order of their removal.  A removed
    node that is still in the store carries the sentinel, and its links,
    which are those it had when it was removed, point into the chain or to
    nodes removed after it. *)
Definition unlinking (s0 s : State) (k R : list addr) : Prop :=
  wf s k ∧ NoDup R ∧ (∀ b, b ∈ R → b ∉ k) ∧
  (∀ b, is_Some (heap s !! b) → b ∈ k ∨ b ∈ R) ∧
  (∀ b, b ∈ k → data (heap s) b = data (heap s0) b) ∧
  (∀ b n, b ∈ R → heap s !! b = Some n → counter n = removedCounter) ∧
  (∀ R1 b R2 n c, R = R1 ++ b :: R2 → heap s !! b = Some n → points_to c n →
     is_Some (heap s !! c) → c ∈ k ∨ c ∈ R2) ∧
  currentCounter s = currentCounter s0 ∧ nextAddr s = nextAddr s0.


(** The operations that make a node. *)
Definition makes_node (o : Op) : bool :=
  match o with
  | OpRemove _ => false
  | _ => true
  end.


(** ** Operations in the middle of dispatches *)

(** The Handle that an operation is given. *)
Definition handle_of (o : Op) : Handle :=
  match o with
  | OpInsert _ before => before
  | OpRemove h => h
  | _ => None
  end.

(** The node of the Handle, when it is alive, does not carry the removed
    sentinel: it is not a node that was removed and that an iteration in
    progress still keeps alive. *)
Definition live_handle (s : State) (h : Handle) : Prop :=
  ∀ a n, h = Some a → heap s !! a = Some n → counter n ≠ removedCounter.

(** [step], when no operation is given the Handle of a removed node. *)
Inductive live_step : State → State → Prop :=
  | live_step_op o s s' :
      live_handle s (handle_of o) → run_op o s = Some s' → live_step s s'
  | live_step_pin (p : option addr) s : live_step s (pin p s)
  | live_step_unpin a s : live_step s (unpin a s).

(** The visitor, when it is called on a node that is not removed, changes
    the list only through such steps. *)
Definition uses_live_api {V : Type} (f : Visitor V) : Prop :=
  ∀ a n s u r s' u', heap s !! a = Some n → counter n ≠ removedCounter →
    f a s u = Some (r, s', u') → rtc live_step s s'.

(** A state in which dispatches may be in progress: [k] is the chain, [R]
    lists, in the order of their removal, the removed nodes that may still
    be alive; the counters of the chain are as I2 says, and every node of
    the store is referenced. *)
Definition held (s : State) (k R : list addr) : Prop :=
  unlinking s s k R ∧ fresh s ∧ 0 ≤ currentCounter s < counterModulus ∧
  (∀ b n, b ∈ k → heap s !! b = Some n → counter_ok (currentCounter s) n) ∧
  (∀ b, b ∈ R → (b < nextAddr s)%nat) ∧
  (∀ b, is_Some (heap s !! b) → referenced s b).

End Model.

Arguments FuncHandleCallback {Callback V RT} g.
Arguments FuncHandle {Callback V RT} g.
Arguments FuncCallback {Callback V RT} g.

(** Modelled from the spec: the default policy of eventpolicies.h, which is
    not part of these sources ("Default: always continue"). *)
Definition defaultCanContinueInvoking {Args V : Type} (_ : Args) (_ : V) : bool := true.

(** ** Concrete lists

    Callbacks named by numbers.  Calling one records its name and then runs
    the calls that [script] gives for it on the callback's own list. *)
Module Scenario.




(** A list whose only node holds callback 1 with counter [c], when
    currentCounter is [cc]. *)
Definition one (c cc : Z) : @State nat :=
  mkState (Some O) (Some O) cc {[ O := mkNode None None 1%nat c ]} 1%nat [].


(** The list of the callbacks 1, 2 and 3, appended in this order, when
    currentCounter has reached [cc]. *)
Definition three (cc : Z) : @State nat :=
  mkState (Some O) (Some 2%nat) cc
    (<[O := mkNode None (Some 1%nat) 1%nat (cc - 2)]>
       (<[1%nat := mkNode (Some O) (Some 2%nat) 2%nat (cc - 1)]>
          {[ 2%nat := mkNode (Some 1%nat) None 3%nat cc ]}))
    3%nat [].

(** A visitor of shape [func(Handle, Callback &)] that records the name of
    the callback it is called on; on callback 2 it also removes its own
    node, removes the next node (node 2, which holds callback 3), removes
    its own node once more and appends callback 9, recording what the three
    calls of remove returned. *)
Definition remove_next_visitor (hd : Handle) (cb : nat) (s : @State nat)
    (log : list nat * list bool) : option (bool * @State nat * (list nat * list bool)) :=
  if decide (cb = 2%nat) then
    '(r1, s1) ← remove hd s;
    '(r2, s2) ← remove (Some 2%nat) s1;
    '(r3, s3) ← remove hd s2;
    '(_, s4) ← append 9%nat s3;
    Some (true, s4, (log.1 ++ [cb], log.2 ++ [r1; r2; r3]))
  else Some (true, s, (log.1 ++ [cb], log.2)).

(** A visitor of shape [func(Handle)] that, when it is called with the
    Handle [hb], calls remove with [hb], with [hc], with [hb] once more and
    with [ha]; on any other Handle it does nothing. *)
Definition remove_around {Callback : Type} (ha hb hc : Handle) (hd : Handle)
    (s : @State Callback) (u : unit) : option (unit * @State Callback * unit) :=
  if decide (hd = hb) then
    '(_, s1) ← remove hb s;
    '(_, s2) ← remove hc s1;
    '(_, s3) ← remove hb s2;
    '(_, s4) ← remove ha s3;
    Some (tt, s4, tt)
  else Some (tt, s, tt).

(** A visitor of shape [func(Handle)] that, when it is called with the
    Handle [hb], calls remove and then insert of [cb] with the Handle it was
    given; on any other Handle it does nothing. *)
Definition remove_then_insert {Callback : Type} (cb : Callback) (hb : Handle) (hd : Handle)
    (s : @State Callback) (u : unit) : option (unit * @State Callback * unit) :=
  if decide (hd = hb) then
    '(_, s1) ← remove hd s;
    '(_, s2) ← insert cb hd s1;
    Some (tt, s2, tt)
  else Some (tt, s, tt).

(** The empty list of a constructor whose counter was seeded with [cc]. *)
Definition seeded {Callback : Type} (cc : Z) : @State Callback :=
  mkState None None cc ∅ O [].

End Scenario.

(** * Properties *)

(** ** The store and the reference counts *)

Section Store.

Context {Callback : Type}.
Implicit Types (s : @State Callback) (h : gmap addr (@Node Callback)).
Implicit Types (n : @Node Callback) (a b : addr) (l : list addr) (p q : option addr).

Lemma store_Some a f h n : h !! a = Some n → store a f h = Some (<[a := f n]> h).
Proof. intros E. unfold store. by rewrite E. Qed.

Lemma store_inv a f h h' :
  store a f h = Some h' → ∃ n, h !! a = Some n ∧ h' = <[a := f n]> h.
Proof.
  unfold store. destruct (h !! a) as [n|] eqn:E; simpl; [|done].
  intros [= <-]. eauto.
Qed.

Lemma sweep_rounds_fields k s :
  head (sweep_rounds k s) = head s ∧ tail (sweep_rounds k s) = tail s ∧
  currentCounter (sweep_rounds k s) = currentCounter s ∧
  nextAddr (sweep_rounds k s) = nextAddr s ∧ pins (sweep_rounds k s) = pins s.
Proof. revert s. induction k as [|k IH]; intros s; simpl; [done|]. apply (IH (sweep1 s)). Qed.

Lemma release_head s : head (release s) = head s.
Proof. apply sweep_rounds_fields. Qed.
Lemma release_tail s : tail (release s) = tail s.
Proof. apply sweep_rounds_fields. Qed.
Lemma release_currentCounter s : currentCounter (release s) = currentCounter s.
Proof. apply sweep_rounds_fields. Qed.
Lemma release_nextAddr s : nextAddr (release s) = nextAddr s.
Proof. apply sweep_rounds_fields. Qed.
Lemma sweep1_lookup_Some s a n :
  heap (sweep1 s) !! a = Some n ↔ heap s !! a = Some n ∧ referenced s a.
Proof. unfold sweep1. simpl. by rewrite map_lookup_filter_Some. Qed.

Lemma sweep_rounds_lookup_Some k s a n :
  heap (sweep_rounds k s) !! a = Some n → heap s !! a = Some n.
Proof.
  revert s. induction k as [|k IH]; intros s; simpl; [done|].
  intros E%IH. by apply sweep1_lookup_Some in E as [? _].
Qed.

(** Destruction only takes nodes away. *)
Lemma release_lookup_Some s a n :
  heap (release s) !! a = Some n → heap s !! a = Some n.
Proof. apply sweep_rounds_lookup_Some. Qed.

Lemma anchored_referenced s X a : anchored s X → X a → referenced s a.
Proof.
  intros HX Ha. destruct (HX a Ha) as [?|[?|[?|(b & n & _ & E & Hp)]]];
    unfold referenced; eauto.
  do 3 right. by exists b, n.
Qed.

Lemma sweep1_keeps s X a :
  anchored s X → X a → heap (sweep1 s) !! a = heap s !! a.
Proof.
  intros HX Ha. destruct (heap s !! a) as [n|] eqn:E.
  - apply sweep1_lookup_Some. eauto using anchored_referenced.
  - destruct (heap (sweep1 s) !! a) as [n|] eqn:E'; [|done].
    apply sweep1_lookup_Some in E' as [? _]. congruence.
Qed.

Lemma sweep1_anchored s X : anchored s X → anchored (sweep1 s) X.
Proof.
  intros HX a Ha. destruct (HX a Ha) as [?|[?|[?|(b & n & Hb & E & Hp)]]]; eauto.
  do 3 right. exists b, n. split; [done|]. split; [|done].
  by rewrite (sweep1_keeps s X b).
Qed.

Lemma sweep_rounds_keeps k s X a :
  anchored s X → X a → heap (sweep_rounds k s) !! a = heap s !! a.
Proof.
  revert s. induction k as [|k IH]; intros s HX Ha; simpl; [done|].
  rewrite IH; eauto using sweep1_anchored, sweep1_keeps.
Qed.

(** The nodes of an anchored set survive destruction. *)
Lemma release_keeps s X a :
  anchored s X → X a → heap (release s) !! a = heap s !! a.
Proof. apply sweep_rounds_keeps. Qed.

Lemma sweep1_id s :
  (∀ a, is_Some (heap s !! a) → referenced s a) → sweep1 s = s.
Proof.
  intros H. unfold sweep1. destruct s as [hd tl cc hp na ps]; simpl in *.
  unfold set_heap; simpl. f_equal.
  apply map_filter_id. intros a n E. simpl. apply H. eauto.
Qed.

Lemma sweep_rounds_id k s : sweep1 s = s → sweep_rounds k s = s.
Proof. intros E. induction k as [|k IH]; simpl; [done|]. by rewrite E. Qed.

(** Nothing is destroyed when every node is referenced. *)
Lemma release_id s :
  (∀ a, is_Some (heap s !! a) → referenced s a) → release s = s.
Proof. intros H. apply sweep_rounds_id, sweep1_id, H. Qed.

End Store.

(** ** Doubly linked segments *)

Section Segments.

Context {Callback : Type}.
Implicit Types (s : @State Callback) (h : gmap addr (@Node Callback)).
Implicit Types (n : @Node Callback) (a b : addr) (l : list addr) (p q : option addr).

Lemma links_insert_ne h a b n : a ≠ b → links (<[a := n]> h) b = links h b.
Proof. intros. unfold links. by rewrite lookup_insert_ne. Qed.

Lemma links_insert_counter h a n c :
  h !! a = Some n → ∀ b, links (<[a := set_counter c n]> h) b = links h b.
Proof.
  intros E b. unfold links. destruct (decide (a = b)) as [<-|].
  - by rewrite lookup_insert_eq, E.
  - by rewrite lookup_insert_ne.
Qed.

(** A segment only depends on the links of its own nodes. *)
Lemma dseg_links h h' p l q :
  (∀ a, a ∈ l → links h a = links h' a) → dseg h p l q → dseg h' p l q.
Proof.
  revert p. induction l as [|a l IH]; intros p Hl; simpl; [done|].
  assert (Ha : links h a = links h' a) by (apply Hl; left).
  unfold links in Ha.
  destruct (h !! a) as [n|]; [|done].
  destruct (h' !! a) as [n'|]; [|done]. simpl in Ha.
  injection Ha as <- <-. intros (? & ? & ?). repeat split; try done.
  apply IH; [|done]. intros b Hb. apply Hl. by right.
Qed.

Lemma dseg_insert_ne h a n p l q :
  a ∉ l → dseg h p l q → dseg (<[a := n]> h) p l q.
Proof.
  intros Ha. apply dseg_links. intros b Hb.
  rewrite links_insert_ne; [done|]. intros ->. done.
Qed.

Lemma hd_error_app_from_option l1 l2 q :
  from_option Some q (hd_error (l1 ++ l2)) =
  from_option Some (from_option Some q (hd_error l2)) (hd_error l1).
Proof. by destruct l1. Qed.

Lemma last_cons_from_option a l :
  from_option Some (Some a) (last l) = last (a :: l).
Proof. rewrite last_cons. by destruct (last l). Qed.

Lemma dseg_app h p l1 l2 q :
  dseg h p (l1 ++ l2) q ↔
  dseg h p l1 (from_option Some q (hd_error l2)) ∧
  dseg h (from_option Some p (last l1)) l2 q.
Proof.
  revert p. induction l1 as [|a l1 IH]; intros p.
  - simpl. tauto.
  - cbn [app dseg]. destruct (h !! a) as [n|]; [|tauto].
    rewrite IH, hd_error_app_from_option.
    rewrite <- (last_cons_from_option a l1).
    destruct (last l1); simpl; tauto.
Qed.

Lemma dseg_cons h p a l q :
  dseg h p (a :: l) q ↔
  ∃ n, h !! a = Some n ∧ previous n = p ∧
       next n = from_option Some q (hd_error l) ∧ dseg h (Some a) l q.
Proof.
  simpl. destruct (h !! a) as [n|]; split.
  - intros (? & ? & ?). by exists n.
  - by intros (? & [= <-] & ? & ? & ?).
  - done.
  - by intros (? & ? & _).
Qed.

(** The node in the middle of a segment. *)
Lemma dseg_mid h p l1 a l2 q :
  dseg h p (l1 ++ a :: l2) q →
  ∃ n, h !! a = Some n ∧ previous n = from_option Some p (last l1) ∧
       next n = from_option Some q (hd_error l2).
Proof.
  rewrite dseg_app, dseg_cons. intros (_ & n & ? & ? & ? & _). by exists n.
Qed.

Lemma dseg_lookup h p l q a : dseg h p l q → a ∈ l → is_Some (h !! a).
Proof.
  intros H (l1 & l2 & ->)%list_elem_of_split.
  apply dseg_mid in H as (n & -> & _). eauto.
Qed.

(** Redirecting the [next] of the last node of a segment. *)
Lemma dseg_set_last_next h p l a q q' n :
  a ∉ l → h !! a = Some n → dseg h p (l ++ [a]) q →
  dseg (<[a := set_next q' n]> h) p (l ++ [a]) q'.
Proof.
  intros Ha E. rewrite !dseg_app. simpl. rewrite E, lookup_insert_eq. simpl.
  intros (H1 & ? & _ & _). split; [|done].
  by apply dseg_insert_ne.
Qed.

(** Redirecting the [previous] of the first node of a segment. *)
Lemma dseg_set_first_previous h p p' a l q n :
  a ∉ l → h !! a = Some n → dseg h p (a :: l) q →
  dseg (<[a := set_previous p' n]> h) p' (a :: l) q.
Proof.
  intros Ha E. simpl. rewrite E, lookup_insert_eq. simpl.
  intros (_ & ? & ?). repeat split; [done|]. by apply dseg_insert_ne.
Qed.

Lemma NoDup_mid a l1 l2 : NoDup (l1 ++ a :: l2) → (a ∉ l1) ∧ (a ∉ l2) ∧ NoDup (l1 ++ l2).
Proof.
  rewrite NoDup_app, NoDup_cons. intros (H1 & H2 & H3 & H4).
  repeat split; try done.
  - intros Ha. apply (H2 a Ha). left.
  - apply NoDup_app. repeat split; try done.
    intros x Hx Hx'. apply (H2 x Hx). by right.
Qed.

(** Well-formed chains *)

Lemma wf_lookup s l a : wf s l → a ∈ l → is_Some (heap s !! a).
Proof. intros (_ & H & _) Ha. eauto using dseg_lookup. Qed.

Lemma wf_empty_iff s l :
  wf s l → (head s = None ↔ tail s = None) ∧ (tail s = None ↔ l = []).
Proof.
  intros (_ & _ & -> & ->). rewrite last_None. destruct l; simpl; split; split; done.
Qed.

(** Every node of the chain has a strong reference from the chain. *)
Lemma wf_anchored s l : wf s l → anchored s (λ a, a ∈ l).
Proof.
  intros (_ & Hseg & Hhd & _) a (l1 & l2 & ->)%list_elem_of_split.
  destruct l1 as [|b l1 _] using rev_ind.
  - left. by rewrite Hhd.
  - do 3 right. rewrite <- app_assoc in Hseg. simpl in Hseg.
    apply dseg_mid in Hseg as (n & E & _ & Hn). simpl in Hn.
    exists b, n. split; [|split; [done|by right]].
    rewrite !elem_of_app, list_elem_of_singleton. auto.
Qed.

Lemma wf_release s l : wf s l → wf (release s) l.
Proof.
  intros H. pose proof H as (? & Hseg & ? & ?).
  unfold wf. rewrite release_head, release_tail. repeat split; try done.
  revert Hseg. apply dseg_links. intros a Ha. unfold links.
  by rewrite (release_keeps s (λ a, a ∈ l)); [| apply wf_anchored |].
Qed.

Lemma length_le_size h l :
  NoDup l → (∀ a, a ∈ l → is_Some (h !! a)) → (length l ≤ size h)%nat.
Proof.
  intros Hnd Hl. rewrite <- size_dom, <- (size_list_to_set (C := gset addr) l Hnd).
  apply subseteq_size. intros a Ha. apply elem_of_dom, Hl.
  by apply elem_of_list_to_set in Ha.
Qed.

End Segments.

(** ** The invariant at quiescent points *)

Section Invariant.

Context {Callback : Type}.
Implicit Types (s : @State Callback) (h : gmap addr (@Node Callback)).
Implicit Types (n : @Node Callback) (a b : addr) (l : list addr) (p q : option addr).

Lemma Inv_intro s l :
  wf s l → pins s = [] →
  (∀ a, is_Some (heap s !! a) ↔ a ∈ l) →
  (∀ a n, heap s !! a = Some n → (a < nextAddr s)%nat ∧ counter_ok (currentCounter s) n) →
  0 ≤ currentCounter s < counterModulus →
  Inv s l.
Proof.
  intros Hwf Hp Hdom Hn Hcc. split; [done|]. split; [by apply wf_empty_iff|].
  split; [|split; [done|]].
  - intros a n E. by apply Hn in E as [_ ?].
  - split; [done|]. split.
    + apply set_eq. intros a. by rewrite elem_of_dom, elem_of_list_to_set.
    + intros a n E. by apply Hn in E as [? _].
Qed.

Lemma Inv_wf s l : Inv s l → wf s l.
Proof. by intros [? _]. Qed.

Lemma Inv_pins s l : Inv s l → pins s = [].
Proof. by intros (_ & _ & _ & _ & ? & _). Qed.

Lemma Inv_dom s l a : Inv s l → is_Some (heap s !! a) ↔ a ∈ l.
Proof.
  intros (_ & _ & _ & _ & _ & Hd & _).
  by rewrite <- elem_of_dom, Hd, elem_of_list_to_set.
Qed.

Lemma Inv_fresh s l a : Inv s l → a ∈ l → (a < nextAddr s)%nat.
Proof.
  intros H Ha. pose proof H as (_ & _ & _ & _ & _ & _ & Hf).
  apply (Inv_dom s l a H) in Ha as [n E]. by apply Hf in E.
Qed.

Lemma Inv_nextAddr_notin s l : Inv s l → nextAddr s ∉ l.
Proof. intros H Ha. apply (Inv_fresh s l _ H) in Ha. lia. Qed.

Lemma Inv_counter s l a n :
  Inv s l → heap s !! a = Some n → counter_ok (currentCounter s) n.
Proof. intros (_ & _ & Hc & _) E. by apply Hc in E. Qed.

Lemma Inv_range s l : Inv s l → 0 ≤ currentCounter s < counterModulus.
Proof. by intros (_ & _ & _ & ? & _). Qed.

(** At a quiescent point nothing is destroyed when the locals of an
    operation go out of scope, as long as the chain holds every node. *)
Lemma release_chain s l :
  wf s l → (∀ a, is_Some (heap s !! a) → a ∈ l) → release s = s.
Proof.
  intros Hwf Hd. apply release_id. intros a Ha.
  eapply anchored_referenced; [by apply wf_anchored|]. by apply Hd.
Qed.

(** *** getNextCounter *)

Lemma wrap64_small z : 0 ≤ z < counterModulus → wrap64 z = z.
Proof. intros. unfold wrap64. by apply Z.mod_small. Qed.

Lemma wrap64_range z : 0 ≤ wrap64 z < counterModulus.
Proof. unfold wrap64. apply Z.mod_pos_bound. done. Qed.

Lemma wrap64_succ_zero z :
  0 ≤ z < counterModulus → wrap64 (z + 1) = 0 ↔ z = counterMax.
Proof.
  intros Hz. unfold counterMax. split.
  - intros E. destruct (decide (z + 1 < counterModulus)) as [Hlt|Hge].
    + rewrite wrap64_small in E by lia. lia.
    + lia.
  - intros ->. by replace (counterModulus - 1 + 1) with counterModulus by lia.
Qed.

Lemma from_option_Some_None {A} (o : option A) : from_option Some None o = o.
Proof. by destruct o. Qed.

Lemma resetCounters_seg fuel h p l :
  NoDup l → dseg h p l None → (length l ≤ fuel)%nat →
  ∃ h', resetCounters fuel h (hd_error l) = Some h' ∧
    ∀ a, h' !! a = if decide (a ∈ l) then set_counter 1 <$> h !! a else h !! a.
Proof.
  revert fuel h p. induction l as [|a l IH]; intros fuel h p Hnd Hseg Hfuel.
  - exists h. split; [by destruct fuel|]. intros a.
    destruct (decide (a ∈ [])) as [H|_]; [|done]. by apply elem_of_nil in H.
  - destruct fuel as [|fuel]; [simpl in Hfuel; lia|].
    apply NoDup_cons in Hnd as [Ha Hnd].
    apply dseg_cons in Hseg as (n & E & _ & Hnx & Hseg).
    rewrite from_option_Some_None in Hnx.
    destruct (IH fuel (<[a := set_counter 1 n]> h) (Some a)) as (h' & Hr & Hh'); [done| |simpl in Hfuel; lia|].
    { revert Hseg. apply dseg_links. intros b _. symmetry. by apply links_insert_counter. }
    exists h'. split.
    + cbn [hd_error resetCounters]. rewrite (store_Some _ _ _ _ E). simpl.
      rewrite lookup_insert_eq. simpl. by rewrite Hnx.
    + intros b. rewrite Hh'. destruct (decide (b = a)) as [->|Hne].
      * rewrite decide_False by done. rewrite decide_True by left.
        by rewrite lookup_insert_eq, E.
      * rewrite lookup_insert_ne by done.
        destruct (decide (b ∈ l)) as [Hb|Hb].
        -- rewrite decide_True; [done|by right].
        -- rewrite decide_False; [done|]. rewrite elem_of_cons. tauto.
Qed.

Lemma getNextCounter_nowrap s :
  wrap64 (currentCounter s + 1) ≠ 0 →
  getNextCounter s =
    Some (wrap64 (currentCounter s + 1),
          set_currentCounter (wrap64 (currentCounter s + 1)) s).
Proof. intros H. unfold getNextCounter. simpl. by rewrite decide_False. Qed.

Lemma getNextCounter_wrap s l :
  wf s l → wrap64 (currentCounter s + 1) = 0 →
  ∃ h', getNextCounter s = Some (1, set_currentCounter 1 (set_heap h' s)) ∧
    ∀ a, h' !! a = if decide (a ∈ l) then set_counter 1 <$> heap s !! a else heap s !! a.
Proof.
  intros Hwf Hw. pose proof Hwf as (Hnd & Hseg & Hhd & _).
  destruct (resetCounters_seg (size (heap s)) (heap s) None l) as (h' & Hr & Hh'); [done..| |].
  { apply length_le_size; [done|]. intros a. by apply wf_lookup. }
  exists h'. split; [|done].
  unfold getNextCounter. simpl. rewrite Hw. rewrite decide_True by done.
  rewrite Hhd, Hr. done.
Qed.

(** getNextCounter never returns the removed sentinel, and returns what it
    left in [currentCounter]. *)
Lemma getNextCounter_result s c s' :
  getNextCounter s = Some (c, s') →
  c ≠ removedCounter ∧ c = currentCounter s' ∧ 0 < c < counterModulus ∧
  head s' = head s ∧ tail s' = tail s ∧ nextAddr s' = nextAddr s ∧ pins s' = pins s.
Proof.
  unfold getNextCounter. simpl. pose proof (wrap64_range (currentCounter s + 1)).
  destruct (decide (wrap64 (currentCounter s + 1) = 0)) as [E|E].
  - rewrite E. destruct (resetCounters _ _ _); simpl; [|done].
    intros [= <- <-]. simpl. unfold removedCounter. by vm_compute.
  - intros [= <- <-]. simpl. unfold removedCounter. repeat split; try done; lia.
Qed.

End Invariant.

Section Insertion.

Context {Callback : Type}.
Implicit Types (s : @State Callback) (h : gmap addr (@Node Callback)).
Implicit Types (n : @Node Callback) (a b x : addr) (l : list addr) (p q : option addr).

Lemma data_insert h a n b :
  data (<[a := n]> h) b =
  if decide (a = b) then Some (callback n, counter n) else data h b.
Proof.
  unfold data. destruct (decide (a = b)) as [->|].
  - by rewrite lookup_insert_eq.
  - by rewrite lookup_insert_ne.
Qed.

Lemma data_Some h a n : h !! a = Some n → data h a = Some (callback n, counter n).
Proof. unfold data. by intros ->. Qed.

Lemma data_is_Some h h' a : data h' a = data h a → is_Some (h' !! a) ↔ is_Some (h !! a).
Proof.
  unfold data. intros E.
  destruct (h' !! a), (h !! a); simpl in E; try done; split; eauto.
Qed.

Lemma data_lookup h h' a n :
  data h' a = data h a → h !! a = Some n →
  ∃ n', h' !! a = Some n' ∧ callback n' = callback n ∧ counter n' = counter n.
Proof.
  unfold data. intros E En. rewrite En in E.
  destruct (h' !! a) as [n'|]; [|done]. injection E as ? ?. eauto.
Qed.

Lemma counter_step_lookup s s' l a n' :
  counter_step s s' l → heap s' !! a = Some n' →
  ∃ n, heap s !! a = Some n ∧ previous n' = previous n ∧ next n' = next n ∧
       callback n' = callback n ∧
       (counter n' = counter n ∨
        (a ∈ l ∧ counter n' = 1 ∧ wrap64 (currentCounter s + 1) = 0)).
Proof.
  intros [(_ & -> & _)|(? & _ & Hh)] E.
  - exists n'. repeat split; auto.
  - rewrite Hh in E. destruct (decide (a ∈ l)).
    + destruct (heap s !! a) as [n|]; [|done]. injection E as <-.
      exists n. simpl. repeat split; auto.
    + exists n'. repeat split; auto.
Qed.

Lemma counter_step_lookup_rev s s' l a n :
  counter_step s s' l → heap s !! a = Some n →
  ∃ n', heap s' !! a = Some n' ∧ previous n' = previous n ∧ next n' = next n ∧
       callback n' = callback n ∧
       (counter n' = counter n ∨
        (a ∈ l ∧ counter n' = 1 ∧ wrap64 (currentCounter s + 1) = 0)).
Proof.
  intros [(_ & -> & _)|(? & _ & Hh)] E.
  - exists n. repeat split; auto.
  - rewrite Hh, E. destruct (decide (a ∈ l)).
    + eexists. split; [done|]. simpl. repeat split; auto.
    + exists n. repeat split; auto.
Qed.

Lemma counter_step_links s s' l a :
  counter_step s s' l → links (heap s') a = links (heap s) a.
Proof.
  intros H. unfold links. destruct (heap s' !! a) as [n'|] eqn:E'.
  - destruct (counter_step_lookup _ _ _ _ _ H E') as (n & E & Hp & Hn & _).
    rewrite E. simpl. by rewrite Hp, Hn.
  - destruct (heap s !! a) as [n|] eqn:E; [|done].
    destruct (counter_step_lookup_rev _ _ _ _ _ H E) as (n' & ? & _). congruence.
Qed.

Lemma counter_step_is_Some s s' l a :
  counter_step s s' l → is_Some (heap s' !! a) ↔ is_Some (heap s !! a).
Proof.
  intros Hstep. split.
  - intros [n' E']. destruct (counter_step_lookup _ _ _ _ _ Hstep E') as (n & ? & _). eauto.
  - intros [n E]. destruct (counter_step_lookup_rev _ _ _ _ _ Hstep E) as (n' & ? & _). eauto.
Qed.

(** getNextCounter returns whenever the chain is well formed, and keeps it
    well formed. *)
Lemma getNextCounter_wf s l :
  wf s l →
  ∃ s', getNextCounter s = Some (currentCounter s', s') ∧ wf s' l ∧
        counter_step s s' l ∧ 0 < currentCounter s' < counterModulus ∧
        nextAddr s' = nextAddr s ∧ pins s' = pins s ∧
        head s' = head s ∧ tail s' = tail s ∧ (fresh s → fresh s').
Proof.
  intros Hwf.
  assert (∃ c s', getNextCounter s = Some (c, s') ∧ counter_step s s' l) as (c & s' & Hg & Hstep).
  { destruct (decide (wrap64 (currentCounter s + 1) = 0)) as [E|E].
    - destruct (getNextCounter_wrap s l Hwf E) as (h' & Hg & Hh').
      eexists _, _. split; [done|]. by right.
    - eexists _, _. split; [by apply getNextCounter_nowrap|]. by left. }
  exists s'. destruct (getNextCounter_result _ _ _ Hg) as (_ & Hc & Hc0 & Hhd & Htl & Hna & Hp).
  subst c. repeat split; try done; try lia.
  - by destruct Hwf.
  - destruct Hwf as (_ & Hseg & _). revert Hseg. apply dseg_links.
    intros a _. symmetry. by apply (counter_step_links s s' l).
  - rewrite Hhd. by destruct Hwf as (_ & _ & ? & _).
  - rewrite Htl. by destruct Hwf as (_ & _ & _ & ?).
  - intros Hf a n' E'. simpl. rewrite Hna.
    destruct (counter_step_lookup _ _ _ _ _ Hstep E') as (n & E & _). by apply Hf in E.
Qed.

(** getNextCounter keeps the invariant of quiescent points. *)
Lemma getNextCounter_Inv s l s' :
  Inv s l → getNextCounter s = Some (currentCounter s', s') → counter_step s s' l →
  Inv s' l.
Proof.
  intros HI Hg Hstep. pose proof (Inv_range _ _ HI) as Hr.
  destruct (getNextCounter_wf s l (Inv_wf _ _ HI)) as (s'' & Hg' & Hwf' & _ & Hc0 & Hna & Hp & _ & _ & Hfr).
  assert (s'' = s') as -> by congruence.
  apply Inv_intro; [done| | | |lia].
  - rewrite Hp. by eapply Inv_pins.
  - intros a. rewrite <- (Inv_dom s l a HI). by apply (counter_step_is_Some s s' l).
  - intros a n' E'.
    destruct (counter_step_lookup _ _ _ _ _ Hstep E') as (n & E & _).
    split.
    + rewrite Hna. eapply Inv_fresh; [done|]. apply (Inv_dom s l a HI). eauto.
    + pose proof (Inv_counter _ _ _ _ HI E) as Hok. unfold counter_ok in *.
      destruct Hstep as [(Hnw & Hh & ->)|(Hw & -> & Hh)].
      * rewrite Hh in E'. assert (n' = n) as -> by congruence.
        rewrite wrap64_succ_zero in Hnw by done. unfold counterMax in Hnw.
        rewrite wrap64_small by lia.
        destruct Hok as [?|[? ?]]; [by left|]. right. lia.
      * rewrite Hh, E in E'. rewrite decide_True in E'.
        -- injection E' as <-. right. simpl. lia.
        -- apply (Inv_dom s l a HI). eauto.
Qed.

Lemma linked_new_fresh s1 s3 x nx : linked_new s1 s3 x nx → fresh s1 → fresh s3.
Proof.
  intros (-> & _ & _ & Hd & Hna & _) Hf a n E. simpl. rewrite Hna.
  destruct (decide (a = nextAddr s1)) as [->|Hne]; [lia|].
  assert (is_Some (heap s1 !! a)) as [n1 E1].
  { apply (data_is_Some _ _ _ (Hd a Hne)). eauto. }
  apply Hf in E1. simpl in E1. lia.
Qed.

Lemma linked_new_Inv s1 s3 x nx l l' :
  Inv s1 l → wf s3 l' → linked_new s1 s3 x nx →
  (∀ a, a ∈ l' ↔ a = x ∨ a ∈ l) →
  counter nx = currentCounter s1 → 0 < currentCounter s1 →
  Inv s3 l' ∧ release s3 = s3.
Proof.
  intros HI Hwf Hnew Hl' Hcx Hc0.
  pose proof (linked_new_fresh _ _ _ _ Hnew) as Hfr.
  destruct Hnew as (Hx & Hx1 & Hx3 & Hd & Hna & Hcc & Hp).
  assert (Hdom : ∀ a, is_Some (heap s3 !! a) ↔ a ∈ l').
  { intros a. rewrite Hl'. destruct (decide (a = x)) as [->|Hne].
    - split; eauto.
    - rewrite (data_is_Some _ _ _ (Hd a Hne)), (Inv_dom s1 l a HI). tauto. }
  split; [|apply (release_chain s3 l'); [done|by intros a ?%Hdom]].
  apply Inv_intro; [done| | done | |].
  - rewrite Hp. by eapply Inv_pins.
  - intros a n E. split.
    + apply Hfr in E; [done|]. by destruct HI as (_ & _ & _ & _ & _ & _ & ?).
    + rewrite Hcc. destruct (decide (a = x)) as [->|Hne].
      * assert (n = nx) as -> by congruence. right. lia.
      * assert (is_Some (heap s1 !! a)) as [n1 E1].
        { apply (data_is_Some _ _ _ (Hd a Hne)). eauto. }
        destruct (data_lookup _ _ _ _ (Hd a Hne) E1) as (n' & E' & _ & Hc).
        assert (n' = n) as -> by congruence.
        pose proof (Inv_counter _ _ _ _ HI E1) as Hok. unfold counter_ok in *.
        by rewrite Hc.
  - rewrite Hcc. by eapply Inv_range.
Qed.

Lemma fresh_notin s l :
  wf s l → fresh s → (nextAddr s ∉ l) ∧ heap s !! nextAddr s = None.
Proof.
  intros Hwf Hf. assert (heap s !! nextAddr s = None) as E.
  { destruct (heap s !! nextAddr s) as [n|] eqn:E; [|done].
    apply Hf in E. simpl in E. lia. }
  split; [|done]. intros [n En]%(wf_lookup s l _ Hwf). congruence.
Qed.

(** *** append *)

Lemma append_wf s l cb :
  wf s l → fresh s →
  ∃ s1 s3, getNextCounter s = Some (currentCounter s1, s1) ∧ wf s1 l ∧
    counter_step s s1 l ∧ fresh s1 ∧ 0 < currentCounter s1 < counterModulus ∧
    nextAddr s1 = nextAddr s ∧ pins s1 = pins s ∧
    append cb s = Some (Some (nextAddr s), release s3) ∧
    wf s3 (l ++ [nextAddr s]) ∧
    linked_new s1 s3 (nextAddr s) (mkNode (last l) None cb (currentCounter s1)).
Proof.
  intros Hwf Hfr.
  destruct (getNextCounter_wf s l Hwf) as (s1 & Hg & Hwf1 & Hstep & Hc0 & Hna & Hp & _ & _ & Hfr1).
  specialize (Hfr1 Hfr).
  destruct (fresh_notin s1 l Hwf1 Hfr1) as [Hx Hxh]. rewrite Hna in Hx, Hxh.
  set (x := nextAddr s) in *.
  pose proof Hwf1 as (Hnd & Hseg & Hhd & Htl).
  exists s1. unfold append. rewrite Hg. simpl. rewrite Hna. fold x.
  destruct l as [|t l0 _] using rev_ind.
  - (* the list was empty *)
    simpl in Hhd. rewrite Hhd. simpl. eexists.
    do 7 (split; [done|]). split; [done|]. split.
    + unfold wf. simpl. rewrite lookup_insert_eq. simpl.
      repeat split; try done. apply NoDup_singleton.
    + unfold linked_new. simpl. rewrite lookup_insert_eq.
      repeat split; try done; try (subst x; congruence).
      intros a Ha. rewrite data_insert.
      by rewrite decide_False.
  - (* the list had a tail [t] *)
    rewrite last_snoc in Htl.
    assert (is_Some (head s1)) as [hd0 Hhd0].
    { rewrite Hhd. destruct l0; simpl; eauto. }
    rewrite Hhd0. simpl.
    rewrite (store_Some _ _ _ _ (lookup_insert_eq _ _ _)). simpl.
    rewrite Htl. simpl. rewrite insert_insert_eq.
    assert (Hxt : x ≠ t).
    { intros ->. apply Hx. rewrite elem_of_app, list_elem_of_singleton. auto. }
    destruct (dseg_mid _ _ _ _ _ _ Hseg) as (nt & Et & _ & _).
    rewrite (store_Some _ _ _ nt) by (by rewrite lookup_insert_ne).
    simpl. eexists. do 7 (split; [done|]). split; [done|].
    apply NoDup_app in Hnd as (Hnd0 & Hnd1 & _). split.
    + unfold wf. simpl. rewrite last_snoc. repeat split.
      * apply NoDup_app. repeat split.
        -- apply NoDup_app. repeat split; [done..|apply NoDup_singleton].
        -- intros a Ha ->%list_elem_of_singleton. done.
        -- apply NoDup_singleton.
      * apply dseg_app. simpl. rewrite last_snoc. simpl. split.
        -- apply (dseg_set_last_next _ _ _ _ None).
           ++ intros Ht. by apply (Hnd1 t Ht), list_elem_of_singleton.
           ++ by rewrite lookup_insert_ne.
           ++ by apply dseg_insert_ne.
        -- by rewrite lookup_insert_ne, lookup_insert_eq by done.
      * rewrite <- Hhd0, Hhd. by destruct l0.
    + unfold linked_new. simpl.
      rewrite lookup_insert_ne, lookup_insert_eq, last_snoc by done.
      repeat split; try done; try (subst x; congruence).
      intros a Ha. rewrite !data_insert.
      rewrite (decide_False (P := x = a)) by done.
      destruct (decide (t = a)) as [<-|]; [|done].
      by rewrite (data_Some _ _ _ Et).
Qed.

(** *** prepend *)

Lemma prepend_wf s l cb :
  wf s l → fresh s →
  ∃ s1 s3, getNextCounter s = Some (currentCounter s1, s1) ∧ wf s1 l ∧
    counter_step s s1 l ∧ fresh s1 ∧ 0 < currentCounter s1 < counterModulus ∧
    nextAddr s1 = nextAddr s ∧ pins s1 = pins s ∧
    prepend cb s = Some (Some (nextAddr s), release s3) ∧
    wf s3 (nextAddr s :: l) ∧
    linked_new s1 s3 (nextAddr s) (mkNode None (hd_error l) cb (currentCounter s1)).
Proof.
  intros Hwf Hfr.
  destruct (getNextCounter_wf s l Hwf) as (s1 & Hg & Hwf1 & Hstep & Hc0 & Hna & Hp & _ & _ & Hfr1).
  specialize (Hfr1 Hfr).
  destruct (fresh_notin s1 l Hwf1 Hfr1) as [Hx Hxh]. rewrite Hna in Hx, Hxh.
  set (x := nextAddr s) in *.
  pose proof Hwf1 as (Hnd & Hseg & Hhd & Htl).
  exists s1. unfold prepend. rewrite Hg. simpl. rewrite Hna. fold x.
  destruct l as [|f l0].
  - (* the list was empty *)
    simpl in Hhd. rewrite Hhd. simpl. eexists.
    do 7 (split; [done|]). split; [done|]. split.
    + unfold wf. simpl. rewrite lookup_insert_eq. simpl.
      repeat split; try done. apply NoDup_singleton.
    + unfold linked_new. simpl. rewrite lookup_insert_eq.
      repeat split; try done; try (subst x; congruence).
      intros a Ha. rewrite data_insert.
      by rewrite decide_False.
  - (* the list had a head [f] *)
    simpl in Hhd. rewrite Hhd. simpl.
    rewrite (store_Some _ _ _ _ (lookup_insert_eq _ _ _)). simpl.
    rewrite insert_insert_eq.
    assert (Hxf : x ≠ f) by (intros ->; apply Hx; left).
    apply dseg_cons in Hseg as (nf & Ef & Hpf & Hnf & Hseg).
    rewrite (store_Some _ _ _ nf) by (by rewrite lookup_insert_ne).
    simpl. eexists. do 7 (split; [done|]). split; [done|].
    apply NoDup_cons in Hnd as (Hf0 & Hnd0). split.
    + unfold wf. simpl head. simpl tail. simpl heap. repeat split.
      * apply NoDup_cons. split; [done|]. by apply NoDup_cons.
      * apply dseg_cons. eexists. rewrite lookup_insert_ne, lookup_insert_eq by done.
        split; [done|]. repeat split.
        apply (dseg_set_first_previous _ None); [done|by rewrite lookup_insert_ne|].
        apply dseg_insert_ne; [done|]. apply dseg_cons. by exists nf.
      * rewrite Htl. by rewrite last_cons_cons.
    + unfold linked_new. simpl.
      rewrite lookup_insert_ne, lookup_insert_eq by done.
      repeat split; try done; try (subst x; congruence).
      intros a Ha. rewrite !data_insert.
      rewrite (decide_False (P := x = a)) by done.
      destruct (decide (f = a)) as [<-|]; [|done].
      by rewrite (data_Some _ _ _ Ef).
Qed.

End Insertion.

Section InsertRemove.

Context {Callback : Type}.
Implicit Types (s : @State Callback) (h : gmap addr (@Node Callback)).
Implicit Types (n : @Node Callback) (a b x : addr) (l : list addr) (p q : option addr).

Ltac store_at n :=
  rewrite (store_Some _ _ _ n)
    by (rewrite ?lookup_insert_eq, ?lookup_insert_ne by done; done);
  simpl.

Lemma hd_error_app_cons l1 b l2 :
  b ∉ l1 → hd_error (l1 ++ b :: l2) = Some b → l1 = [].
Proof.
  destruct l1 as [|c l1]; [done|]. simpl. intros Hb [= ->]. exfalso. apply Hb. left.
Qed.

Lemma last_app_cons_notin l1 a l2 :
  a ∉ l2 → last (l1 ++ a :: l2) = Some a → l2 = [].
Proof.
  intros Ha. rewrite last_app, last_cons.
  destruct (last l2) as [y|] eqn:E; [|by apply last_None in E].
  intros [= ->]. exfalso. by apply Ha, last_Some_elem_of.
Qed.

Lemma wf_lock s l b : wf s l → b ∈ l → lock s (Some b) = Some b.
Proof. intros Hwf [n E]%(wf_lookup s l b Hwf). unfold lock. simpl. by rewrite E. Qed.

(** *** insert *)

Lemma insert_wf s l1 b l2 cb :
  wf s (l1 ++ b :: l2) → fresh s →
  ∃ s1 s3, getNextCounter s = Some (currentCounter s1, s1) ∧ wf s1 (l1 ++ b :: l2) ∧
    counter_step s s1 (l1 ++ b :: l2) ∧ fresh s1 ∧
    0 < currentCounter s1 < counterModulus ∧
    nextAddr s1 = nextAddr s ∧ pins s1 = pins s ∧
    insert cb (Some b) s = Some (Some (nextAddr s), release s3) ∧
    wf s3 (l1 ++ nextAddr s :: b :: l2) ∧
    linked_new s1 s3 (nextAddr s) (mkNode (last l1) (Some b) cb (currentCounter s1)) ∧
    tail s3 = tail s ∧
    head s3 = (if decide (head s = Some b) then Some (nextAddr s) else head s).
Proof.
  intros Hwf Hfr. set (l := l1 ++ b :: l2) in *.
  assert (Hbl : b ∈ l).
  { unfold l. rewrite elem_of_app, elem_of_cons. auto. }
  destruct (getNextCounter_wf s l Hwf) as (s1 & Hg & Hwf1 & Hstep & Hc0 & Hna & Hp & Hhd01 & Htl01 & Hfr1).
  specialize (Hfr1 Hfr).
  destruct (fresh_notin s1 l Hwf1 Hfr1) as [Hx Hxh]. rewrite Hna in Hx, Hxh.
  set (x := nextAddr s) in *.
  pose proof Hwf1 as (Hnd & Hseg & Hhd & Htl).
  exists s1. unfold insert. rewrite (wf_lock s l b Hwf Hbl), Hg. simpl. rewrite Hna. fold x.
  unfold l in Hnd, Hseg, Hx, Hhd, Htl.
  destruct (NoDup_mid _ _ _ Hnd) as (Hb1 & Hb2 & Hnd12).
  destruct (dseg_mid _ _ _ _ _ _ Hseg) as (nb & Eb & Hpb & Hnb).
  rewrite from_option_Some_None in Hpb.
  assert (Hxb : x ≠ b).
  { intros ->. apply Hx. rewrite elem_of_app, elem_of_cons. auto. }
  assert (Hx1 : x ∉ l1) by (intros ?; apply Hx; rewrite elem_of_app; auto).
  assert (Hx2 : x ∉ b :: l2) by (intros ?; apply Hx; rewrite elem_of_app; auto).
  apply dseg_app in Hseg as [Hseg1 Hseg2]. simpl hd_error in Hseg1. simpl in Hseg1.
  rewrite from_option_Some_None in Hseg2.
  unfold doInsert. simpl.
  rewrite (lookup_insert_ne _ x b) by done. rewrite Eb. simpl.
  store_at (mkNode None None cb (currentCounter s1)). rewrite insert_insert_eq.
  store_at (mkNode (previous nb) None cb (currentCounter s1)). rewrite insert_insert_eq.
  rewrite (lookup_insert_ne _ x b) by done. rewrite Eb. simpl.
  unfold set_previous at 1, set_next at 1. simpl.
  rewrite Hpb.
  destruct l1 as [|p l1' _] using rev_ind.
  - (* [b] was the head *)
    simpl. store_at nb.
    simpl in Hhd. rewrite Hhd. rewrite decide_True by done.
    eexists. do 7 (split; [done|]). split; [done|].
    split; [|split; [|split]].
    + unfold wf. simpl head. simpl tail. simpl heap. simpl app. repeat split.
      * apply NoDup_cons. split; [done|]. done.
      * apply dseg_cons. eexists. rewrite lookup_insert_ne, lookup_insert_eq by done.
        split; [done|]. repeat split.
        apply (dseg_set_first_previous _ None); [done|by rewrite lookup_insert_ne|].
        by apply dseg_insert_ne.
      * rewrite Htl. simpl app. by rewrite last_cons_cons.
    + unfold linked_new. simpl.
      rewrite lookup_insert_ne, lookup_insert_eq by done.
      repeat split; try done; try (subst x; congruence).
      intros a Ha. rewrite !data_insert.
      rewrite (decide_False (P := x = a)) by done.
      destruct (decide (b = a)) as [<-|]; [|done].
      by rewrite (data_Some _ _ _ Eb).
    + simpl. by rewrite Htl01.
    + simpl. rewrite <- Hhd01, Hhd. by rewrite decide_True.
  - (* [b] had the predecessor [p] *)
    rewrite last_snoc. rewrite last_snoc in Hseg2. simpl.
    assert (Hp1 : p ≠ b).
    { intros ->. apply Hb1. rewrite elem_of_app, list_elem_of_singleton. auto. }
    assert (Hxp : x ≠ p).
    { intros ->. apply Hx1. rewrite elem_of_app, list_elem_of_singleton. auto. }
    destruct (dseg_mid _ _ _ _ _ _ Hseg1) as (np & Ep & _ & _).
    store_at np. store_at nb.
    assert (Hhdb : head s1 ≠ Some b).
    { rewrite Hhd. intros E%hd_error_app_cons; [|done]. by destruct l1'. }
    rewrite decide_False by done.
    eexists. do 7 (split; [done|]). split; [done|].
    split; [|split; [|split]].
    + unfold wf. simpl head. simpl tail. simpl heap. repeat split.
      * apply NoDup_app in Hnd as (Hn1 & Hn2 & Hn3). apply NoDup_app. repeat split; [done| |].
        -- intros a Ha. rewrite elem_of_cons. intros [->|Hab]; [done|]. by apply (Hn2 a).
        -- apply NoDup_cons. split; [done|done].
      * apply dseg_app. simpl hd_error. simpl from_option. rewrite last_snoc. simpl from_option.
        apply NoDup_app in Hnd12 as (_ & Hn2 & _).
        apply NoDup_app in Hnd as (Hn1 & Hn2' & _).
        apply NoDup_app in Hn1 as (_ & Hn1 & _).
        split.
        -- apply dseg_insert_ne; [done|].
           apply (dseg_set_last_next _ _ _ _ (Some b)).
           ++ intros Hin. by apply (Hn1 p Hin), list_elem_of_singleton.
           ++ by rewrite lookup_insert_ne.
           ++ by apply dseg_insert_ne.
        -- apply dseg_cons. eexists.
           rewrite !lookup_insert_ne, lookup_insert_eq by done.
           split; [done|]. repeat split.
           apply (dseg_set_first_previous _ (Some p)); [done|by rewrite !lookup_insert_ne|].
           apply dseg_insert_ne.
           { intros Hin. apply (Hn2' p); [|done].
             rewrite elem_of_app, list_elem_of_singleton. auto. }
           by apply dseg_insert_ne.
      * rewrite Hhd. by destruct l1'.
      * rewrite Htl. by rewrite !last_app, (last_cons_cons x b l2).
    + unfold linked_new. simpl.
      rewrite !lookup_insert_ne, lookup_insert_eq by done.
      repeat split; try done; try (subst x; congruence).
      intros a Ha. rewrite !data_insert.
      rewrite (decide_False (P := x = a)) by done.
      destruct (decide (b = a)) as [<-|]; [by rewrite (data_Some _ _ _ Eb)|].
      destruct (decide (p = a)) as [<-|]; [by rewrite (data_Some _ _ _ Ep)|done].
    + simpl. by rewrite Htl01.
    + simpl. rewrite <- Hhd01. by rewrite decide_False.
Qed.

(** *** remove *)

(** The first statement of doRemoveNode, on the segment after the node. *)
Lemma unlink_next h a l2 p' :
  NoDup l2 → dseg h (Some a) l2 None →
  ∃ h1, match hd_error l2 with
        | Some nx => store nx (set_previous p') h
        | None => Some h
        end = Some h1 ∧
    dseg h1 p' l2 None ∧ (∀ b, b ∉ l2 → h1 !! b = h !! b) ∧
    (∀ b, data h1 b = data h b).
Proof.
  destruct l2 as [|nx l2]; intros Hnd Hseg.
  - exists h. done.
  - simpl hd_error. cbv iota. apply dseg_cons in Hseg as (n & E & Hp & Hn & Hseg).
    apply NoDup_cons in Hnd as [Hnx _].
    rewrite (store_Some _ _ _ _ E). eexists. split; [done|]. repeat split.
    + simpl. rewrite lookup_insert_eq. simpl. repeat split; [done|].
      by apply dseg_insert_ne.
    + intros b Hb. rewrite lookup_insert_ne; [done|]. intros ->. apply Hb. left.
    + intros b. rewrite data_insert. destruct (decide (nx = b)) as [<-|]; [|done].
      by rewrite (data_Some _ _ _ E).
Qed.

(** The second statement of doRemoveNode, on the segment before the node. *)
Lemma unlink_previous h a l1 q' :
  NoDup l1 → dseg h None l1 (Some a) →
  ∃ h2, match last l1 with
        | Some pv => store pv (set_next q') h
        | None => Some h
        end = Some h2 ∧
    dseg h2 None l1 q' ∧ (∀ b, b ∉ l1 → h2 !! b = h !! b) ∧
    (∀ b, data h2 b = data h b).
Proof.
  destruct l1 as [|pv l1 _] using rev_ind; intros Hnd Hseg.
  - exists h. done.
  - rewrite last_snoc. destruct (dseg_mid _ _ _ _ _ _ Hseg) as (n & E & _).
    rewrite (store_Some _ _ _ _ E). eexists. split; [done|].
    apply NoDup_app in Hnd as (_ & Hnd & _). repeat split.
    + apply (dseg_set_last_next _ _ _ _ (Some a)); [|done..].
      intros Hin. by apply (Hnd pv Hin), list_elem_of_singleton.
    + intros b Hb. rewrite lookup_insert_ne; [done|]. intros ->. apply Hb.
      rewrite elem_of_app, list_elem_of_singleton. auto.
    + intros b. rewrite data_insert. destruct (decide (pv = b)) as [<-|]; [|done].
      by rewrite (data_Some _ _ _ E).
Qed.

Lemma dseg_frame h h' p l q :
  (∀ b, b ∈ l → h' !! b = h !! b) → dseg h p l q → dseg h' p l q.
Proof.
  intros H. apply dseg_links. intros b Hb. unfold links. by rewrite H.
Qed.

(** doRemoveNode on a node of a well-formed chain. *)
Lemma doRemoveNode_wf s l1 a l2 :
  wf s (l1 ++ a :: l2) →
  ∃ n s1, heap s !! a = Some n ∧ previous n = last l1 ∧ next n = hd_error l2 ∧
    doRemoveNode a s = Some s1 ∧ wf s1 (l1 ++ l2) ∧
    heap s1 !! a = Some (set_counter removedCounter n) ∧
    (∀ b, b ≠ a → data (heap s1) b = data (heap s) b) ∧
    (∀ b, b ∉ l1 ++ a :: l2 → heap s1 !! b = heap s !! b) ∧
    currentCounter s1 = currentCounter s ∧ nextAddr s1 = nextAddr s ∧
    pins s1 = pins s.
Proof.
  intros (Hnd & Hseg & Hhd & Htl).
  destruct (NoDup_mid _ _ _ Hnd) as (Ha1 & Ha2 & Hnd12).
  destruct (dseg_mid _ _ _ _ _ _ Hseg) as (n & E & Hp & Hn).
  rewrite from_option_Some_None in Hp, Hn.
  apply dseg_app in Hseg as [Hseg1 Hseg2]. simpl hd_error in Hseg1. simpl in Hseg1.
  apply dseg_cons in Hseg2 as (? & E' & _ & _ & Hseg2).
  assert (Hdisj : ∀ b, b ∈ l1 → b ∉ l2).
  { apply NoDup_app in Hnd12 as (_ & H & _). done. }
  assert (Hnd2' : NoDup l2) by (by apply NoDup_app in Hnd12 as (_ & _ & ?)).
  destruct (unlink_next (heap s) a l2 (previous n) Hnd2' Hseg2) as (h1 & Hs1 & Hseg2' & Hfr1 & Hd1).
  assert (Hseg1' : dseg h1 None l1 (Some a)).
  { revert Hseg1. apply dseg_frame. intros b Hb. by apply Hfr1, Hdisj. }
  apply NoDup_app in Hnd12 as (Hnd1 & _ & Hnd2).
  destruct (unlink_previous h1 a l1 (next n) Hnd1 Hseg1') as (h2 & Hs2 & Hseg1'' & Hfr2 & Hd2).
  assert (E1 : h1 !! a = Some n) by (by rewrite Hfr1).
  assert (E2 : h2 !! a = Some n) by (by rewrite Hfr2).
  exists n. unfold doRemoveNode. rewrite E. simpl.
  rewrite Hn, Hs1. simpl. rewrite E1. simpl. rewrite Hp, Hs2. simpl. rewrite E2. simpl.
  set (s2 := if decide (head s = Some a) then _ else _).
  assert (Hs2h : heap s2 = h2) by (unfold s2; by destruct (decide _)).
  assert (Hs2t : tail s2 = tail s) by (unfold s2; by destruct (decide _)).
  assert (Hs2hd : head s2 = hd_error (l1 ++ l2)).
  { unfold s2. destruct (decide _) as [Eh|Eh]; simpl.
    - rewrite Hhd in Eh. apply hd_error_app_cons in Eh as ->; done.
    - rewrite Hhd. destruct l1; [|done]. simpl in *. congruence. }
  assert (Hs2o : currentCounter s2 = currentCounter s ∧ nextAddr s2 = nextAddr s ∧ pins s2 = pins s)
    by (unfold s2; by destruct (decide _)).
  rewrite Hs2t.
  set (s3 := if decide (tail s = Some a) then _ else _).
  assert (Hs3h : heap s3 = h2) by (unfold s3; by destruct (decide (tail s = Some a))).
  assert (Hs3hd : head s3 = hd_error (l1 ++ l2))
    by (unfold s3; by destruct (decide (tail s = Some a))).
  assert (Hs3t : tail s3 = last (l1 ++ l2)).
  { unfold s3. destruct (decide (tail s = Some a)) as [Et|Et]; simpl; rewrite ?Hs2t.
    - rewrite Htl in Et. apply last_app_cons_notin in Et as ->; [|done].
      by rewrite app_nil_r.
    - rewrite Htl, !last_app, last_cons. destruct (last l2) eqn:El; [done|].
      apply last_None in El as ->. rewrite last_app in Htl. simpl in Htl. congruence. }
  assert (Hs3o : currentCounter s3 = currentCounter s ∧ nextAddr s3 = nextAddr s ∧ pins s3 = pins s)
    by (unfold s3; by destruct (decide (tail s = Some a))).
  rewrite Hs3h. rewrite (store_Some _ _ _ _ E2). eexists.
  do 3 (split; [done|]). split; [done|].
  split; [|split; [|split; [|split]]].
  - unfold wf. simpl. rewrite Hs3hd, Hs3t. repeat split; try done.
    + apply NoDup_app. repeat split; try done.
    + apply dseg_app. rewrite from_option_Some_None. split.
      * apply dseg_insert_ne; [done|]. by rewrite <- Hn.
      * apply dseg_insert_ne; [done|]. rewrite from_option_Some_None.
        revert Hseg2'. rewrite Hp. apply dseg_frame.
        intros b Hb. apply Hfr2. intros Hb1. by apply (Hdisj b).
  - simpl. by rewrite lookup_insert_eq.
  - intros b Hb. simpl. rewrite data_insert, decide_False by done.
    by rewrite Hd2, Hd1.
  - intros b Hb. simpl. rewrite lookup_insert_ne.
    + rewrite Hfr2, Hfr1; [done|..]; intros ?; apply Hb;
        rewrite elem_of_app, elem_of_cons; auto.
    + intros ->. apply Hb. rewrite elem_of_app, elem_of_cons. auto.
  - simpl. done.
Qed.

End InsertRemove.

Section Quiescent.

Context {Callback : Type}.
Implicit Types (s : @State Callback) (h : gmap addr (@Node Callback)).
Implicit Types (n : @Node Callback) (a b x : addr) (l : list addr) (p q : option addr).

Lemma Inv_fresh_state s l : Inv s l → fresh s.
Proof. by intros (_ & _ & _ & _ & _ & _ & ?). Qed.

(** The operations at a quiescent point: they return, and the invariant
    holds again afterwards. *)
Lemma append_Inv s l cb :
  Inv s l →
  ∃ s1 s', getNextCounter s = Some (currentCounter s1, s1) ∧ Inv s1 l ∧
    counter_step s s1 l ∧
    append cb s = Some (Some (nextAddr s), s') ∧ Inv s' (l ++ [nextAddr s]) ∧
    linked_new s1 s' (nextAddr s) (mkNode (last l) None cb (currentCounter s1)).
Proof.
  intros HI.
  destruct (append_wf s l cb (Inv_wf _ _ HI) (Inv_fresh_state _ _ HI))
    as (s1 & s3 & Hg & Hwf1 & Hstep & Hfr1 & Hc0 & Hna & Hp & Happ & Hwf3 & Hnew).
  pose proof (getNextCounter_Inv _ _ _ HI Hg Hstep) as HI1.
  destruct (linked_new_Inv s1 s3 _ _ l (l ++ [nextAddr s]) HI1 Hwf3 Hnew) as [HI3 Hrel];
    [|done|lia|].
  { intros a. rewrite elem_of_app, list_elem_of_singleton. tauto. }
  exists s1, s3. rewrite Hrel in Happ. done.
Qed.

Lemma prepend_Inv s l cb :
  Inv s l →
  ∃ s1 s', getNextCounter s = Some (currentCounter s1, s1) ∧ Inv s1 l ∧
    counter_step s s1 l ∧
    prepend cb s = Some (Some (nextAddr s), s') ∧ Inv s' (nextAddr s :: l) ∧
    linked_new s1 s' (nextAddr s) (mkNode None (hd_error l) cb (currentCounter s1)).
Proof.
  intros HI.
  destruct (prepend_wf s l cb (Inv_wf _ _ HI) (Inv_fresh_state _ _ HI))
    as (s1 & s3 & Hg & Hwf1 & Hstep & Hfr1 & Hc0 & Hna & Hp & Happ & Hwf3 & Hnew).
  pose proof (getNextCounter_Inv _ _ _ HI Hg Hstep) as HI1.
  destruct (linked_new_Inv s1 s3 _ _ l (nextAddr s :: l) HI1 Hwf3 Hnew) as [HI3 Hrel];
    [|done|lia|].
  { intros a. rewrite elem_of_cons. tauto. }
  exists s1, s3. rewrite Hrel in Happ. done.
Qed.

Lemma insert_Inv s l1 b l2 cb :
  Inv s (l1 ++ b :: l2) →
  ∃ s1 s', getNextCounter s = Some (currentCounter s1, s1) ∧ Inv s1 (l1 ++ b :: l2) ∧
    counter_step s s1 (l1 ++ b :: l2) ∧
    insert cb (Some b) s = Some (Some (nextAddr s), s') ∧
    Inv s' (l1 ++ nextAddr s :: b :: l2) ∧
    linked_new s1 s' (nextAddr s) (mkNode (last l1) (Some b) cb (currentCounter s1)) ∧
    tail s' = tail s ∧
    head s' = (if decide (head s = Some b) then Some (nextAddr s) else head s).
Proof.
  intros HI.
  destruct (insert_wf s l1 b l2 cb (Inv_wf _ _ HI) (Inv_fresh_state _ _ HI))
    as (s1 & s3 & Hg & Hwf1 & Hstep & Hfr1 & Hc0 & Hna & Hp & Happ & Hwf3 & Hnew & Htl & Hhd).
  pose proof (getNextCounter_Inv _ _ _ HI Hg Hstep) as HI1.
  destruct (linked_new_Inv s1 s3 _ _ _ (l1 ++ nextAddr s :: b :: l2) HI1 Hwf3 Hnew) as [HI3 Hrel];
    [|done|lia|].
  { intros a. rewrite !elem_of_app, !elem_of_cons. tauto. }
  exists s1, s3. rewrite Hrel in Happ. done.
Qed.

(** The links of the nodes of a chain stay inside the chain. *)
Lemma wf_points_to s l a b nb :
  wf s l → b ∈ l → heap s !! b = Some nb → points_to a nb → a ∈ l.
Proof.
  intros (_ & Hseg & _) (l1 & l2 & ->)%list_elem_of_split E Hpt.
  destruct (dseg_mid _ _ _ _ _ _ Hseg) as (n & E' & Hp & Hn).
  assert (n = nb) as -> by congruence.
  rewrite from_option_Some_None in Hp, Hn.
  rewrite elem_of_app, elem_of_cons. destruct Hpt as [Hpt|Hpt].
  - left. rewrite Hp in Hpt. by apply last_Some_elem_of.
  - right. right. rewrite Hn in Hpt. by apply head_Some_elem_of.
Qed.

Lemma sweep1_chain s l :
  wf s l → (∀ a, is_Some (heap s !! a) → a ∈ l) → sweep1 s = s.
Proof.
  intros Hwf Hd. apply sweep1_id. intros a Ha.
  eapply anchored_referenced; [by apply wf_anchored|]. by apply Hd.
Qed.

(** remove at a quiescent point: the node is unlinked and, having lost its
    last strong reference, destroyed. *)
Lemma remove_Inv s l1 a l2 :
  Inv s (l1 ++ a :: l2) →
  ∃ s', remove (Some a) s = Some (true, s') ∧ Inv s' (l1 ++ l2) ∧
    heap s' !! a = None ∧
    (∀ b, b ≠ a → data (heap s') b = data (heap s) b) ∧
    nextAddr s' = nextAddr s ∧ currentCounter s' = currentCounter s.
Proof.
  intros HI. pose proof (Inv_wf _ _ HI) as Hwf.
  destruct (doRemoveNode_wf s l1 a l2 Hwf) as (n & s1 & E & Hp & Hn & Hrm & Hwf1 & E1 & Hd & Hfr & Hcc & Hna & Hpins).
  pose proof Hwf as (Hnd & _).
  destruct (NoDup_mid _ _ _ Hnd) as (Ha1 & Ha2 & Hnd12).
  assert (Hal : a ∉ l1 ++ l2) by (rewrite elem_of_app; tauto).
  assert (Hdom1 : ∀ b, b ≠ a → is_Some (heap s1 !! b) → b ∈ l1 ++ l2).
  { intros b Hb Hs. rewrite (data_is_Some _ _ _ (Hd b Hb)) in Hs.
    apply (Inv_dom _ _ _ HI) in Hs. revert Hs. rewrite !elem_of_app, elem_of_cons. tauto. }
  assert (Hunref : ¬ referenced s1 a).
  { pose proof Hwf1 as (_ & _ & Hhd1 & Htl1).
    intros [H|[H|[H|(b & nb & Eb & Hpt)]]].
    - rewrite Hhd1 in H. by apply head_Some_elem_of in H.
    - rewrite Htl1 in H. by apply last_Some_elem_of in H.
    - rewrite Hpins, (Inv_pins _ _ HI) in H. by apply elem_of_nil in H.
    - destruct (decide (b = a)) as [->|Hb].
      + assert (nb = set_counter removedCounter n) as -> by congruence.
        destruct Hpt as [H|H]; simpl in H.
        * rewrite Hp in H. by apply last_Some_elem_of in H.
        * rewrite Hn in H. by apply head_Some_elem_of in H.
      + apply Hal. eapply (wf_points_to s1 _ a b nb); eauto. }
  set (s1' := set_heap (delete a (heap s1)) s1).
  assert (Hsw : sweep1 s1 = s1').
  { unfold sweep1, s1'. f_equal. apply map_eq. intros b. apply option_eq. intros nb.
    rewrite map_lookup_filter_Some, lookup_delete_Some. simpl. split.
    - intros [Eb Hr]. split; [|done]. by intros ->.
    - intros [Hb Eb]. split; [done|].
      eapply anchored_referenced; [by apply wf_anchored|]. apply Hdom1; eauto. }
  assert (Hwf1' : wf s1' (l1 ++ l2)).
  { destruct Hwf1 as (? & Hseg & ? & ?). unfold wf. repeat split; try done.
    revert Hseg. apply dseg_frame. intros b Hb. simpl.
    rewrite lookup_delete_ne; [done|]. by intros ->. }
  assert (Hdom1' : ∀ b, is_Some (heap s1' !! b) ↔ b ∈ l1 ++ l2).
  { intros b. simpl. rewrite lookup_delete_is_Some. split.
    - intros [? ?]. apply Hdom1; eauto.
    - intros Hb. split; [by intros ->|]. by apply (wf_lookup s1 (l1 ++ l2)). }
  assert (Hrel : release s1 = s1').
  { unfold release. destruct (size (heap s1)) as [|k] eqn:Hsz.
    - apply map_size_empty_iff in Hsz. rewrite Hsz in E1. by rewrite lookup_empty in E1.
    - simpl. rewrite Hsw. apply sweep_rounds_id.
      apply (sweep1_chain s1' (l1 ++ l2)); [done|]. by intros b ?%Hdom1'. }
  exists s1'. unfold remove. rewrite (wf_lock s _ a Hwf), Hrm; simpl.
  2:{ rewrite elem_of_app, elem_of_cons. auto. }
  rewrite Hrel. split; [done|]. split; [|split; [|split]].
  - apply Inv_intro; [done| |done| |].
    + simpl. rewrite Hpins. by eapply Inv_pins.
    + intros b nb. simpl. rewrite lookup_delete_Some. intros [Hb%not_eq_sym Eb].
      assert (is_Some (heap s !! b)) as [nb0 Eb0].
      { apply (data_is_Some _ _ _ (Hd b Hb)). eauto. }
      destruct (data_lookup _ _ _ _ (Hd b Hb) Eb0) as (nb' & Eb' & _ & Hc).
      assert (nb' = nb) as -> by congruence. split.
      * rewrite Hna. pose proof (Inv_fresh_state _ _ HI) as Hf. by apply Hf in Eb0.
      * rewrite Hcc. pose proof (Inv_counter _ _ _ _ HI Eb0) as Hok.
        unfold counter_ok in *. by rewrite Hc.
    + simpl. rewrite Hcc. by eapply Inv_range.
  - simpl. apply lookup_delete_eq.
  - intros b Hb. simpl. unfold data. rewrite lookup_delete_ne by done. by apply Hd.
  - simpl. done.
Qed.

End Quiescent.

Section Traversal.

Context {Callback : Type}.
Implicit Types (s : @State Callback) (h : gmap addr (@Node Callback)).
Implicit Types (n : @Node Callback) (a b x : addr) (l : list addr) (p q : option addr).

Lemma set_pins_id s : set_pins (pins s) s = s.
Proof. by destruct s. Qed.

Lemma wf_stable s l :
  wf s l → (∀ a, is_Some (heap s !! a) → a ∈ l) → stable s.
Proof. intros Hwf Hd ps. by apply (release_chain _ l). Qed.

Lemma Inv_stable s l : Inv s l → stable s.
Proof.
  intros HI. apply (wf_stable s l); [by apply Inv_wf|].
  intros a. by rewrite (Inv_dom s l a HI).
Qed.

(** [node = node->next] in a stable state. *)
Lemma unpin_pin a nxt ps s :
  stable s →
  unpin a (pin nxt (set_pins (a :: ps) s)) = set_pins (option_list nxt ++ ps) s.
Proof.
  intros Hst. unfold unpin. destruct nxt as [b|]; simpl.
  - destruct (decide (a = b)) as [->|]; rewrite ?decide_True by done; apply Hst.
  - rewrite decide_True by done. apply Hst.
Qed.

Lemma unpin_stable a ps s :
  stable s → unpin a (set_pins (a :: ps) s) = set_pins ps s.
Proof. intros Hst. unfold unpin. simpl. rewrite decide_True by done. apply Hst. Qed.

(** The loop over a segment of a stable state, with a visitor that leaves
    the list alone. *)
Lemma loop_segment {V} (f : Visitor V) g c0 s0 fuel p l ps (u : V) :
  stable s0 → acts_as f s0 g → dseg (heap s0) p l None → (length l ≤ fuel)%nat →
  doForEachIf_loop fuel f c0 (hd_error l) (set_pins (option_list (hd_error l) ++ ps) s0) u =
  (λ ru, (ru.1, set_pins ps s0, ru.2)) <$> visit_until g (visible c0 (heap s0) l) u.
Proof.
  intros Hst Hf. revert fuel p u.
  induction l as [|a l IH]; intros fuel p u Hseg Hfuel.
  - by destruct fuel.
  - destruct fuel as [|fuel]; [simpl in Hfuel; lia|].
    apply dseg_cons in Hseg as (n & E & _ & Hn & Hseg).
    rewrite from_option_Some_None in Hn.
    cbn [hd_error doForEachIf_loop].
    change (option_list (Some a) ++ ps) with (a :: ps). simpl heap.
    rewrite E. cbn [mbind option_bind].
    unfold visible.
    destruct (decide (counter n ≠ removedCounter ∧ counter n ≤ c0)) as [He|He].
    + rewrite filter_cons_True
        by (unfold eligible; rewrite E; by apply bool_decide_pack).
      rewrite Hf. cbn [visit_until].
      destruct (g a u) as [[r u']|]; [|done]. cbn [fmap option_fmap option_map mbind option_bind fst snd].
      destruct r.
      * simpl heap. rewrite E. cbn [mbind option_bind]. rewrite Hn.
        rewrite unpin_pin by done.
        apply (IH fuel (Some a)); [done|simpl in Hfuel; lia].
      * by rewrite unpin_stable.
    + rewrite filter_cons_False
        by (unfold eligible; rewrite E; by intros ?%bool_decide_unpack).
      cbn [mbind option_bind]. simpl heap. rewrite E. cbn [mbind option_bind]. rewrite Hn.
      rewrite unpin_pin by done.
      apply (IH fuel (Some a)); [done|simpl in Hfuel; lia].
Qed.

(** doForEachIf at a quiescent point, with a visitor that leaves the list
    alone: the visitor is called on the eligible nodes of the chain, in
    order, until it returns false; the list is unchanged. *)
Lemma doForEachIf_quiescent {V} (f : Visitor V) g s l fuel (u : V) :
  Inv s l → acts_as f s g → (length l ≤ fuel)%nat →
  doForEachIf fuel f s u =
  (λ ru, (ru.1, s, ru.2)) <$> visit_until g (visible (currentCounter s) (heap s) l) u.
Proof.
  intros HI Hf Hfuel. pose proof (Inv_wf _ _ HI) as (_ & Hseg & Hhd & _).
  unfold doForEachIf. rewrite Hhd.
  assert (pin (hd_error l) s = set_pins (option_list (hd_error l) ++ []) s) as ->.
  { rewrite app_nil_r. unfold pin. rewrite (Inv_pins _ _ HI).
    destruct (hd_error l); simpl; [done|]. rewrite <- (Inv_pins _ _ HI). by rewrite set_pins_id. }
  rewrite (loop_segment f g _ s fuel None l [] u); try done; [|by eapply Inv_stable].
  rewrite <- (Inv_pins _ _ HI). by rewrite set_pins_id.
Qed.

Lemma filter_Forall_id {A} (P : A → Prop) `{!∀ y : A, Decision (P y)} (l : list A) :
  Forall P l → filter P l = l.
Proof. induction 1; [done|]. rewrite filter_cons_True by done. by f_equal. Qed.

(** At a quiescent point every node that is not removed is eligible. *)
Lemma visible_all s l :
  Inv s l → all_live s → visible (currentCounter s) (heap s) l = l.
Proof.
  intros HI Hlive. unfold visible.
  apply filter_Forall_id. apply Forall_forall. intros a Ha.
  apply (Inv_dom _ _ _ HI) in Ha as [n E]. unfold eligible. rewrite E.
  apply bool_decide_pack. pose proof (Inv_counter _ _ _ _ HI E) as Hok.
  pose proof (Hlive _ _ E) as Hl. simpl in Hl. unfold counter_ok in Hok.
  split; [done|]. destruct Hok as [?|[_ ?]]; done.
Qed.

End Traversal.

Section Traces.

Context {Callback : Type}.
Implicit Types (s : @State Callback) (h : gmap addr (@Node Callback)).
Implicit Types (n : @Node Callback) (a x : addr) (l : list addr) (p q : option addr).
Implicit Types (b : bool).

Lemma stops_at_first_false_cons b a log :
  stops_at_first_false b log → stops_at_first_false b ((a, true) :: log).
Proof.
  destruct b; simpl.
  - intros H. by constructor.
  - intros (pre & a' & -> & H). exists ((a, true) :: pre), a'. split; [done|]. by constructor.
Qed.

(** Erasing the instrumentation. *)
Lemma loop_traced_erase {V} (f : Visitor V) fuel c0 node s (u : V) log :
  (λ r, (r.1.1, r.1.2, r.2.1)) <$> doForEachIf_loop fuel (traced f) c0 node s (u, log) =
  doForEachIf_loop fuel f c0 node s u.
Proof.
  revert node s u log. induction fuel as [|fuel IH]; intros node s u log.
  - by destruct node.
  - destruct node as [a|]; [|done]. cbn [doForEachIf_loop].
    destruct (heap s !! a) as [n|]; [|done]. cbn [mbind option_bind].
    destruct (decide _) as [He|He].
    + unfold traced at 2. cbn [fst snd].
      destruct (f a s u) as [[[r s1] u1]|]; [|done]. cbn [mbind option_bind].
      destruct r; [|done].
      destruct (heap s1 !! a) as [n1|]; [|done]. cbn [mbind option_bind]. apply IH.
    + cbn [mbind option_bind].
      destruct (heap s !! a) as [n1|]; [|done]. cbn [mbind option_bind]. apply IH.
Qed.

Lemma doForEachIf_traced_erase {V} (f : Visitor V) fuel s (u : V) :
  (λ r, (r.1.1, r.1.2, r.2.1)) <$> doForEachIf fuel (traced f) s (u, []) =
  doForEachIf fuel f s u.
Proof. apply loop_traced_erase. Qed.

(** The loop stops at the first call that returns false, and only then
    returns false. *)
Lemma loop_traced_result {V} (f : Visitor V) fuel c0 node s (u : V) log0 b s' u' log :
  doForEachIf_loop fuel (traced f) c0 node s (u, log0) = Some (b, s', (u', log)) →
  ∃ new, log = log0 ++ new ∧ stops_at_first_false b new.
Proof.
  revert node s u log0. induction fuel as [|fuel IH]; intros node s u log0.
  - destruct node; [done|]. simpl. intros [= <- <- <- <-]. exists [].
    rewrite app_nil_r. split; [done|]. constructor.
  - destruct node as [a|].
    2:{ simpl. intros [= <- <- <- <-]. exists []. rewrite app_nil_r.
        split; [done|]. constructor. }
    cbn [doForEachIf_loop].
    destruct (heap s !! a) as [n|]; [|done]. cbn [mbind option_bind].
    destruct (decide _) as [He|He].
    + unfold traced at 2. cbn [fst snd].
      destruct (f a s u) as [[[r s1] u1]|]; [|done]. cbn [mbind option_bind].
      destruct r.
      * destruct (heap s1 !! a) as [n1|]; [|done]. cbn [mbind option_bind].
        intros (new & -> & Hnew)%IH. exists ((a, true) :: new).
        rewrite <- app_assoc. split; [done|]. by apply stops_at_first_false_cons.
      * intros [= <- <- <- <-]. exists [(a, false)]. split; [done|].
        exists [], a. split; [done|]. constructor.
    + cbn [mbind option_bind].
      destruct (heap s !! a) as [n1|]; [|done]. cbn [mbind option_bind].
      apply IH.
Qed.

Lemma doForEachIf_traced_result {V} (f : Visitor V) fuel s (u : V) b s' u' log :
  doForEachIf fuel (traced f) s (u, []) = Some (b, s', (u', log)) →
  stops_at_first_false b log.
Proof. intros (new & -> & H)%loop_traced_result. done. Qed.

Lemma stops_at_first_false_true_iff b log :
  stops_at_first_false b log → b = true ↔ Forall (λ e, e.2 = true) log.
Proof.
  destruct b; simpl; [tauto|]. intros (pre & a & -> & _). split; [done|].
  intros H. apply Forall_app in H as [_ H]. by inversion H.
Qed.

(** A visitor that always returns true is called until the chain ends. *)
Lemma loop_traced_all_true {V} (f : Visitor V) fuel c0 node s (u : V) log0 b s' u' log :
  (∀ a s u r s' u', f a s u = Some (r, s', u') → r = true) →
  doForEachIf_loop fuel (traced f) c0 node s (u, log0) = Some (b, s', (u', log)) →
  b = true ∧ ∃ new, log = log0 ++ new ∧ Forall (λ e, e.2 = true) new.
Proof.
  intros Hf Hrun.
  cut (∃ new, log = log0 ++ new ∧ Forall (λ e : addr * bool, e.2 = true) new).
  { intros (new & -> & Hall). split; [|eauto].
    destruct (loop_traced_result _ _ _ _ _ _ _ _ _ _ _ Hrun) as (new' & E & Hnew).
    apply app_inv_head in E as <-.
    by apply (stops_at_first_false_true_iff b new). }
  revert node s u log0 Hrun.
  induction fuel as [|fuel IH]; intros node s u log0.
  - destruct node; [done|]. simpl. intros [= _ _ _ <-]. exists [].
    rewrite app_nil_r. split; [done|]. constructor.
  - destruct node as [a|].
    2:{ simpl. intros [= _ _ _ <-]. exists []. rewrite app_nil_r.
        split; [done|]. constructor. }
    cbn [doForEachIf_loop].
    destruct (heap s !! a) as [n|]; [|done]. cbn [mbind option_bind].
    destruct (decide _) as [He|He].
    + unfold traced at 2. cbn [fst snd].
      destruct (f a s u) as [[[r s1] u1]|] eqn:Hfa; [|done]. cbn [mbind option_bind].
      apply Hf in Hfa as ->.
      destruct (heap s1 !! a) as [n1|]; [|done]. cbn [mbind option_bind].
      intros (new & -> & Hnew)%IH. exists ((a, true) :: new).
      rewrite <- app_assoc. split; [done|]. by constructor.
    + cbn [mbind option_bind].
      destruct (heap s !! a) as [n1|]; [|done]. cbn [mbind option_bind].
      apply IH.
Qed.

(** What the visitors of a run amount to when each call returns true. *)
Lemma visit_until_true {V} (g : addr → V → option (bool * V)) (e : addr → V → V) l (u : V) :
  (∀ a u, a ∈ l → g a u = Some (true, e a u)) →
  visit_until g l u = Some (true, foldl (λ u a, e a u) u l).
Proof.
  revert u. induction l as [|a l IH]; intros u Hg; [done|].
  simpl. rewrite Hg by left. simpl. apply IH. intros a' u' Hb. apply Hg. by right.
Qed.

Lemma foldl_callbacks_of {V} (eff : Callback → V → V) h l (u : V) :
  (∀ a, a ∈ l → is_Some (h !! a)) →
  foldl (λ u a, from_option (λ n, eff (callback n) u) u (h !! a)) u l =
  foldl (λ u cb, eff cb u) u (callbacks_of h l).
Proof.
  revert u. induction l as [|a l IH]; intros u Hl; [done|].
  destruct (Hl a) as [n E]; [left|]. unfold callbacks_of. simpl. rewrite E. simpl.
  apply IH. intros a' Hb. apply Hl. by right.
Qed.

End Traces.

(** ** Insertions while a dispatch is in progress *)

Section Visibility.

Context {Callback : Type}.
Implicit Types (s : @State Callback) (h : gmap addr (@Node Callback)).
Implicit Types (n : @Node Callback) (a x : addr) (l : list addr) (p q : option addr).

Lemma ctr_rel_refl h : ctr_rel h h.
Proof. intros a n E. eauto. Qed.

Lemma ctr_rel_trans h1 h2 h3 : ctr_rel h1 h2 → ctr_rel h2 h3 → ctr_rel h1 h3.
Proof.
  intros H12 H23 a n3 E3. destruct (H23 a n3 E3) as (n2 & E2 & H2).
  destruct (H12 a n2 E2) as (n1 & E1 & H1). exists n1. split; [done|].
  destruct H2 as [->|?]; auto.
Qed.

Lemma ctr_rel_store a f h h' :
  store a f h = Some h' →
  (∀ n, counter (f n) = counter n ∨ counter (f n) = removedCounter) →
  ctr_rel h h'.
Proof.
  intros (n & E & ->)%store_inv Hf b n'. rewrite lookup_insert_Some.
  intros [[<- <-]|[_ E']]; eauto.
Qed.

Lemma ctr_rel_store_opt (o : option addr) f h h' :
  match o with Some a => store a f h | None => Some h end = Some h' →
  (∀ n, counter (f n) = counter n ∨ counter (f n) = removedCounter) →
  ctr_rel h h'.
Proof.
  destruct o; [by apply ctr_rel_store|]. intros [= <-] _. apply ctr_rel_refl.
Qed.

Ltac ctr_store H :=
  first [eapply ctr_rel_store; [exact H|] | eapply ctr_rel_store_opt; [exact H|]];
  intros; ((by left) || (by right)).

Lemma ctr_rel_release s : ctr_rel (heap s) (heap (release s)).
Proof. intros a n E. apply release_lookup_Some in E. eauto. Qed.

Create HintDb ctr.
Local Hint Resolve ctr_rel_refl ctr_rel_release : ctr.

(** The operations on an arbitrary state, when they return. *)
Lemma append_ctr s cb hd s' :
  append cb s = Some (hd, s') →
  ∃ c s1, getNextCounter s = Some (c, s1) ∧
    ctr_rel (<[nextAddr s := mkNode None None cb c]> (heap s1)) (heap s') ∧
    nextAddr s' = S (nextAddr s) ∧ currentCounter s' = c.
Proof.
  unfold append. destruct (getNextCounter s) as [[c s1]|] eqn:Hg; [|done].
  destruct (getNextCounter_result _ _ _ Hg) as (_ & Hc & _ & _ & _ & Hna & _).
  cbn [mbind option_bind]. unfold make_shared. rewrite Hna.
  set (h0 := <[nextAddr s := _]> (heap s1)).
  intros (s3 & H3 & [= <- <-])%bind_Some. exists c, s1. split; [done|].
  rewrite release_nextAddr, release_currentCounter.
  cut (ctr_rel h0 (heap s3) ∧ nextAddr s3 = S (nextAddr s) ∧ currentCounter s3 = c).
  { intros (? & ? & ?). split; [|done]. eapply ctr_rel_trans; eauto with ctr. }
  simpl in H3. destruct (head s1).
  - apply bind_Some in H3 as (h1 & H1 & H3). apply bind_Some in H3 as (t & Ht & H3).
    apply bind_Some in H3 as (h2 & H2 & [= <-]). simpl. split; [|done].
    eapply ctr_rel_trans; [ctr_store H1|ctr_store H2].
  - injection H3 as <-. simpl. split; [|done]. apply ctr_rel_refl.
Qed.

Lemma prepend_ctr s cb hd s' :
  prepend cb s = Some (hd, s') →
  ∃ c s1, getNextCounter s = Some (c, s1) ∧
    ctr_rel (<[nextAddr s := mkNode None None cb c]> (heap s1)) (heap s') ∧
    nextAddr s' = S (nextAddr s) ∧ currentCounter s' = c.
Proof.
  unfold prepend. destruct (getNextCounter s) as [[c s1]|] eqn:Hg; [|done].
  destruct (getNextCounter_result _ _ _ Hg) as (_ & Hc & _ & _ & _ & Hna & _).
  cbn [mbind option_bind]. unfold make_shared. rewrite Hna.
  set (h0 := <[nextAddr s := _]> (heap s1)).
  intros (s3 & H3 & [= <- <-])%bind_Some. exists c, s1. split; [done|].
  rewrite release_nextAddr, release_currentCounter.
  cut (ctr_rel h0 (heap s3) ∧ nextAddr s3 = S (nextAddr s) ∧ currentCounter s3 = c).
  { intros (? & ? & ?). split; [|done]. eapply ctr_rel_trans; eauto with ctr. }
  simpl in H3. destruct (head s1).
  - apply bind_Some in H3 as (h1 & H1 & H3).
    apply bind_Some in H3 as (h2 & H2 & [= <-]). simpl. split; [|done].
    eapply ctr_rel_trans; [ctr_store H1|ctr_store H2].
  - injection H3 as <-. simpl. split; [|done]. apply ctr_rel_refl.
Qed.

Lemma doInsert_ctr node beforeNode s s' :
  doInsert node beforeNode s = Some s' →
  ctr_rel (heap s) (heap s') ∧ nextAddr s' = nextAddr s ∧
  currentCounter s' = currentCounter s.
Proof.
  unfold doInsert. intros (nb & Eb & H)%bind_Some.
  apply bind_Some in H as (h1 & H1 & H). apply bind_Some in H as (h2 & H2 & H).
  apply bind_Some in H as (nb2 & Eb2 & H). apply bind_Some in H as (h3 & H3 & H).
  apply bind_Some in H as (h4 & H4 & [= <-]).
  assert (ctr_rel (heap s) h4).
  { eapply ctr_rel_trans; [|ctr_store H4].
    eapply ctr_rel_trans; [|ctr_store H3].
    eapply ctr_rel_trans; [ctr_store H1|ctr_store H2]. }
  destruct (decide _); done.
Qed.

Lemma insert_ctr s cb before hd s' :
  insert cb before s = Some (hd, s') →
  ∃ c s1, getNextCounter s = Some (c, s1) ∧
    ctr_rel (<[nextAddr s := mkNode None None cb c]> (heap s1)) (heap s') ∧
    nextAddr s' = S (nextAddr s) ∧ currentCounter s' = c.
Proof.
  unfold insert. destruct (lock s before) as [b|]; [|apply append_ctr].
  destruct (getNextCounter s) as [[c s1]|] eqn:Hg; [|done].
  destruct (getNextCounter_result _ _ _ Hg) as (_ & Hc & _ & _ & _ & Hna & _).
  cbn [mbind option_bind]. unfold make_shared. rewrite Hna.
  intros (s3 & H3 & [= <- <-])%bind_Some. exists c, s1. split; [done|].
  rewrite release_nextAddr, release_currentCounter.
  apply doInsert_ctr in H3 as (H3 & -> & ->). simpl. split; [|done].
  eapply ctr_rel_trans; eauto with ctr.
Qed.

Lemma doRemoveNode_ctr node s s' :
  doRemoveNode node s = Some s' →
  ctr_rel (heap s) (heap s') ∧ nextAddr s' = nextAddr s ∧
  currentCounter s' = currentCounter s.
Proof.
  unfold doRemoveNode. intros (n & E & H)%bind_Some.
  apply bind_Some in H as (h1 & H1 & H). apply bind_Some in H as (n1 & E1 & H).
  apply bind_Some in H as (h2 & H2 & H). apply bind_Some in H as (n2 & E2 & H).
  apply bind_Some in H as (h3 & H3 & [= <-]).
  assert (H12 : ctr_rel (heap s) h2).
  { eapply ctr_rel_trans; [ctr_store H1|ctr_store H2]. }
  revert H3. simpl.
  destruct (decide (head s = Some node)); simpl;
    (destruct (decide (tail s = Some node)); simpl; intros H3;
     (split; [|done]; eapply ctr_rel_trans; [exact H12|ctr_store H3])).
Qed.

Lemma remove_ctr s handle r s' :
  remove handle s = Some (r, s') →
  ctr_rel (heap s) (heap s') ∧ nextAddr s' = nextAddr s ∧
  currentCounter s' = currentCounter s.
Proof.
  unfold remove. destruct (lock s handle) as [node|].
  - intros (s1 & (H & Hn & Hc)%doRemoveNode_ctr & [= <- <-])%bind_Some.
    rewrite release_nextAddr, release_currentCounter. split; [|done].
    eapply ctr_rel_trans; eauto with ctr.
  - intros [= <- <-]. split; [apply ctr_rel_refl|done].
Qed.

Lemma after_snapshot_ctr snap k0 s s' :
  after_snapshot snap k0 s → ctr_rel (heap s) (heap s') →
  nextAddr s' = nextAddr s → currentCounter s' = currentCounter s →
  after_snapshot snap k0 s'.
Proof.
  intros (H1 & H2 & H3) Hrel Hn Hc. unfold after_snapshot. rewrite Hn, Hc.
  split; [done|]. split; [done|]. intros a n' E' Ha.
  destruct (Hrel a n' E') as (n & E & [Hc1|Hc1]); rewrite Hc1; [|by left]. by apply (H3 a).
Qed.

(** An insertion keeps it, as long as the counter does not wrap. *)
Lemma after_snapshot_new snap k0 s cb c s1 s' :
  0 ≤ snap → after_snapshot snap k0 s →
  getNextCounter s = Some (c, s1) →
  ctr_rel (<[nextAddr s := mkNode None None cb c]> (heap s1)) (heap s') →
  nextAddr s' = S (nextAddr s) → currentCounter s' = c →
  snap + (Z.of_nat (nextAddr s') - Z.of_nat k0) ≤ counterMax →
  after_snapshot snap k0 s'.
Proof.
  intros Hs0 (H1 & H2 & H3) Hg Hrel Hn Hc Hb. rewrite Hn in Hb.
  assert (Hnw : wrap64 (currentCounter s + 1) = currentCounter s + 1).
  { apply wrap64_small. unfold counterMax in Hb. lia. }
  rewrite getNextCounter_nowrap in Hg by (rewrite Hnw; lia).
  rewrite Hnw in Hg. injection Hg as <- <-. simpl in Hrel.
  unfold after_snapshot. rewrite Hn, Hc. split; [lia|]. split; [lia|].
  intros a n' E' Ha. destruct (Hrel a n' E') as (n & E & Hcn).
  apply lookup_insert_Some in E as [[<- <-]|[_ E]].
  - simpl in Hcn. destruct Hcn as [->| ->]; [right; lia|by left].
  - destruct Hcn as [->| ->]; [|by left]. by apply (H3 a).
Qed.

Lemma run_op_nextAddr o s s' : run_op o s = Some s' → (nextAddr s ≤ nextAddr s')%nat.
Proof.
  destruct o as [cb|cb|cb before|hd]; simpl; intros ([r s''] & H & [= <-])%fmap_Some; simpl.
  - apply append_ctr in H as (? & ? & _ & _ & -> & _). lia.
  - apply prepend_ctr in H as (? & ? & _ & _ & -> & _). lia.
  - apply insert_ctr in H as (? & ? & _ & _ & -> & _). lia.
  - apply remove_ctr in H as (_ & -> & _). lia.
Qed.

Lemma unpin_nextAddr a s : nextAddr (unpin a s) = nextAddr s.
Proof. unfold unpin. by rewrite release_nextAddr. Qed.

Lemma pin_nextAddr o s : nextAddr (pin o s) = nextAddr s.
Proof. by destruct o. Qed.

Lemma step_nextAddr s s' : step s s' → (nextAddr s ≤ nextAddr s')%nat.
Proof.
  intros Hst. destruct Hst as [o s1 s2 H|p s1|a s1].
  - by eapply run_op_nextAddr.
  - by rewrite pin_nextAddr.
  - by rewrite unpin_nextAddr.
Qed.

Lemma reach_nextAddr s s' : rtc step s s' → (nextAddr s ≤ nextAddr s')%nat.
Proof.
  induction 1 as [|s s1 s' H1%step_nextAddr _ IH]; [done|]. lia.
Qed.


Lemma run_op_after_snapshot snap k0 o s s' :
  0 ≤ snap → after_snapshot snap k0 s → run_op o s = Some s' →
  snap + (Z.of_nat (nextAddr s') - Z.of_nat k0) ≤ counterMax →
  after_snapshot snap k0 s'.
Proof.
  intros Hs0 HJ.
  destruct o as [cb|cb|cb before|hd]; simpl; intros ([r s''] & H & [= <-])%fmap_Some; simpl.
  - apply append_ctr in H as (c & s1 & ? & ? & ? & ?). by eapply after_snapshot_new.
  - apply prepend_ctr in H as (c & s1 & ? & ? & ? & ?). by eapply after_snapshot_new.
  - apply insert_ctr in H as (c & s1 & ? & ? & ? & ?). by eapply after_snapshot_new.
  - apply remove_ctr in H as (? & ? & ?). intros _. by eapply after_snapshot_ctr.
Qed.

Lemma after_snapshot_unpin snap k0 a s :
  after_snapshot snap k0 s → after_snapshot snap k0 (unpin a s).
Proof.
  intros HJ. unfold unpin. eapply after_snapshot_ctr.
  - exact HJ.
  - eapply ctr_rel_trans; [|apply ctr_rel_release]. apply ctr_rel_refl.
  - by rewrite release_nextAddr.
  - by rewrite release_currentCounter.
Qed.

Lemma after_snapshot_pin snap k0 o s :
  after_snapshot snap k0 s → after_snapshot snap k0 (pin o s).
Proof. by destruct o. Qed.

Lemma step_after_snapshot snap k0 s s' :
  0 ≤ snap → after_snapshot snap k0 s → step s s' →
  snap + (Z.of_nat (nextAddr s') - Z.of_nat k0) ≤ counterMax →
  after_snapshot snap k0 s'.
Proof.
  intros Hs0 HJ Hst. revert HJ. destruct Hst as [o s1 s2 H|p s1|a s1]; intros HJ Hb.
  - by eapply run_op_after_snapshot.
  - by apply after_snapshot_pin.
  - by apply after_snapshot_unpin.
Qed.

Lemma reach_after_snapshot snap k0 s s' :
  0 ≤ snap → after_snapshot snap k0 s → rtc step s s' →
  snap + (Z.of_nat (nextAddr s') - Z.of_nat k0) ≤ counterMax →
  after_snapshot snap k0 s'.
Proof.
  intros Hs0 HJ Hr. revert HJ.
  induction Hr as [|s s1 s' H1 Hr IH]; intros HJ Hb; [done|].
  apply IH; [|done]. apply (step_after_snapshot snap k0 s); [done..|].
  apply reach_nextAddr in Hr. lia.
Qed.

(** The loop never goes back in identities. *)
Lemma loop_nextAddr {V} (f : Visitor V) fuel c0 node s (u : V) r s' u' :
  uses_api f →
  doForEachIf_loop fuel f c0 node s u = Some (r, s', u') →
  (nextAddr s ≤ nextAddr s')%nat.
Proof.
  intros Hf. revert node s u. induction fuel as [|fuel IH]; intros node s u.
  - destruct node; [done|]. simpl. by intros [= _ <- _].
  - destruct node as [a|]; [|simpl; by intros [= _ <- _]].
    cbn [doForEachIf_loop]. intros (n & E & H)%bind_Some.
    apply bind_Some in H as ([[go s1] u1] & Hv & H).
    assert (nextAddr s ≤ nextAddr s1)%nat as Hle.
    { destruct (decide _).
      - apply Hf in Hv. by apply reach_nextAddr in Hv.
      - by injection Hv as _ <- _. }
    destruct go.
    + apply bind_Some in H as (n1 & E1 & H%IH).
      rewrite unpin_nextAddr, pin_nextAddr in H. lia.
    + injection H as _ <- _. by rewrite unpin_nextAddr.
Qed.

Lemma traced_uses_api {V} (f : @Visitor Callback V) : uses_api f → uses_api (traced f).
Proof.
  intros Hf a s [u log] r s' u'. unfold traced. simpl.
  intros ([[r' s''] u''] & H & [= _ <- _])%bind_Some. by apply Hf in H.
Qed.


(** *** A removed node stays removed, as long as the counter does not wrap *)

Lemma tombstoned_ctr a s s' :
  tombstoned a s → ctr_rel (heap s) (heap s') → tombstoned a s'.
Proof.
  intros Ht Hrel n' E'. destruct (Hrel a n' E') as (n & E & [Hc|Hc]); [|done].
  rewrite Hc. by apply Ht.
Qed.

Lemma tombstoned_new snap k0 a s cb c s1 s' :
  0 ≤ snap → after_snapshot snap k0 s → tombstoned a s → (a < nextAddr s)%nat →
  getNextCounter s = Some (c, s1) →
  ctr_rel (<[nextAddr s := mkNode None None cb c]> (heap s1)) (heap s') →
  nextAddr s' = S (nextAddr s) →
  snap + (Z.of_nat (nextAddr s') - Z.of_nat k0) ≤ counterMax →
  tombstoned a s'.
Proof.
  intros Hs0 (H1 & H2 & _) Ht Ha Hg Hrel Hn Hb. rewrite Hn in Hb.
  assert (Hnw : wrap64 (currentCounter s + 1) = currentCounter s + 1).
  { apply wrap64_small. unfold counterMax in Hb. lia. }
  rewrite getNextCounter_nowrap in Hg by (rewrite Hnw; lia).
  injection Hg as _ <-. simpl in Hrel.
  intros n' E'. destruct (Hrel a n' E') as (n & E & [Hc|Hc]); [|done].
  rewrite lookup_insert_ne in E by lia. rewrite Hc. by apply Ht.
Qed.

Lemma run_op_tombstoned snap k0 a o s s' :
  0 ≤ snap → after_snapshot snap k0 s → tombstoned a s → (a < nextAddr s)%nat →
  run_op o s = Some s' →
  snap + (Z.of_nat (nextAddr s') - Z.of_nat k0) ≤ counterMax →
  tombstoned a s'.
Proof.
  intros Hs0 HJ Ht Ha.
  destruct o as [cb|cb|cb before|hd]; simpl; intros ([r s''] & H & [= <-])%fmap_Some; simpl.
  - apply append_ctr in H as (c & s1 & ? & ? & ? & ?). by eapply tombstoned_new.
  - apply prepend_ctr in H as (c & s1 & ? & ? & ? & ?). by eapply tombstoned_new.
  - apply insert_ctr in H as (c & s1 & ? & ? & ? & ?). by eapply tombstoned_new.
  - apply remove_ctr in H as (? & ? & ?). intros _. by eapply tombstoned_ctr.
Qed.

Lemma tombstoned_unpin a b s : tombstoned a s → tombstoned a (unpin b s).
Proof.
  intros Ht. unfold unpin. eapply tombstoned_ctr; [|apply ctr_rel_release]. exact Ht.
Qed.

Lemma tombstoned_pin a o s : tombstoned a s → tombstoned a (pin o s).
Proof. by destruct o. Qed.

Lemma step_tombstoned snap k0 a s s' :
  0 ≤ snap → after_snapshot snap k0 s → tombstoned a s → (a < nextAddr s)%nat →
  step s s' →
  snap + (Z.of_nat (nextAddr s') - Z.of_nat k0) ≤ counterMax →
  tombstoned a s'.
Proof.
  intros Hs0 HJ Ht Ha Hst. revert HJ Ht Ha.
  destruct Hst as [o s1 s2 H|p s1|b s1]; intros HJ Ht Ha Hb.
  - by eapply run_op_tombstoned.
  - by apply tombstoned_pin.
  - by apply tombstoned_unpin.
Qed.

Lemma reach_tombstoned snap k0 a s s' :
  0 ≤ snap → after_snapshot snap k0 s → tombstoned a s → (a < nextAddr s)%nat →
  rtc step s s' →
  snap + (Z.of_nat (nextAddr s') - Z.of_nat k0) ≤ counterMax →
  tombstoned a s'.
Proof.
  intros Hs0 HJ Ht Ha Hr. revert HJ Ht Ha.
  induction Hr as [|s s1 s' H1 Hr IH]; intros HJ Ht Ha Hb; [done|].
  pose proof (reach_nextAddr _ _ Hr) as Hle.
  pose proof (step_nextAddr _ _ H1) as Hle1.
  apply IH; [| | |done].
  - apply (step_after_snapshot snap k0 s); [done..|]. lia.
  - apply (step_tombstoned snap k0 a s); [done..|]. lia.
  - lia.
Qed.

(** The loop never calls the visitor on a node that carries the removed
    sentinel when the loop is entered, as long as the counter does not
    wrap. *)
Lemma loop_tombstoned {V} (f : Visitor V) fuel c0 snap k0 a node s (u : V) log0 r s' u' log :
  uses_api f → 0 ≤ snap → after_snapshot snap k0 s →
  tombstoned a s → (a < nextAddr s)%nat →
  doForEachIf_loop fuel (traced f) c0 node s (u, log0) = Some (r, s', (u', log)) →
  snap + (Z.of_nat (nextAddr s') - Z.of_nat k0) ≤ counterMax →
  tombstoned a s' ∧ ∃ new, log = log0 ++ new ∧ Forall (λ e, e.1 ≠ a) new.
Proof.
  intros Hf Hs0. revert node s u log0.
  induction fuel as [|fuel IH]; intros node s u log0 HJ Ht Ha.
  - destruct node; [done|]. simpl. intros [= _ <- _ <-] _. split; [done|].
    exists []. by rewrite app_nil_r.
  - destruct node as [b|].
    2:{ simpl. intros [= _ <- _ <-] _. split; [done|]. exists []. by rewrite app_nil_r. }
    cbn [doForEachIf_loop]. intros (n & E & H)%bind_Some Hb.
    apply bind_Some in H as ([[go s1] [u1 log1]] & Hv & H).
    assert (nextAddr s1 ≤ nextAddr s')%nat as Hle.
    { destruct go.
      - apply bind_Some in H as (n1 & E1 & H).
        apply loop_nextAddr in H; [|by apply traced_uses_api].
        rewrite unpin_nextAddr, pin_nextAddr in H. lia.
      - injection H as _ <- _. by rewrite unpin_nextAddr. }
    assert (after_snapshot snap k0 s1 ∧ tombstoned a s1 ∧ (a < nextAddr s1)%nat ∧
            ∃ new, log1 = log0 ++ new ∧ Forall (λ e, e.1 ≠ a) new)
      as (HJ1 & Ht1 & Ha1 & new1 & -> & Hnew1).
    { destruct (decide _) as [[He1 He2]|He].
      - unfold traced in Hv. simpl in Hv.
        apply bind_Some in Hv as ([[r1 s1'] u1'] & Hv & [= <- <- <- <-]).
        apply Hf in Hv.
        pose proof (reach_nextAddr _ _ Hv) as Hle0.
        split; [|split; [|split]].
        + eapply reach_after_snapshot; [done..|]. lia.
        + eapply reach_tombstoned; [done..|]. lia.
        + lia.
        + exists [(b, r1)]. split; [done|]. constructor; [|constructor]. simpl.
          intros ->. by apply He1, Ht.
      - injection Hv as <- <- <- <-. do 3 (split; [done|]). exists [].
        by rewrite app_nil_r. }
    destruct go.
    + apply bind_Some in H as (n1 & E1 & H).
      apply IH in H as (Ht' & new & -> & Hnew); [| | | |done].
      * split; [done|]. exists (new1 ++ new). rewrite app_assoc. split; [done|].
        by apply Forall_app.
      * by apply after_snapshot_unpin, after_snapshot_pin.
      * by apply tombstoned_unpin, tombstoned_pin.
      * by rewrite unpin_nextAddr, pin_nextAddr.
    + injection H as _ <- _ <-. split; [by apply tombstoned_unpin|]. eauto.
Qed.

(** A dispatch whose visitor uses the list's operations is itself made of
    such steps: visitors may dispatch. *)
Lemma loop_reach {V} (f : Visitor V) fuel c0 node s (u : V) r s' u' :
  uses_api f →
  doForEachIf_loop fuel f c0 node s u = Some (r, s', u') → rtc step s s'.
Proof.
  intros Hf. revert node s u. induction fuel as [|fuel IH]; intros node s u.
  - destruct node; [done|]. simpl. intros [= _ <- _]. apply rtc_refl.
  - destruct node as [a|]; [|simpl; intros [= _ <- _]; apply rtc_refl].
    cbn [doForEachIf_loop]. intros (n & E & H)%bind_Some.
    apply bind_Some in H as ([[go s1] u1] & Hv & H).
    assert (rtc step s s1) as Hr1.
    { destruct (decide _).
      - by apply Hf in Hv.
      - injection Hv as _ <- _. apply rtc_refl. }
    etrans; [exact Hr1|]. destruct go.
    + apply bind_Some in H as (n1 & E1 & H%IH).
      eapply rtc_l; [apply (step_pin (next n1))|].
      eapply rtc_l; [apply (step_unpin a)|]. exact H.
    + injection H as _ <- _. apply rtc_once, step_unpin.
Qed.

Lemma doForEachIf_reach {V} (f : Visitor V) fuel s (u : V) r s' u' :
  uses_api f → doForEachIf fuel f s u = Some (r, s', u') → rtc step s s'.
Proof.
  intros Hf H. unfold doForEachIf in H. apply (loop_reach f) in H; [|done].
  eapply rtc_l; [apply (step_pin (head s))|]. exact H.
Qed.

End Visibility.

Section Dispatching.

Context {Callback : Type}.
Implicit Types (s : @State Callback) (h : gmap addr (@Node Callback)).
Implicit Types (n : @Node Callback) (a x : addr) (l : list addr) (p q : option addr).

Lemma callbacks_of_ext h h' l :
  (∀ a, a ∈ l → callback <$> h' !! a = callback <$> h !! a) →
  callbacks_of h' l = callbacks_of h l.
Proof.
  intros H. unfold callbacks_of. induction l as [|a l IH]; [done|].
  simpl. rewrite H by left. unfold omap in IH. rewrite IH; [done|].
  intros b Hb. apply H. by right.
Qed.

Lemma callbacks_of_app h l1 l2 :
  callbacks_of h (l1 ++ l2) = callbacks_of h l1 ++ callbacks_of h l2.
Proof. unfold callbacks_of. apply omap_app. Qed.

Lemma data_callback h h' a : data h' a = data h a → callback <$> h' !! a = callback <$> h !! a.
Proof.
  unfold data. destruct (h' !! a), (h !! a); simpl; try done. by intros [= -> _].
Qed.

Lemma counter_step_callback s s' l a :
  counter_step s s' l → callback <$> heap s' !! a = callback <$> heap s !! a.
Proof.
  intros H. destruct (heap s' !! a) as [n'|] eqn:E'.
  - destruct (counter_step_lookup _ _ _ _ _ H E') as (n & -> & _ & _ & Hc & _).
    simpl. by rewrite Hc.
  - destruct (heap s !! a) as [n|] eqn:E; [|done].
    destruct (counter_step_lookup_rev _ _ _ _ _ H E) as (n' & ? & _). congruence.
Qed.

Lemma counter_step_live s s' l : counter_step s s' l → all_live s → all_live s'.
Proof.
  intros H Hl a n' E'. simpl.
  destruct (counter_step_lookup _ _ _ _ _ H E') as (n & E & _ & _ & _ & [->|(_ & -> & _)]).
  - by apply (Hl a n).
  - done.
Qed.

Lemma linked_new_live s1 s3 x nx :
  linked_new s1 s3 x nx → counter nx ≠ removedCounter → all_live s1 → all_live s3.
Proof.
  intros (_ & _ & Ex & Hd & _) Hnx Hl a n E. simpl.
  destruct (decide (a = x)) as [->|Hne]; [congruence|].
  assert (is_Some (heap s1 !! a)) as [n1 E1].
  { apply (data_is_Some _ _ _ (Hd a Hne)). eauto. }
  destruct (data_lookup _ _ _ _ (Hd a Hne) E1) as (n' & E' & _ & Hc).
  assert (n' = n) as -> by congruence. rewrite Hc. by apply (Hl a n1).
Qed.

(** append at a quiescent point, with what it does to the sequence of
    callbacks of the chain. *)
Lemma append_quiescent s l cb :
  Inv s l → all_live s →
  ∃ s', append cb s = Some (Some (nextAddr s), s') ∧ Inv s' (l ++ [nextAddr s]) ∧
    all_live s' ∧
    callbacks_of (heap s') (l ++ [nextAddr s]) = callbacks_of (heap s) l ++ [cb].
Proof.
  intros HI Hl.
  destruct (append_Inv s l cb HI) as (s1 & s' & Hg & HI1 & Hstep & Happ & HI' & Hnew).
  destruct (getNextCounter_result _ _ _ Hg) as (Hc0 & _).
  exists s'. split; [done|]. split; [done|]. split.
  - apply (linked_new_live s1 s' _ _ Hnew); [done|]. by apply (counter_step_live s s1 l).
  - destruct Hnew as (_ & _ & Ex & Hd & _).
    rewrite callbacks_of_app. f_equal.
    + rewrite <- (callbacks_of_ext (heap s) (heap s1)) by (intros; by eapply counter_step_callback).
      apply callbacks_of_ext. intros a Ha. apply data_callback, Hd.
      intros ->. by apply (Inv_nextAddr_notin s l HI).
    + unfold callbacks_of. simpl. by rewrite Ex.
Qed.


(** The closures of forEach, forEachIf and invoke on a state that the
    visitor, or the callbacks, leave alone. *)
Lemma forEach_visitor_acts {V} (eff : Handle → Callback → V → V) s :
  acts_as (forEach_visitor (FuncHandleCallback (λ hd cb s u, Some (tt, s, eff hd cb u)))) s
          (λ a u, n ← heap s !! a; Some (true, eff (Some a) (callback n) u)).
Proof.
  intros a ps u. unfold forEach_visitor, doForEachInvoke. simpl.
  by destruct (heap s !! a).
Qed.

Lemma forEachIf_visitor_acts {V} (g : Handle → Callback → V → bool * V) s :
  acts_as (forEachIf_visitor (FuncHandleCallback (λ hd cb s u, Some ((g hd cb u).1, s, (g hd cb u).2)))) s
          (λ a u, n ← heap s !! a; Some (g (Some a) (callback n) u)).
Proof.
  intros a ps u. unfold forEachIf_visitor, doForEachInvoke. simpl.
  destruct (heap s !! a); [|done]. simpl. by destruct (g _ _ _).
Qed.

Lemma invoke_visitor_acts {V Args} (eff : Callback → Args → V → V)
    (can : Args → V → bool) (args : Args) s :
  acts_as (forEachIf_visitor (invoke_func (λ cb args s u, Some (s, eff cb args u)) can args)) s
          (λ a u, n ← heap s !! a;
                  Some (can args (eff (callback n) args u), eff (callback n) args u)).
Proof.
  intros a ps u. unfold forEachIf_visitor, invoke_func, doForEachInvoke. simpl.
  by destruct (heap s !! a).
Qed.

(** A dispatch at a quiescent point whose calls all return true runs the
    effect of every callback of the chain, in the order of the chain. *)
Lemma doForEachIf_quiescent_all {V} (f : Visitor V) (eff : Callback → V → V) s l fuel (u : V) :
  Inv s l → all_live s → (length l ≤ fuel)%nat →
  acts_as f s (λ a u, n ← heap s !! a; Some (true, eff (callback n) u)) →
  doForEachIf fuel f s u =
  Some (true, s, foldl (λ u cb, eff cb u) u (callbacks_of (heap s) l)).
Proof.
  intros HI Hl Hfuel Hf.
  rewrite (doForEachIf_quiescent f _ s l fuel u HI Hf Hfuel).
  rewrite (visible_all s l HI Hl).
  rewrite (visit_until_true _ (λ a u, from_option (λ n, eff (callback n) u) u (heap s !! a))).
  - simpl. rewrite foldl_callbacks_of; [done|]. intros a. by apply (Inv_dom s l a HI).
  - intros a u' [n E]%(Inv_dom s l a HI). by rewrite E.
Qed.


(** No node, no call. *)
Lemma doForEachIf_empty {V} (f : Visitor V) fuel s (u : V) :
  head s = None → doForEachIf fuel f s u = Some (true, s, u).
Proof. intros H. unfold doForEachIf. rewrite H. by destruct fuel. Qed.

(** The iteration passes over a node that carries the removed sentinel. *)
Lemma loop_removed {V} (f : Visitor V) fuel c0 a s n (u : V) :
  heap s !! a = Some n → counter n = removedCounter →
  doForEachIf_loop (S fuel) f c0 (Some a) s u =
  doForEachIf_loop fuel f c0 (next n) (unpin a (pin (next n) s)) u.
Proof.
  intros E Hc. cbn [doForEachIf_loop]. rewrite E. cbn [mbind option_bind].
  rewrite decide_False by (intros [? _]; done). cbn [mbind option_bind].
  by rewrite E.
Qed.

End Dispatching.

(** ** The claims *)

Section Claims.

Context {Callback : Type}.
Implicit Types (s : @State Callback) (h : gmap addr (@Node Callback)).
Implicit Types (n : @Node Callback) (a x : addr) (l : list addr) (p q : option addr).

Lemma lock_Some s hd a : lock s hd = Some a → hd = Some a ∧ is_Some (heap s !! a).
Proof.
  unfold lock. destruct hd as [a'|]; simpl; [|done].
  destruct (heap s !! a') eqn:E; simpl; [|done]. intros [= ->]. eauto.
Qed.

Lemma lock_None_lookup s a : heap s !! a = None → lock s (Some a) = None.
Proof. intros E. unfold lock. simpl. by rewrite E. Qed.

Lemma init_Inv : Inv (@init Callback) [].
Proof.
  apply Inv_intro.
  - unfold wf. simpl. repeat split; try done. constructor.
  - done.
  - intros a. simpl. rewrite lookup_empty, elem_of_nil. split; [by intros [? ?]|done].
  - intros a n. simpl. by rewrite lookup_empty.
  - simpl. unfold counterModulus. lia.
Qed.

(** The records of the chain survive the end of an operation. *)
Lemma release_chain_lookup s l a : wf s l → a ∈ l → heap (release s) !! a = heap s !! a.
Proof. intros Hwf Ha. by apply (release_keeps s (λ a, a ∈ l)); [apply wf_anchored|]. Qed.

End Claims.

Import Scenario.

(** C3.  getNextCounter never returns the removed sentinel 0, and returns
    what it leaves in currentCounter.  It returns whenever the chain is well
    formed; when the 64-bit counter wraps to 0, the counter of every node
    of the chain is rewritten to 1 (the other fields and the other nodes are
    untouched), currentCounter is incremented off zero, and the value read
    back, 1, is returned.  So with currentCounter seeded to its maximum
    minus 1, appending A and then B (whose counter is the one that wraps)
    and invoking calls both callbacks, A before B. *)
Theorem C3_getNextCounter_never_zero :
  (∀ (Callback : Type) (s : @State Callback) c s',
     getNextCounter s = Some (c, s') →
     c ≠ removedCounter ∧ c = currentCounter s') ∧
  (∀ (Callback : Type) (s : @State Callback) l,
     wf s l →
     ∃ s', getNextCounter s = Some (currentCounter s', s') ∧
       currentCounter s' ≠ removedCounter ∧
       (wrap64 (currentCounter s + 1) = 0 →
        currentCounter s' = 1 ∧
        ∀ a, heap s' !! a =
             if decide (a ∈ l) then set_counter 1 <$> heap s !! a else heap s !! a)) ∧
  (∀ (Callback : Type) (A B : Callback) (fuel : nat),
     ∃ hA sA hB sB,
       append A (seeded (counterMax - 1)) = Some (hA, sA) ∧
       currentCounter sA = counterMax ∧
       append B sA = Some (hB, sB) ∧
       currentCounter sB = 1 ∧
       invoke (λ cb (_ : unit) s log, Some (s, log ++ [cb]))
              defaultCanContinueInvoking (S (S fuel)) tt sB [] = Some (sB, [A; B])).
Proof.
  split; [|split].
  - intros Callback s c s' Hg.
    by destruct (getNextCounter_result _ _ _ Hg) as (? & ? & _).
  - intros Callback s l Hwf.
    destruct (getNextCounter_wf s l Hwf) as (s' & Hg & _ & Hstep & Hc & _).
    exists s'. split; [done|]. split; [unfold removedCounter; lia|].
    intros Hw. destruct Hstep as [(Hnw & _)|(_ & ? & ?)]; done.
  - intros Callback A B fuel. eexists _, _, _, _.
    split; [vm_compute; reflexivity|]. split; [vm_compute; reflexivity|].
    split; [vm_compute; reflexivity|]. split; [vm_compute; reflexivity|].
    destruct fuel; vm_compute; reflexivity.
Qed.

Lemma C3_getNextCounter_never_zero_witness :
  ∃ c s', getNextCounter (one counterMax counterMax) = Some (c, s') ∧
          c ≠ removedCounter ∧ c = currentCounter s'.
Proof.
  eexists _, _. split; [vm_compute; reflexivity|].
  apply (proj1 C3_getNextCounter_never_zero nat (one counterMax counterMax)).
  vm_compute. reflexivity.
Defined.

(** C5.  At a quiescent point of a list none of whose nodes is removed (the
    constructor's state in particular), after appending a, b and c in this
    order, forEach, forEachIf (with a visitor that returns true) and invoke
    (with the default policy) each run the effects of the callbacks that
    were in the chain, in its order, and then those of a, b and c, in this
    order; they leave the list as it was, so every further dispatch does the
    same. *)
Theorem C5_append_order {Callback : Type} (s : @State Callback) l (a b c : Callback) :
  Inv s l → all_live s →
  ∃ ha sa hb sb hc sc,
    append a s = Some (ha, sa) ∧ append b sa = Some (hb, sb) ∧
    append c sb = Some (hc, sc) ∧
    ∀ (V : Type) (eff : Callback → V → V) (u : V) (fuel : nat),
      (length l + 3 ≤ fuel)%nat →
      let result := foldl (λ u cb, eff cb u) u (callbacks_of (heap s) l ++ [a; b; c]) in
      forEach fuel (FuncCallback (λ cb s u, Some (tt, s, eff cb u))) sc u =
        Some (sc, result) ∧
      forEachIf fuel (FuncCallback (λ cb s u, Some (true, s, eff cb u))) sc u =
        Some (true, sc, result) ∧
      (∀ (Args : Type) (args : Args),
         invoke (λ cb (_ : Args) s u, Some (s, eff cb u))
                defaultCanContinueInvoking fuel args sc u =
           Some (sc, result)).
Proof.
  intros HI Hl.
  destruct (append_quiescent s l a HI Hl) as (sa & Ha & HIa & Hla & Hca).
  destruct (append_quiescent sa _ b HIa Hla) as (sb & Hb & HIb & Hlb & Hcb).
  destruct (append_quiescent sb _ c HIb Hlb) as (sc & Hc & HIc & Hlc & Hcc).
  eexists _, sa, _, sb, _, sc. do 3 (split; [done|]).
  intros V eff u fuel Hfuel.
  set (lc := ((l ++ [nextAddr s]) ++ [nextAddr sa]) ++ [nextAddr sb]) in *.
  assert (Hcbs : callbacks_of (heap sc) lc = callbacks_of (heap s) l ++ [a; b; c]).
  { rewrite Hcc, Hcb, Hca. by rewrite <- !app_assoc. }
  assert (Hlen : (length lc ≤ fuel)%nat).
  { unfold lc. rewrite !length_app. simpl. lia. }
  simpl. rewrite <- Hcbs. split; [|split].
  - unfold forEach.
    rewrite (doForEachIf_quiescent_all _ eff sc _ fuel u HIc Hlc Hlen); [done|].
    intros x ps u'. unfold forEach_visitor, doForEachInvoke. simpl.
    by destruct (heap sc !! x).
  - unfold forEachIf.
    rewrite (doForEachIf_quiescent_all _ eff sc _ fuel u HIc Hlc Hlen); [done|].
    intros x ps u'. unfold forEachIf_visitor, doForEachInvoke. simpl.
    by destruct (heap sc !! x).
  - intros Args args. unfold invoke, forEachIf.
    rewrite (doForEachIf_quiescent_all _ eff sc _ fuel u HIc Hlc Hlen); [done|].
    intros x ps u'. unfold forEachIf_visitor, invoke_func, doForEachInvoke. simpl.
    by destruct (heap sc !! x).
Qed.

Lemma C5_append_order_witness :
  Inv (@init nat) [] ∧ all_live (@init nat) ∧
  ∃ ha sa hb sb hc sc,
    append 10%nat init = Some (ha, sa) ∧ append 20%nat sa = Some (hb, sb) ∧
    append 30%nat sb = Some (hc, sc) ∧
    invoke (λ cb (_ : unit) s u, Some (s, u ++ [cb]))
           defaultCanContinueInvoking 3 tt sc [] = Some (sc, [10; 20; 30]%nat).
Proof.
  assert (HI : Inv (@init nat) []) by (apply (bool_decide_unpack _); vm_compute; exact I).
  assert (Hl : all_live (@init nat)) by (apply (bool_decide_unpack _); vm_compute; exact I).
  split; [exact HI|]. split; [exact Hl|].
  destruct (C5_append_order (@init nat) [] 10%nat 20%nat 30%nat HI Hl)
    as (ha & sa & hb & sb & hc & sc & Ha & Hb & Hc & H).
  exists ha, sa, hb, sb, hc, sc. split; [exact Ha|]. split; [exact Hb|].
  split; [exact Hc|].
  exact (proj2 (proj2 (H (list nat) (λ cb u, u ++ [cb]) [] 3%nat (le_n 3))) unit tt).
Defined.

(** C6.  forEachIf returns what the run of its visitor gives: the run stops
    at the first call that returns false, and forEachIf returns false exactly
    then.  The closure forEach passes on returns true whatever the visitor
    does, so forEach never stops early: at a quiescent point it calls the
    visitor on every eligible node of the chain, in order.  At a quiescent
    point, forEachIf with a visitor that leaves the list alone returns, with
    enough fuel, what calling the visitor on the eligible nodes in order
    until it returns false gives; so does invoke with callbacks that leave
    the list alone, the result of each call being that of
    canContinueInvoking(args...) after the callback.  invoke is forEachIf
    with the closure that calls the node's callback with the arguments and
    then returns canContinueInvoking(args...), so it halts after the first
    call for which the policy says false; under the default policy no call
    does. *)
Theorem C6_dispatch_control {Callback V : Type} :
  (∀ (func : @Func Callback V bool) fuel s (u : V) r s' u' log,
     doForEachIf fuel (traced (forEachIf_visitor func)) s (u, []) = Some (r, s', (u', log)) →
     forEachIf fuel func s u = Some (r, s', u') ∧ stops_at_first_false r log) ∧
  (∀ (func : @Func Callback V unit) fuel s (u : V) r s' u' log,
     doForEachIf fuel (traced (forEach_visitor func)) s (u, []) = Some (r, s', (u', log)) →
     forEach fuel func s u = Some (s', u') ∧ r = true ∧ Forall (λ e, e.2 = true) log) ∧
  (∀ (eff : Handle → Callback → V → V) fuel (s : @State Callback) l (u : V),
     Inv s l → (length l ≤ fuel)%nat →
     forEach fuel (FuncHandleCallback (λ hd cb s u, Some (tt, s, eff hd cb u))) s u =
     Some (s, foldl (λ u a, from_option (λ n, eff (Some a) (callback n) u) u (heap s !! a))
                    u (visible (currentCounter s) (heap s) l))) ∧
  (∀ (g : Handle → Callback → V → bool * V) fuel (s : @State Callback) l (u : V),
     Inv s l → (length l ≤ fuel)%nat →
     forEachIf fuel
       (FuncHandleCallback (λ hd cb s u, Some ((g hd cb u).1, s, (g hd cb u).2))) s u =
     (λ ru, (ru.1, s, ru.2)) <$>
       visit_until (λ a u, n ← heap s !! a; Some (g (Some a) (callback n) u))
                   (visible (currentCounter s) (heap s) l) u) ∧
  (∀ (Args : Type) (eff : Callback → Args → V → V) (can : Args → V → bool)
     fuel (args : Args) (s : @State Callback) l (u : V),
     Inv s l → (length l ≤ fuel)%nat →
     invoke (λ cb args s u, Some (s, eff cb args u)) can fuel args s u =
     (λ ru, (s, ru.2)) <$>
       visit_until (λ a u, n ← heap s !! a;
                           Some (can args (eff (callback n) args u),
                                 eff (callback n) args u))
                   (visible (currentCounter s) (heap s) l) u) ∧
  (∀ (Args : Type) (call : Callback → Args → State → V → option (State * V))
     (can : Args → V → bool) fuel (args : Args) s (u : V),
     invoke call can fuel args s u =
       ('(_, s', u') ← forEachIf fuel (invoke_func call can args) s u; Some (s', u')) ∧
     ∀ a, forEachIf_visitor (invoke_func call can args) a s u =
          (n ← heap s !! a;
           '(s1, u1) ← call (callback n) args s u;
           Some (can args u1, s1, u1))) ∧
  (∀ (Args : Type) (call : Callback → Args → State → V → option (State * V))
     fuel (args : Args) s (u : V) r s' u' log,
     doForEachIf fuel
       (traced (forEachIf_visitor (invoke_func call defaultCanContinueInvoking args)))
       s (u, []) = Some (r, s', (u', log)) →
     r = true ∧ Forall (λ e, e.2 = true) log).
Proof.
  split; [|split; [|split; [|split; [|split; [|split]]]]].
  - intros func fuel s u r s' u' log Hrun. split.
    + unfold forEachIf. rewrite <- doForEachIf_traced_erase, Hrun. done.
    + by eapply doForEachIf_traced_result.
  - intros func fuel s u r s' u' log Hrun.
    assert (r = true ∧ ∃ new, log = [] ++ new ∧ Forall (λ e, e.2 = true) new)
      as (-> & new & -> & Hnew).
    { eapply loop_traced_all_true; [|exact Hrun].
      intros a s0 u0 r0 s0' u0'. unfold forEach_visitor.
      intros ([[? ?] ?] & _ & [= <- _ _])%bind_Some. done. }
    split; [|done]. unfold forEach. rewrite <- doForEachIf_traced_erase, Hrun. done.
  - intros eff fuel s l u HI Hfuel. unfold forEach.
    rewrite (doForEachIf_quiescent _ _ s l fuel u HI (forEach_visitor_acts eff s) Hfuel).
    rewrite (visit_until_true _
      (λ a u, from_option (λ n, eff (Some a) (callback n) u) u (heap s !! a))); [done|].
    intros a u' Ha. apply list_elem_of_filter in Ha as [_ Ha].
    apply (Inv_dom s l a HI) in Ha as [n E]. by rewrite E.
  - intros g fuel s l u HI Hfuel. unfold forEachIf.
    by rewrite (doForEachIf_quiescent _ _ s l fuel u HI (forEachIf_visitor_acts g s) Hfuel).
  - intros Args eff can fuel args s l u HI Hfuel. unfold invoke, forEachIf.
    rewrite (doForEachIf_quiescent _ _ s l fuel u HI
               (invoke_visitor_acts eff can args s) Hfuel).
    by destruct (visit_until _ _ _) as [[? ?]|].
  - intros Args call can fuel args s u. split; [done|]. intros a.
    unfold forEachIf_visitor, invoke_func, doForEachInvoke.
    destruct (heap s !! a); [|done]. simpl. by destruct (call _ _ _ _) as [[? ?]|].
  - intros Args call fuel args s u r s' u' log Hrun.
    assert (r = true ∧ ∃ new, log = [] ++ new ∧ Forall (λ e, e.2 = true) new)
      as (-> & new & -> & Hnew); [|done].
    eapply loop_traced_all_true; [|exact Hrun].
    intros a s0 u0 r0 s0' u0'. unfold forEachIf_visitor, invoke_func, doForEachInvoke.
    intros (n & _ & H)%bind_Some. by apply bind_Some in H as ([? ?] & _ & [= <- _ _]).
Qed.

Lemma C6_dispatch_control_witness :
  ∃ r s' log,
    doForEachIf 2 (traced (forEachIf_visitor
         (FuncCallback (λ (cb : nat) s (u : unit), Some (false, s, u)))))
      (one 1 1) (tt, []) = Some (r, s', (tt, log)) ∧
    forEachIf 2 (FuncCallback (λ (cb : nat) s (u : unit), Some (false, s, u)))
      (one 1 1) tt = Some (r, s', tt) ∧
    stops_at_first_false r log.
Proof.
  eexists _, _, _. split; [vm_compute; reflexivity|].
  apply (proj1 (@C6_dispatch_control nat unit)). vm_compute. reflexivity.
Defined.

(** C9.  On a list whose head is null, forEachIf returns true, and forEach
    and invoke return, without calling anything and whatever the fuel: the
    result does not depend on the visitor or the callbacks, and the
    environment is unchanged.  In general forEachIf returns true exactly
    when no call of the visitor returned false. *)
Theorem C9_empty_and_result {Callback V : Type} :
  (∀ (s : @State Callback) fuel (u : V), head s = None →
     (∀ func, forEachIf fuel func s u = Some (true, s, u)) ∧
     (∀ func, forEach fuel func s u = Some (s, u)) ∧
     (∀ (Args : Type) call can (args : Args), invoke call can fuel args s u = Some (s, u))) ∧
  (∀ (func : @Func Callback V bool) fuel s (u : V) r s' u' log,
     doForEachIf fuel (traced (forEachIf_visitor func)) s (u, []) = Some (r, s', (u', log)) →
     forEachIf fuel func s u = Some (r, s', u') ∧
     (r = true ↔ Forall (λ e, e.2 = true) log)).
Proof.
  split.
  - intros s fuel u Hhd. repeat split.
    + intros func. unfold forEachIf. by apply doForEachIf_empty.
    + intros func. unfold forEach. by rewrite doForEachIf_empty.
    + intros Args call can args. unfold invoke, forEachIf. by rewrite doForEachIf_empty.
  - intros func fuel s u r s' u' log Hrun. split.
    + unfold forEachIf. rewrite <- doForEachIf_traced_erase, Hrun. done.
    + apply stops_at_first_false_true_iff. by eapply doForEachIf_traced_result.
Qed.

Lemma C9_empty_and_result_witness :
  forEachIf 0 (FuncCallback (λ (cb : nat) s (u : unit), Some (false, s, u))) init tt
  = Some (true, init, tt).
Proof.
  exact (proj1 (proj1 (@C9_empty_and_result nat unit) init 0%nat tt eq_refl) _).
Defined.

(** C7.  insert with a Handle whose node is gone is append: the same result
    (state and Handle), or no result alike.  In particular, at a quiescent
    point, after remove(h) has returned true the Handle h is gone and
    insert(cb, h) is append(cb). *)
Theorem C7_insert_stale_is_append {Callback : Type} :
  (∀ (s : @State Callback) cb before,
     lock s before = None → insert cb before s = append cb s) ∧
  (∀ (s : @State Callback) l1 a l2 cb,
     Inv s (l1 ++ a :: l2) →
     ∃ s', remove (Some a) s = Some (true, s') ∧ lock s' (Some a) = None ∧
           insert cb (Some a) s' = append cb s').
Proof.
  split.
  - intros s cb before Hl. unfold insert. by rewrite Hl.
  - intros s l1 a l2 cb HI.
    destruct (remove_Inv s l1 a l2 HI) as (s' & Hrm & _ & Ea & _).
    exists s'. split; [done|]. pose proof (lock_None_lookup s' a Ea) as Hl.
    split; [done|]. unfold insert. by rewrite Hl.
Qed.

Lemma C7_insert_stale_is_append_witness :
  lock (one 1 1) (Some 7%nat) = None ∧
  insert 2%nat (Some 7%nat) (one 1 1) = append 2%nat (one 1 1).
Proof.
  assert (H : lock (one 1 1) (Some 7%nat) = None) by (vm_compute; reflexivity).
  split; [exact H|].
  exact (proj1 C7_insert_stale_is_append (one 1 1) 2%nat (Some 7%nat) H).
Defined.




(** With currentCounter at its maximum, the visitor called on callback 2
    removes its own node, removes node 2 (callback 3) -- remove returns
    true -- and removes its own node again, which links node 2 back behind
    the head; the append that follows wraps the counter, and the reset
    rewrites the counter of node 2 from the removed sentinel to 1.  The
    iteration, which took its snapshot before all this, then reaches node 2
    and calls the visitor on callback 3, after its removal completed. *)
Lemma C2_counterexample :
  Inv (three counterMax) [0; 1; 2]%nat ∧
  ∃ s', forEachIf 4 (FuncHandleCallback remove_next_visitor) (three counterMax) ([], [])
        = Some (true, s', ([1; 2; 3]%nat, [true; true; true])).
Proof.
  split; [apply (bool_decide_unpack _); vm_compute; exact I|].
  eexists. vm_compute. reflexivity.
Qed.

(** C2, amended.  remove on a Handle of a node [a] of the chain returns
    true; the doRemoveNode it runs splices [a] out of the chain (the chain
    is well formed without it, with head and tail following), stamps its
    counter with the removed sentinel 0 and leaves its previous, next and
    callback as they were; the callbacks and counters of the other nodes
    are kept.  The node stays in the store in this form as long as an
    iteration holds it.  An iteration that comes to a node while it carries
    the sentinel goes on to its next without calling the visitor; and a
    node that carries the sentinel keeps it, and no iteration calls the
    visitor on it, whatever append, prepend, insert, remove and dispatches
    the visitors do, as long as currentCounter does not wrap (the counter
    plus the number of nodes made since does not exceed its maximum). *)
Theorem C2_remove_tombstone {Callback : Type} :
  (∀ (s : @State Callback) l1 a l2,
     wf s (l1 ++ a :: l2) →
     ∃ n s1,
       heap s !! a = Some n ∧
       doRemoveNode a s = Some s1 ∧
       remove (Some a) s = Some (true, release s1) ∧
       wf s1 (l1 ++ l2) ∧ wf (release s1) (l1 ++ l2) ∧
       heap s1 !! a = Some (mkNode (previous n) (next n) (callback n) removedCounter) ∧
       (∀ b, b ≠ a → data (heap s1) b = data (heap s) b) ∧
       tombstoned a (release s1) ∧
       (a ∈ pins s →
        heap (release s1) !! a
          = Some (mkNode (previous n) (next n) (callback n) removedCounter))) ∧
  (∀ (V : Type) (f : @Visitor Callback V) fuel c0 a s n (u : V),
     heap s !! a = Some n → counter n = removedCounter →
     doForEachIf_loop (S fuel) f c0 (Some a) s u =
     doForEachIf_loop fuel f c0 (next n) (unpin a (pin (next n) s)) u) ∧
  (∀ (s : @State Callback) a s',
     fresh s → 0 ≤ currentCounter s → is_Some (heap s !! a) → tombstoned a s →
     rtc step s s' →
     currentCounter s + (Z.of_nat (nextAddr s') - Z.of_nat (nextAddr s)) ≤ counterMax →
     tombstoned a s') ∧
  (∀ (V : Type) (f : @Visitor Callback V) fuel c0 node a s (u : V) r s' u' log,
     uses_api f → fresh s → 0 ≤ currentCounter s →
     is_Some (heap s !! a) → tombstoned a s →
     doForEachIf_loop fuel (traced f) c0 node s (u, []) = Some (r, s', (u', log)) →
     currentCounter s + (Z.of_nat (nextAddr s') - Z.of_nat (nextAddr s)) ≤ counterMax →
     tombstoned a s' ∧ Forall (λ e, e.1 ≠ a) log).
Proof.
  assert (Hstart : ∀ (s : @State Callback), fresh s → 0 ≤ currentCounter s →
            after_snapshot (currentCounter s) (nextAddr s) s).
  { intros s Hfr Hc0. split; [lia|]. split; [lia|].
    intros b n E Hb. apply Hfr in E. simpl in E. lia. }
  split; [|split; [|split]].
  - intros s l1 a l2 Hwf.
    destruct (doRemoveNode_wf s l1 a l2 Hwf)
      as (n & s1 & E & Hp & Hn & Hrm & Hwf1 & E1 & Hd & Hfr & Hcc & Hna & Hpins).
    exists n, s1. split; [done|]. split; [done|]. split.
    { unfold remove. rewrite (wf_lock s _ a Hwf), Hrm; [done|].
      rewrite elem_of_app, elem_of_cons. auto. }
    split; [done|]. split; [by apply wf_release|]. split; [done|]. split; [done|].
    split.
    + intros n' E'%release_lookup_Some. rewrite E1 in E'. by injection E' as <-.
    + intros Hpin. rewrite (release_keeps s1 (λ b, b = a)); [done| |done].
      intros b ->. right. right. left. by rewrite Hpins.
  - intros V f fuel c0 a s n u E Hc. by apply loop_removed.
  - intros s a s' Hfr Hc0 [n E] Ht Hrun Hb.
    apply (reach_tombstoned (currentCounter s) (nextAddr s) a s); try done.
    + by apply Hstart.
    + apply Hfr in E. done.
  - intros V f fuel c0 node a s u r s' u' log Hf Hfr Hc0 [n E] Ht Hrun Hb.
    destruct (loop_tombstoned f fuel c0 (currentCounter s) (nextAddr s) a node s u []
                r s' u' log) as (Ht' & new & -> & Hnew); try done.
    + by apply Hstart.
    + apply Hfr in E. done.
Qed.

Lemma C2_remove_tombstone_witness :
  Inv (one 1 1) ([] ++ 0%nat :: []) ∧
  ∃ s', remove (Some 0%nat) (one 1 1) = Some (true, s') ∧ wf s' ([] ++ []) ∧
        tombstoned 0%nat s'.
Proof.
  assert (H : Inv (one 1 1) ([] ++ 0%nat :: []))
    by (apply (bool_decide_unpack _); vm_compute; exact I).
  split; [exact H|].
  destruct (proj1 (@C2_remove_tombstone nat) (one 1 1) [] 0%nat [] (Inv_wf _ _ H))
    as (n & s1 & _ & _ & Hrm & _ & Hwf & _ & _ & Ht & _).
  exists (release s1). split; [exact Hrm|]. split; [exact Hwf|exact Ht].
Defined.

(** When currentCounter is at its maximum, the getNextCounter that insert
    calls wraps and resets the counters of the chain: the counter of the
    node the new one is inserted before changes from 5 to 1. *)
Lemma C10_counterexample :
  Inv (one 5 counterMax) [0%nat] ∧
  ∃ s', insert 9%nat (Some 0%nat) (one 5 counterMax) = Some (Some 1%nat, s') ∧
        counter <$> heap (one 5 counterMax) !! 0%nat = Some 5 ∧
        counter <$> heap s' !! 0%nat = Some 1.
Proof.
  split; [apply (bool_decide_unpack _); vm_compute; exact I|].
  eexists. split; [vm_compute; reflexivity|]. split; vm_compute; reflexivity.
Qed.

(** C10, amended.  insert before a node [b] of the chain returns the Handle
    of a new node that is linked immediately before [b]: its previous is
    what preceded [b], its next is [b], and the chain is well formed with
    it in this place.  The new node becomes the head when [b] was the head,
    otherwise head is unchanged; tail is unchanged.  The callbacks of the
    nodes of the chain are unchanged, and so are their counters unless
    currentCounter wraps to 0 in getNextCounter, in which case they are
    reset to 1.  Outside the chain no callback or counter changes. *)
Theorem C10_insert_before {Callback : Type} (s : @State Callback) l1 b l2 cb :
  wf s (l1 ++ b :: l2) → fresh s →
  ∃ s',
    insert cb (Some b) s = Some (Some (nextAddr s), s') ∧
    wf s' (l1 ++ nextAddr s :: b :: l2) ∧
    head s' = (if decide (head s = Some b) then Some (nextAddr s) else head s) ∧
    tail s' = tail s ∧
    heap s' !! nextAddr s = Some (mkNode (last l1) (Some b) cb (currentCounter s')) ∧
    (∀ a n, a ∈ l1 ++ b :: l2 → heap s !! a = Some n →
       ∃ n', heap s' !! a = Some n' ∧ callback n' = callback n ∧
             counter n' = if decide (wrap64 (currentCounter s + 1) = 0)
                          then 1 else counter n) ∧
    (∀ a n', a ∉ l1 ++ nextAddr s :: b :: l2 → heap s' !! a = Some n' →
       ∃ n, heap s !! a = Some n ∧ callback n' = callback n ∧ counter n' = counter n).
Proof.
  intros Hwf Hfr.
  destruct (insert_wf s l1 b l2 cb Hwf Hfr)
    as (s1 & s3 & Hg & Hwf1 & Hstep & Hfr1 & Hc0 & Hna & Hp & Hins & Hwf3 & Hnew & Htl & Hhd).
  destruct Hnew as (_ & Hx1 & Ex & Hd & _ & Hcc3 & _).
  exists (release s3). split; [done|]. split; [by apply wf_release|].
  rewrite release_head, release_tail, release_currentCounter.
  split; [done|]. split; [done|]. split; [|split].
  - rewrite (release_chain_lookup s3 _ _ Hwf3), Hcc3; [done|].
    rewrite elem_of_app, elem_of_cons. auto.
  - intros a n Ha E.
    assert (Hax : a ≠ nextAddr s).
    { intros ->. destruct (counter_step_lookup_rev _ _ _ _ _ Hstep E) as (? & ? & _).
      congruence. }
    destruct (counter_step_lookup_rev _ _ _ _ _ Hstep E) as (n1 & E1 & _ & _ & Hcb & Hctr).
    destruct (data_lookup _ _ _ _ (Hd a Hax) E1) as (n3 & E3 & Hcb3 & Hctr3).
    exists n3. split.
    + rewrite (release_chain_lookup s3 _ _ Hwf3); [done|].
      revert Ha. rewrite !elem_of_app, !elem_of_cons. tauto.
    + split; [congruence|]. rewrite Hctr3.
      destruct Hstep as [(Hnw & Hh & _)|(Hw & _ & Hh)].
      * rewrite decide_False by done. rewrite Hh in E1. congruence.
      * rewrite decide_True by done. rewrite Hh, E, decide_True in E1 by done.
        by injection E1 as <-.
  - intros a n' Ha E'. apply release_lookup_Some in E'.
    assert (Hax : a ≠ nextAddr s).
    { intros ->. apply Ha. rewrite elem_of_app, elem_of_cons. auto. }
    assert (is_Some (heap s1 !! a)) as [n1 E1].
    { apply (data_is_Some _ _ _ (Hd a Hax)). eauto. }
    destruct (data_lookup _ _ _ _ (Hd a Hax) E1) as (n3 & E3 & Hcb3 & Hctr3).
    assert (n3 = n') as -> by congruence.
    destruct (counter_step_lookup _ _ _ _ _ Hstep E1) as (n & E & _ & _ & Hcb & [Hctr|(Hal & _)]).
    + exists n. split; [done|]. split; congruence.
    + exfalso. apply Ha. revert Hal. rewrite !elem_of_app, !elem_of_cons. tauto.
Qed.

Lemma C10_insert_before_witness :
  Inv (one 1 1) ([] ++ 0%nat :: []) ∧
  ∃ s', insert 9%nat (Some 0%nat) (one 1 1) = Some (Some 1%nat, s') ∧
        wf s' ([] ++ 1%nat :: 0%nat :: []) ∧ head s' = Some 1%nat ∧
        tail s' = Some 0%nat.
Proof.
  assert (H : Inv (one 1 1) ([] ++ 0%nat :: []))
    by (apply (bool_decide_unpack _); vm_compute; exact I).
  split; [exact H|].
  destruct (C10_insert_before (one 1 1) [] 0%nat [] 9%nat (Inv_wf _ _ H))
    as (s' & Hins & Hwf & Hhd & Htl & _).
  { apply (bool_decide_unpack _). vm_compute. exact I. }
  exists s'. split; [exact Hins|]. split; [exact Hwf|]. split; [exact Hhd|exact Htl].
Defined.

Section NewNode.

Context {Callback : Type}.
Implicit Types (s : @State Callback) (l : list addr).

(** Without a wrap, getNextCounter moves the counter by one and leaves the
    store alone. *)
Lemma counter_step_nowrap s s1 l :
  counter_step s s1 l → 0 ≤ currentCounter s < counterMax →
  currentCounter s1 = currentCounter s + 1.
Proof.
  intros Hstep Hc. unfold counterMax in Hc.
  assert (wrap64 (currentCounter s + 1) = currentCounter s + 1) as Hw
    by (apply wrap64_small; lia).
  destruct Hstep as [(_ & _ & ->)|(Hz & _)]; [done|]. rewrite Hw in Hz. lia.
Qed.


End NewNode.





(** ** What release destroys *)

Section Released.

Context {Callback : Type}.
Implicit Types (s : @State Callback) (h : gmap addr (@Node Callback)).
Implicit Types (n : @Node Callback) (a b x : addr) (l : list addr) (p q : option addr).

Lemma release_pins s : pins (release s) = pins s.
Proof. unfold release. apply sweep_rounds_fields. Qed.

Lemma release_drops s a : ¬ referenced s a → heap (release s) !! a = None.
Proof.
  intros Hun. unfold release. destruct (size (heap s)) as [|k] eqn:Hsz.
  - apply map_size_empty_iff in Hsz. simpl. by rewrite Hsz, lookup_empty.
  - simpl. destruct (heap (sweep_rounds k (sweep1 s)) !! a) as [n'|] eqn:E'; [|done].
    apply sweep_rounds_lookup_Some, sweep1_lookup_Some in E' as [_ ?]. done.
Qed.

(** When the nodes of [l] hold each other and no other node of the store
    has a strong reference, release leaves exactly the nodes of [l]. *)
Lemma release_to_list s l a :
  anchored s (λ b, b ∈ l) →
  (∀ b, is_Some (heap s !! b) → b ∉ l → ¬ referenced s b) →
  heap (release s) !! a = if decide (a ∈ l) then heap s !! a else None.
Proof.
  intros Hanc Hout. destruct (decide (a ∈ l)) as [Hal|Hal].
  - by apply (release_keeps s (λ b, b ∈ l)).
  - destruct (heap s !! a) as [n|] eqn:E.
    + apply release_drops, Hout; eauto.
    + destruct (heap (release s) !! a) as [n'|] eqn:E'; [|done].
      apply release_lookup_Some in E'. congruence.
Qed.

End Released.

(** ** The destructor *)

Section Destruction.

Context {Callback : Type}.
Implicit Types (s : @State Callback) (h : gmap addr (@Node Callback)).
Implicit Types (n : @Node Callback) (a b c x : addr) (l : list addr) (p q : option addr).



Lemma pin_heap o s : heap (pin o s) = heap s.
Proof. by destruct o. Qed.

Lemma pin_head o s : head (pin o s) = head s.
Proof. by destruct o. Qed.

Lemma pin_tail o s : tail (pin o s) = tail s.
Proof. by destruct o. Qed.







End Destruction.

(** ** The order of the callbacks after an operation *)

Section Order.

Context {Callback : Type}.
Implicit Types (s : @State Callback) (h : gmap addr (@Node Callback)).
Implicit Types (n : @Node Callback) (a b c x : addr) (l : list addr) (p q : option addr).

(** What a dispatch does at a quiescent point where no node is removed:
    forEach and invoke run the callbacks of the chain in order and leave the
    list as it was. *)
Lemma dispatch_calls_chain {V} (eff : Callback → V → V) s l fuel (u : V) :
  Inv s l → all_live s → (length l ≤ fuel)%nat →
  forEach fuel (FuncCallback (λ cb s u, Some (tt, s, eff cb u))) s u =
    Some (s, foldl (λ u cb, eff cb u) u (callbacks_of (heap s) l)) ∧
  ∀ (Args : Type) (args : Args),
    invoke (λ cb (_ : Args) s u, Some (s, eff cb u))
           defaultCanContinueInvoking fuel args s u =
    Some (s, foldl (λ u cb, eff cb u) u (callbacks_of (heap s) l)).
Proof.
  intros HI Hl Hlen. split.
  - unfold forEach.
    rewrite (doForEachIf_quiescent_all _ eff s _ fuel u HI Hl Hlen); [done|].
    intros x ps u'. unfold forEach_visitor, doForEachInvoke. simpl.
    by destruct (heap s !! x).
  - intros Args args. unfold invoke, forEachIf.
    rewrite (doForEachIf_quiescent_all _ eff s _ fuel u HI Hl Hlen); [done|].
    intros x ps u'. unfold forEachIf_visitor, invoke_func, doForEachInvoke. simpl.
    by destruct (heap s !! x).
Qed.

(** The callbacks of the nodes that were there before an insertion. *)
Lemma linked_new_callbacks s s1 s' l x nx l0 :
  counter_step s s1 l → linked_new s1 s' x nx → x ∉ l0 →
  callbacks_of (heap s') l0 = callbacks_of (heap s) l0.
Proof.
  intros Hstep (_ & _ & _ & Hd & _) Hx.
  rewrite <- (callbacks_of_ext (heap s) (heap s1))
    by (intros; by eapply counter_step_callback).
  apply callbacks_of_ext. intros a Ha. apply data_callback, Hd. by intros ->.
Qed.

Lemma callbacks_of_cons h a n l :
  h !! a = Some n → callbacks_of h (a :: l) = callback n :: callbacks_of h l.
Proof. intros E. unfold callbacks_of. simpl. by rewrite E. Qed.

Lemma callbacks_of_length h l :
  (∀ a, a ∈ l → is_Some (h !! a)) → length (callbacks_of h l) = length l.
Proof.
  induction l as [|a l IH]; intros Hl; [done|].
  destruct (Hl a) as [n E]; [left|]. rewrite (callbacks_of_cons _ _ _ _ E). simpl.
  rewrite IH; [done|]. intros b Hb. apply Hl. by right.
Qed.

Lemma prepend_quiescent s l cb :
  Inv s l → all_live s →
  ∃ s', prepend cb s = Some (Some (nextAddr s), s') ∧ Inv s' (nextAddr s :: l) ∧
    all_live s' ∧
    callbacks_of (heap s') (nextAddr s :: l) = cb :: callbacks_of (heap s) l.
Proof.
  intros HI Hl.
  destruct (prepend_Inv s l cb HI) as (s1 & s' & Hg & HI1 & Hstep & Hpre & HI' & Hnew).
  destruct (getNextCounter_result _ _ _ Hg) as (Hc0 & _).
  exists s'. split; [done|]. split; [done|]. split.
  - apply (linked_new_live s1 s' _ _ Hnew); [done|]. by apply (counter_step_live s s1 l).
  - pose proof Hnew as (_ & _ & Ex & _).
    rewrite (callbacks_of_cons _ _ _ _ Ex). simpl. f_equal.
    apply (linked_new_callbacks s s1 s' l _ _ l Hstep Hnew).
    by apply (Inv_nextAddr_notin s l HI).
Qed.

Lemma insert_quiescent s l1 b l2 cb :
  Inv s (l1 ++ b :: l2) → all_live s →
  ∃ s', insert cb (Some b) s = Some (Some (nextAddr s), s') ∧
    Inv s' (l1 ++ nextAddr s :: b :: l2) ∧ all_live s' ∧
    callbacks_of (heap s') (l1 ++ nextAddr s :: b :: l2) =
    callbacks_of (heap s) l1 ++ cb :: callbacks_of (heap s) (b :: l2).
Proof.
  intros HI Hl.
  destruct (insert_Inv s l1 b l2 cb HI)
    as (s1 & s' & Hg & HI1 & Hstep & Hins & HI' & Hnew & _).
  destruct (getNextCounter_result _ _ _ Hg) as (Hc0 & _).
  pose proof (Inv_nextAddr_notin s _ HI) as Hx.
  exists s'. split; [done|]. split; [done|]. split.
  - apply (linked_new_live s1 s' _ _ Hnew); [done|].
    by apply (counter_step_live s s1 (l1 ++ b :: l2)).
  - pose proof Hnew as (_ & _ & Ex & _).
    rewrite callbacks_of_app, (callbacks_of_cons _ _ _ _ Ex).
    rewrite (linked_new_callbacks s s1 s' _ _ _ l1 Hstep Hnew).
    2:{ intros H. apply Hx. rewrite elem_of_app. auto. }
    rewrite (linked_new_callbacks s s1 s' _ _ _ (b :: l2) Hstep Hnew).
    2:{ intros H. apply Hx. rewrite elem_of_app. auto. }
    done.
Qed.

Lemma remove_quiescent s l1 a l2 :
  Inv s (l1 ++ a :: l2) → all_live s →
  ∃ s', remove (Some a) s = Some (true, s') ∧ Inv s' (l1 ++ l2) ∧ all_live s' ∧
    callbacks_of (heap s') (l1 ++ l2) =
    callbacks_of (heap s) l1 ++ callbacks_of (heap s) l2.
Proof.
  intros HI Hl.
  destruct (remove_Inv s l1 a l2 HI) as (s' & Hrm & HI' & Ea & Hd & _).
  exists s'. split; [done|]. split; [done|]. split.
  - intros b n' E'. simpl.
    assert (b ≠ a) as Hb by (intros ->; congruence).
    assert (is_Some (heap s !! b)) as [n E].
    { apply (data_is_Some _ _ _ (Hd b Hb)). eauto. }
    destruct (data_lookup _ _ _ _ (Hd b Hb) E) as (n'' & E'' & _ & Hc).
    assert (n'' = n') as -> by congruence. rewrite Hc. by apply (Hl b n).
  - pose proof (Inv_wf _ _ HI) as (Hnd & _).
    destruct (NoDup_mid _ _ _ Hnd) as (Ha1 & Ha2 & _).
    rewrite <- callbacks_of_app. apply callbacks_of_ext.
    intros b Hb. apply data_callback, Hd. intros ->.
    revert Hb. rewrite elem_of_app. tauto.
Qed.

End Order.

(** ** Undoing an insertion *)

Section Undo.

Context {Callback : Type}.
Implicit Types (s : @State Callback) (h : gmap addr (@Node Callback)).
Implicit Types (n : @Node Callback) (a b c x : addr) (l : list addr) (p q : option addr).





End Undo.

(** ** What a sequence of operations keeps *)

Section Sequences.

Context {Callback : Type}.
Implicit Types (s : @State Callback) (h : gmap addr (@Node Callback)).
Implicit Types (n : @Node Callback) (a b c x : addr) (l : list addr) (p q : option addr).


(** The nodes of a chain that are older than the node [k] inserted into
    it. *)
Lemma filter_older (k : nat) l1 l2 :
  Forall (λ a, (a < k)%nat) (l1 ++ l2) →
  filter (λ a, (a < k)%nat) (l1 ++ k :: l2) = l1 ++ l2.
Proof.
  intros [H1 H2]%Forall_app. rewrite filter_app, filter_cons_False by lia.
  by rewrite !filter_Forall_id.
Qed.

Lemma Inv_older s l : Inv s l → Forall (λ a, (a < nextAddr s)%nat) l.
Proof. intros HI. apply Forall_forall. intros a Ha. by apply (Inv_fresh s l). Qed.

(** An insertion keeps the nodes that were there, with their callbacks. *)
Lemma linked_new_keeps s s1 s' l x nx a n :
  counter_step s s1 l → linked_new s1 s' x nx → heap s !! a = Some n →
  ∃ n', heap s' !! a = Some n' ∧ callback n' = callback n.
Proof.
  intros Hstep (-> & Hx & _ & Hd & _) E.
  destruct (counter_step_lookup_rev _ _ _ _ _ Hstep E) as (n1 & E1 & _ & _ & Hc1 & _).
  assert (a ≠ nextAddr s1) as Hne by (intros ->; congruence).
  destruct (data_lookup _ _ _ _ (Hd a Hne) E1) as (n' & E' & Hc & _).
  exists n'. split; [done|congruence].
Qed.

(** One operation at a quiescent point: it returns, the invariant holds
    again, the nodes that remain of the old chain are in their old order,
    and every node but the one removed is still there with its callback. *)
Lemma run_op_Inv s l o :
  Inv s l →
  ∃ s' l', run_op o s = Some s' ∧ Inv s' l' ∧ (nextAddr s ≤ nextAddr s')%nat ∧
    filter (λ a, (a < nextAddr s)%nat) l' `sublist_of` l ∧
    ∀ a n, heap s !! a = Some n → o ≠ OpRemove (Some a) →
      ∃ n', heap s' !! a = Some n' ∧ callback n' = callback n.
Proof.
  intros HI. pose proof (Inv_older s l HI) as Hold.
  assert (Happ : ∀ cb, ∃ s' l', snd <$> append cb s = Some s' ∧ Inv s' l' ∧
    (nextAddr s ≤ nextAddr s')%nat ∧
    filter (λ a, (a < nextAddr s)%nat) l' `sublist_of` l ∧
    ∀ a n, heap s !! a = Some n →
      ∃ n', heap s' !! a = Some n' ∧ callback n' = callback n).
  { intros cb.
    destruct (append_Inv s l cb HI) as (s1 & s' & Hg & _ & Hstep & Happ & HI' & Hnew).
    exists s', (l ++ [nextAddr s]). rewrite Happ. split; [done|]. split; [done|].
    split; [|split].
    - destruct Hnew as (_ & _ & _ & _ & -> & _).
      destruct (getNextCounter_result _ _ _ Hg) as (_ & _ & _ & _ & _ & -> & _). lia.
    - rewrite filter_older by (by rewrite app_nil_r). by rewrite app_nil_r.
    - intros a n E. by apply (linked_new_keeps s s1 s' l _ _ a n Hstep Hnew). }
  destruct o as [cb|cb|cb before|hd]; simpl.
  - destruct (Happ cb) as (s' & l' & ? & ? & ? & ? & Hk).
    exists s', l'. repeat (split; [done|]). intros a n E _. by apply Hk.
  - destruct (prepend_Inv s l cb HI) as (s1 & s' & Hg & _ & Hstep & Hpre & HI' & Hnew).
    exists s', (nextAddr s :: l). rewrite Hpre. split; [done|]. split; [done|].
    split; [|split].
    + destruct Hnew as (_ & _ & _ & _ & -> & _).
      destruct (getNextCounter_result _ _ _ Hg) as (_ & _ & _ & _ & _ & -> & _). lia.
    + assert (Hf : filter (λ a, (a < nextAddr s)%nat) (nextAddr s :: l) = l)
        by exact (filter_older (nextAddr s) [] l Hold).
      by rewrite Hf.
    + intros a n E _. by apply (linked_new_keeps s s1 s' l _ _ a n Hstep Hnew).
  - destruct (lock s before) as [b|] eqn:Hlock.
    + apply lock_Some in Hlock as [-> Hb]. apply (Inv_dom _ _ _ HI) in Hb.
      apply list_elem_of_split in Hb as (l1 & l2 & ->).
      destruct (insert_Inv s l1 b l2 cb HI)
        as (s1 & s' & Hg & _ & Hstep & Hins & HI' & Hnew & _).
      exists s', (l1 ++ nextAddr s :: b :: l2). rewrite Hins.
      split; [done|]. split; [done|]. split; [|split].
      * destruct Hnew as (_ & _ & _ & _ & -> & _).
        destruct (getNextCounter_result _ _ _ Hg) as (_ & _ & _ & _ & _ & -> & _). lia.
      * by rewrite (filter_older _ l1 (b :: l2)).
      * intros a n E _. by apply (linked_new_keeps s s1 s' _ _ _ a n Hstep Hnew).
    + unfold insert. rewrite Hlock.
      destruct (Happ cb) as (s' & l' & ? & ? & ? & ? & Hk).
      exists s', l'. repeat (split; [done|]). intros a n E _. by apply Hk.
  - destruct (lock s hd) as [b|] eqn:Hlock.
    + apply lock_Some in Hlock as [-> Hb]. apply (Inv_dom _ _ _ HI) in Hb.
      apply list_elem_of_split in Hb as (l1 & l2 & ->).
      destruct (remove_Inv s l1 b l2 HI) as (s' & Hrm & HI' & _ & Hd & Hna & _).
      exists s', (l1 ++ l2). rewrite Hrm. split; [done|]. split; [done|].
      split; [lia|]. split.
      * etrans; [apply sublist_filter|]. apply sublist_app; [done|].
        by apply sublist_cons.
      * intros a n E Hne. assert (a ≠ b) as Hab by congruence.
        destruct (data_lookup _ _ _ _ (Hd a Hab) E) as (n' & E' & Hc & _). eauto.
    + unfold remove. rewrite Hlock. simpl. exists s, l.
      split; [done|]. split; [done|]. split; [lia|]. split.
      * apply sublist_filter.
      * intros a n E _. eauto.
Qed.


End Sequences.

(** ** A visitor that removes the node it is called on *)

Section SelfRemoval.

Context {Callback : Type}.
Implicit Types (s : @State Callback) (h : gmap addr (@Node Callback)).
Implicit Types (n : @Node Callback) (a b x : addr) (l : list addr) (p q : option addr).

(** One iteration of the loop of doForEachIf on an eligible node, when the
    visitor returns true. *)
Lemma loop_step_true {V} (f : Visitor V) fuel c0 a s n (u : V) s1 u1 n1 :
  heap s !! a = Some n → counter n ≠ removedCounter → counter n ≤ c0 →
  f a s u = Some (true, s1, u1) → heap s1 !! a = Some n1 →
  doForEachIf_loop (S fuel) f c0 (Some a) s u =
  doForEachIf_loop fuel f c0 (next n1) (unpin a (pin (next n1) s1)) u1.
Proof.
  intros E Hc0 Hc Hf E1. simpl. rewrite E. simpl.
  rewrite decide_True by done. rewrite Hf. simpl. by rewrite E1.
Qed.

(** remove on the node that the iteration holds: the node is unlinked and
    marked, and stays in the store. *)
Lemma remove_held s l1 a l2 :
  wf s (l1 ++ a :: l2) → a ∈ pins s →
  (∀ b, is_Some (heap s !! b) → b ∈ l1 ++ a :: l2) →
  ∃ n s1, heap s !! a = Some n ∧ previous n = last l1 ∧ next n = hd_error l2 ∧
    remove (Some a) s = Some (true, s1) ∧ wf s1 (l1 ++ l2) ∧
    heap s1 !! a = Some (set_counter removedCounter n) ∧
    (∀ b, b ≠ a → data (heap s1) b = data (heap s) b) ∧
    (∀ b, is_Some (heap s1 !! b) → b ∈ l1 ++ a :: l2) ∧
    currentCounter s1 = currentCounter s ∧ nextAddr s1 = nextAddr s ∧
    pins s1 = pins s.
Proof.
  intros Hwf Hpin Hdom.
  destruct (doRemoveNode_wf s l1 a l2 Hwf)
    as (n & s1 & E & Hp & Hn & Hrm & Hwf1 & E1 & Hd & Hfr & Hcc & Hna & Hpins).
  assert (Hdom1 : ∀ b, is_Some (heap s1 !! b) → b ∈ l1 ++ a :: l2).
  { intros b Hb. destruct (decide (b = a)) as [->|Hne].
    - rewrite elem_of_app, elem_of_cons. auto.
    - apply Hdom. by apply (data_is_Some _ _ _ (Hd b Hne)). }
  assert (Hrel : release s1 = s1).
  { apply release_id. intros b Hb%Hdom1.
    rewrite elem_of_app, elem_of_cons in Hb.
    destruct (decide (b = a)) as [->|Hne].
    - right. right. left. by rewrite Hpins.
    - apply (anchored_referenced _ (λ c, c ∈ l1 ++ l2)); [by apply wf_anchored|].
      rewrite elem_of_app. tauto. }
  exists n, s1. unfold remove. rewrite (wf_lock s _ a Hwf), Hrm; simpl.
  2:{ rewrite elem_of_app, elem_of_cons. auto. }
  rewrite Hrel. done.
Qed.

(** The iteration moves on from a node that was removed while it held it:
    the node is destroyed. *)
Lemma unpin_removed s l a na nxt :
  wf s l → a ∉ l → heap s !! a = Some na → ¬ points_to a na →
  (∀ b, is_Some (heap s !! b) → b = a ∨ b ∈ l) →
  pins s = [a] → nxt ≠ Some a →
  let s2 := unpin a (pin nxt s) in
  pins s2 = option_list nxt ∧ wf s2 l ∧
  (∀ b, heap s2 !! b = if decide (b ∈ l) then heap s !! b else None) ∧
  currentCounter s2 = currentCounter s ∧ nextAddr s2 = nextAddr s.
Proof.
  intros Hwf Hal Ea Hself Hdom Hpins Hnxt s2.
  assert (Hp : remove1 a (pins (pin nxt s)) = option_list nxt).
  { destruct nxt as [b|]; simpl; rewrite Hpins; simpl.
    - rewrite decide_False by congruence. by rewrite decide_True.
    - by rewrite decide_True. }
  set (s1 := set_pins (option_list nxt) (pin nxt s)).
  assert (Hs2 : s2 = release s1).
  { unfold s2, unpin. by rewrite Hp. }
  assert (Hwf1 : wf s1 l).
  { destruct Hwf as (? & ? & ? & ?). unfold wf, s1. simpl.
    by rewrite pin_heap, pin_head, pin_tail. }
  rewrite Hs2. rewrite release_pins, release_currentCounter, release_nextAddr.
  split; [done|]. split; [by apply wf_release|]. split; [|split].
  - intros b. rewrite (release_to_list s1 l b).
    + unfold s1. simpl. by rewrite pin_heap.
    + by apply wf_anchored.
    + intros c Hc Hcl. unfold s1 in Hc. simpl in Hc. rewrite pin_heap in Hc.
      destruct (Hdom c Hc) as [->|?]; [|done].
      pose proof Hwf1 as (_ & _ & Hhd1 & Htl1).
      intros [H|[H|[H|(d & nd & Ed & Hpt)]]].
      * rewrite Hhd1 in H. by apply head_Some_elem_of in H.
      * rewrite Htl1 in H. by apply last_Some_elem_of in H.
      * unfold s1 in H. simpl in H. destruct nxt as [z|]; simpl in H.
        -- apply list_elem_of_singleton in H. congruence.
        -- by apply elem_of_nil in H.
      * unfold s1 in Ed. simpl in Ed. rewrite pin_heap in Ed.
        destruct (Hdom d) as [->|Hd]; [eauto| |].
        -- assert (nd = na) as -> by congruence. done.
        -- apply Hal. apply (wf_points_to s l a d nd); done.
  - unfold s1. simpl. by destruct nxt.
  - unfold s1. simpl. by destruct nxt.
Qed.

(** The loop of doForEachIf with a visitor that removes the node it is
    called on when [once] selects its callback: [l1] are the nodes that stay
    behind the iteration, [l2] the nodes still to come. *)
Lemma loop_removing {V} (once : Callback → bool) (eff : Callback → V → V)
    fuel c0 s l1 l2 (u : V) :
  wf s (l1 ++ l2) →
  (∀ b, is_Some (heap s !! b) → b ∈ l1 ++ l2) →
  pins s = option_list (hd_error l2) →
  (∀ b n, heap s !! b = Some n → counter n ≠ removedCounter ∧ counter n ≤ c0) →
  (length l2 ≤ fuel)%nat →
  ∃ s' l',
    doForEachIf_loop fuel (forEach_visitor (removing_func once eff)) c0 (hd_error l2) s u =
      Some (true, s', foldl (λ u cb, eff cb u) u (callbacks_of (heap s) l2)) ∧
    wf s' (l1 ++ l') ∧ (∀ b, is_Some (heap s' !! b) → b ∈ l1 ++ l') ∧ pins s' = [] ∧
    (∀ b, b ∈ l1 ++ l' → data (heap s') b = data (heap s) b) ∧
    callbacks_of (heap s) l' =
      filter (λ cb, once cb = false) (callbacks_of (heap s) l2) ∧
    l' `sublist_of` l2 ∧
    currentCounter s' = currentCounter s ∧ nextAddr s' = nextAddr s.
Proof.
  revert fuel s l1 u. induction l2 as [|a l2 IH]; intros fuel s l1 u Hwf Hdom Hpins Hctr Hfuel.
  { exists s, []. split; [by destruct fuel|].
    split; [done|]. split; [done|]. split; [done|]. split; [done|].
    split; [done|]. split; [constructor|done]. }
  destruct fuel as [|fuel]; [simpl in Hfuel; lia|].
  pose proof Hwf as (Hnd & Hseg & _).
  destruct (NoDup_mid _ _ _ Hnd) as (Ha1 & Ha2 & Hnd12).
  assert (Hal : a ∉ l1 ++ l2) by (rewrite elem_of_app; tauto).
  destruct (dseg_mid _ _ _ _ _ _ Hseg) as (n & E & Hpn & Hnn).
  rewrite from_option_Some_None in Hpn, Hnn.
  destruct (Hctr a n E) as [Hlive Hle].
  assert (Hnxt : hd_error l2 ≠ Some a).
  { intros H. by apply head_Some_elem_of in H. }
  simpl hd_error. simpl in Hpins.
  rewrite (callbacks_of_cons _ _ _ _ E). simpl foldl.
  destruct (once (callback n)) eqn:Honce.
  - destruct (remove_held s l1 a l2 Hwf) as (n' & s1 & E' & _ & _ & Hrm & Hwf1 & E1 & Hd
                                              & Hdom1 & Hcc1 & Hna1 & Hpins1);
      [rewrite Hpins; left|done|].
    assert (n' = n) as -> by congruence.
    assert (Hf : forEach_visitor (removing_func once eff) a s u
                 = Some (true, s1, eff (callback n) u)).
    { unfold forEach_visitor, removing_func, doForEachInvoke. simpl.
      rewrite E. simpl. rewrite Honce, Hrm. done. }
    rewrite (loop_step_true _ fuel c0 a s n u s1 _ _ E Hlive Hle Hf E1).
    simpl next. rewrite Hnn.
    destruct (unpin_removed s1 (l1 ++ l2) a (set_counter removedCounter n) (hd_error l2))
      as (Hpins2 & Hwf2 & Hh2 & Hcc2 & Hna2); try done.
    { intros [H|H]; simpl in H.
      - rewrite Hpn in H. by apply last_Some_elem_of in H.
      - rewrite Hnn in H. by apply head_Some_elem_of in H. }
    { intros b Hb%Hdom1. revert Hb. rewrite !elem_of_app, elem_of_cons. tauto. }
    { by rewrite Hpins1. }
    set (s2 := unpin a (pin (hd_error l2) s1)) in *.
    assert (Hd2 : ∀ b, b ∈ l1 ++ l2 → data (heap s2) b = data (heap s) b).
    { intros b Hb. unfold data at 1. rewrite Hh2, decide_True by done.
      apply Hd. by intros ->. }
    destruct (IH fuel s2 l1 (eff (callback n) u)) as (s' & l' & Hloop & Hwf' & Hdom' & Hpins'
        & Hd' & Hcbs & Hsub & Hcc' & Hna'); try done.
    { intros b Hb. destruct (heap s2 !! b) eqn:Eb; [|by destruct Hb].
      rewrite Hh2 in Eb. by destruct (decide (b ∈ l1 ++ l2)). }
    { intros b nb Eb. assert (b ∈ l1 ++ l2) as Hb.
      { rewrite Hh2 in Eb. by destruct (decide (b ∈ l1 ++ l2)). }
      pose proof (Hd2 b Hb) as Hdb. unfold data in Hdb. rewrite Eb in Hdb.
      destruct (heap s !! b) as [nb0|] eqn:Eb0; [|done]. simpl in Hdb.
      destruct (Hctr b nb0 Eb0). injection Hdb as _ Hc. by rewrite Hc. }
    { simpl in Hfuel. lia. }
    assert (Hcb2 : ∀ l0, l0 `sublist_of` l2 → callbacks_of (heap s2) l0 = callbacks_of (heap s) l0).
    { intros l0 Hl0. apply callbacks_of_ext. intros b Hb. apply data_callback, Hd2.
      rewrite elem_of_app. right. by eapply elem_of_sublist. }
    exists s', l'. rewrite Hloop, (Hcb2 l2) by done.
    split; [done|]. split; [done|]. split; [done|]. split; [done|]. split; [|split; [|split; [|split]]].
    + intros b Hb. rewrite Hd' by done. apply Hd2.
      revert Hb. rewrite !elem_of_app. intros [?|?]; [by left|right]. by eapply elem_of_sublist.
    + rewrite filter_cons_False by (by rewrite Honce).
      rewrite <- (Hcb2 l') by done. rewrite Hcbs. by rewrite (Hcb2 l2).
    + by apply sublist_cons.
    + congruence.
    + congruence.
  - assert (Hf : forEach_visitor (removing_func once eff) a s u
                 = Some (true, s, eff (callback n) u)).
    { unfold forEach_visitor, removing_func, doForEachInvoke. simpl.
      rewrite E. simpl. by rewrite Honce. }
    rewrite (loop_step_true _ fuel c0 a s n u s _ _ E Hlive Hle Hf E).
    rewrite Hnn.
    assert (Hst : stable s) by (by apply (wf_stable s (l1 ++ a :: l2))).
    assert (Hu : unpin a (pin (hd_error l2) s) = set_pins (option_list (hd_error l2)) s).
    { pose proof (unpin_pin a (hd_error l2) [] s Hst) as Hu.
      rewrite <- Hpins, set_pins_id, app_nil_r in Hu. done. }
    rewrite Hu.
    destruct (IH fuel (set_pins (option_list (hd_error l2)) s) (l1 ++ [a]) (eff (callback n) u))
      as (s' & l' & Hloop & Hwf' & Hdom' & Hpins' & Hd' & Hcbs & Hsub & Hcc' & Hna'); try done.
    { rewrite <- app_assoc. done. }
    { simpl. intros b Hb. rewrite <- app_assoc. by apply Hdom. }
    { simpl in Hfuel. lia. }
    rewrite <- app_assoc in Hwf', Hdom', Hd'. simpl in *.
    exists s', (a :: l'). rewrite Hloop.
    split; [done|]. split; [done|]. split; [done|]. split; [done|]. split; [done|].
    split; [|split; [|done]].
    + rewrite (callbacks_of_cons _ _ _ _ E), Hcbs.
      by rewrite filter_cons_True by (by rewrite Honce).
    + by apply sublist_skip.
Qed.

End SelfRemoval.

(** ** A visitor that appends to the list it is called from *)

Section Appending.

Context {Callback : Type}.
Implicit Types (s : @State Callback) (h : gmap addr (@Node Callback)).
Implicit Types (n : @Node Callback) (a b x : addr) (l : list addr) (p q : option addr).

Lemma chained_stable s l : chained s l → stable s.
Proof. intros (Hwf & Hdom & _). by apply (wf_stable s l). Qed.

Lemma chained_set_pins s l ps : chained s l → chained (set_pins ps s) l.
Proof. intros H. exact H. Qed.

(** append in a state that iterations may hold, when the counter does not
    wrap. *)
Lemma append_held s l cb :
  chained s l → currentCounter s < counterMax →
  ∃ s', append cb s = Some (Some (nextAddr s), s') ∧
    chained s' (l ++ [nextAddr s]) ∧
    currentCounter s' = currentCounter s + 1 ∧ pins s' = pins s ∧
    (∃ n, heap s' !! nextAddr s = Some n ∧ callback n = cb ∧
          counter n = currentCounter s + 1) ∧
    (∀ b, b ∈ l → data (heap s') b = data (heap s) b).
Proof.
  intros (Hwf & Hdom & Hfr & Hc0) Hcc.
  destruct (append_wf s l cb Hwf Hfr)
    as (s1 & s3 & Hg & Hwf1 & Hstep & Hfr1 & Hc1 & Hna & Hp & Happ & Hwf3 & Hnew).
  pose proof (counter_step_nowrap s s1 l Hstep (conj Hc0 Hcc)) as Hcc1.
  assert (Hh1 : heap s1 = heap s).
  { destruct Hstep as [(_ & ? & _)|(Hw & _)]; [done|].
    apply wrap64_succ_zero in Hw; unfold counterMax in *; lia. }
  pose proof (linked_new_fresh _ _ _ _ Hnew Hfr1) as Hfr3.
  destruct (fresh_notin s l Hwf Hfr) as [Hx _].
  destruct Hnew as (_ & _ & Ex & Hd & Hna3 & Hcc3 & Hp3).
  assert (Hdom3 : ∀ b, is_Some (heap s3 !! b) → b ∈ l ++ [nextAddr s]).
  { intros b Hb. rewrite elem_of_app, list_elem_of_singleton.
    destruct (decide (b = nextAddr s)) as [->|Hne]; [by right|left].
    apply Hdom. rewrite <- Hh1. by apply (data_is_Some _ _ _ (Hd b Hne)). }
  rewrite (release_chain s3 _ Hwf3 Hdom3) in Happ.
  exists s3. split; [done|]. split; [|split; [|split; [|split]]].
  - unfold chained. rewrite Hcc3. split; [done|]. split; [done|]. split; [done|]. lia.
  - lia.
  - congruence.
  - eexists. split; [done|]. simpl. split; [done|lia].
  - intros b Hb. rewrite Hd, Hh1; [done|]. by intros ->.
Qed.

(** A sequence of appends. *)
Lemma appends_held (cbs : list Callback) s l :
  chained s l → currentCounter s + Z.of_nat (length cbs) ≤ counterMax →
  ∃ s' lnew, run_ops (OpAppend <$> cbs) s = Some s' ∧
    chained s' (l ++ lnew) ∧
    currentCounter s' = currentCounter s + Z.of_nat (length cbs) ∧
    pins s' = pins s ∧ length lnew = length cbs ∧
    callbacks_of (heap s') lnew = cbs ∧
    (∀ b, b ∈ l → data (heap s') b = data (heap s) b) ∧
    (∀ b n, b ∈ lnew → heap s' !! b = Some n →
       currentCounter s < counter n ∧ counter n ≤ currentCounter s').
Proof.
  revert s l. induction cbs as [|cb cbs IH]; intros s l Hch Hcc.
  - exists s, []. simpl. rewrite app_nil_r. split; [done|]. split; [done|].
    split; [lia|]. split; [done|]. split; [done|]. split; [done|]. split; [done|].
    intros b n Hb. by apply elem_of_nil in Hb.
  - simpl length in Hcc.
    destruct (append_held s l cb Hch) as (s1 & Happ & Hch1 & Hcc1 & Hp1 & (nx & Ex & Hcx & Hctrx) & Hd1);
      [lia|].
    destruct (IH s1 (l ++ [nextAddr s]) Hch1) as (s' & lnew & Hops & Hch' & Hcc' & Hp' & Hlen
        & Hcbs & Hd' & Hctr'); [lia|].
    rewrite <- app_assoc in Hch'. simpl in Hch'.
    assert (Hx : data (heap s') (nextAddr s) = Some (cb, currentCounter s + 1)).
    { rewrite Hd' by (rewrite elem_of_app, list_elem_of_singleton; auto).
      unfold data. rewrite Ex. simpl. by rewrite Hcx, Hctrx. }
    exists s', (nextAddr s :: lnew).
    split; [simpl; rewrite Happ; simpl; done|].
    split; [done|]. split; [simpl length; lia|]. split; [congruence|].
    split; [simpl; by rewrite Hlen|]. split; [|split].
    + unfold data in Hx. destruct (heap s' !! nextAddr s) as [n'|] eqn:E'; [|done].
      rewrite (callbacks_of_cons _ _ _ _ E'), Hcbs. simpl in Hx. congruence.
    + intros b Hb. rewrite Hd' by (rewrite elem_of_app; auto). by apply Hd1.
    + intros b n [->|Hb]%elem_of_cons E.
      * unfold data in Hx. rewrite E in Hx. simpl in Hx. injection Hx as _ Hc. lia.
      * destruct (Hctr' b n Hb E). lia.
Qed.

(** The loop of doForEachIf over nodes none of which is eligible. *)
Lemma loop_skip {V} (f : Visitor V) c0 s0 fuel p l ps (u : V) :
  stable s0 → dseg (heap s0) p l None →
  (∀ b, b ∈ l → eligible c0 (heap s0) b = false) → (length l ≤ fuel)%nat →
  doForEachIf_loop fuel f c0 (hd_error l) (set_pins (option_list (hd_error l) ++ ps) s0) u =
  Some (true, set_pins ps s0, u).
Proof.
  intros Hst. revert fuel p. induction l as [|a l IH]; intros fuel p Hseg Hel Hfuel.
  - by destruct fuel.
  - destruct fuel as [|fuel]; [simpl in Hfuel; lia|].
    apply dseg_cons in Hseg as (n & E & _ & Hn & Hseg).
    rewrite from_option_Some_None in Hn.
    assert (Hnot : ¬ (counter n ≠ removedCounter ∧ counter n ≤ c0)).
    { assert (eligible c0 (heap s0) a = false) as H by (apply Hel; left).
      unfold eligible in H. rewrite E in H. by apply bool_decide_eq_false in H. }
    simpl. rewrite E. simpl. rewrite decide_False by done. simpl. rewrite E. simpl.
    rewrite Hn, (unpin_pin a (hd_error l) ps s0 Hst).
    apply (IH fuel (Some a)); [done| |simpl in Hfuel; lia].
    intros b Hb. apply Hel. by right.
Qed.

(** The loop of doForEachIf with a visitor that appends: [l1] are the nodes
    behind the iteration, [l2] the nodes of the original chain still to
    come, [lnew] the nodes appended since the dispatch began. *)
Lemma loop_appending {V} (more : Callback → list Callback) (eff : Callback → V → V)
    fuel c0 s l1 l2 lnew (u : V) :
  chained s (l1 ++ l2 ++ lnew) →
  pins s = option_list (hd_error (l2 ++ lnew)) →
  (∀ b n, b ∈ l2 → heap s !! b = Some n → counter n ≠ removedCounter ∧ counter n ≤ c0) →
  (∀ b n, b ∈ lnew → heap s !! b = Some n → c0 < counter n) →
  c0 ≤ currentCounter s →
  currentCounter s + Z.of_nat (length (callbacks_of (heap s) l2 ≫= more)) ≤ counterMax →
  (length l2 + length lnew + length (callbacks_of (heap s) l2 ≫= more) ≤ fuel)%nat →
  ∃ s' lnew',
    doForEachIf_loop fuel (forEach_visitor (appending_func more eff)) c0
                     (hd_error (l2 ++ lnew)) s u =
      Some (true, s', foldl (λ u cb, eff cb u) u (callbacks_of (heap s) l2)) ∧
    chained s' (l1 ++ l2 ++ lnew ++ lnew') ∧ pins s' = [] ∧
    currentCounter s' = currentCounter s + Z.of_nat (length lnew') ∧
    callbacks_of (heap s') lnew' = callbacks_of (heap s) l2 ≫= more ∧
    (∀ b, b ∈ l1 ++ l2 ++ lnew → data (heap s') b = data (heap s) b) ∧
    (∀ b n, b ∈ lnew' → heap s' !! b = Some n →
       currentCounter s < counter n ∧ counter n ≤ currentCounter s').
Proof.
  revert fuel s l1 lnew u.
  induction l2 as [|a l2 IH]; intros fuel s l1 lnew u Hch Hpins Hold Hnew Hc0 Hcc Hfuel.
  { simpl in *. exists (set_pins [] s), []. rewrite app_nil_r.
    pose proof Hch as ((_ & Hseg & _) & _).
    apply dseg_app in Hseg as [_ Hseg].
    pose proof (loop_skip (forEach_visitor (appending_func more eff)) c0 s fuel _ lnew [] u
                  (chained_stable _ _ Hch) Hseg) as Hloop.
    rewrite app_nil_r, <- Hpins, set_pins_id in Hloop. rewrite Hloop.
    - split; [done|]. split; [done|]. split; [done|]. split; [simpl; lia|].
      split; [done|]. split; [done|]. intros b n Hb. by apply elem_of_nil in Hb.
    - intros b Hb. unfold eligible. destruct (heap s !! b) as [n|] eqn:E; [|done].
      apply bool_decide_eq_false. intros [_ ?]. pose proof (Hnew b n Hb E). lia.
    - lia. }
  destruct fuel as [|fuel]; [simpl in Hfuel; lia|].
  pose proof Hch as (Hwf & Hdom & Hfr & Hcc0).
  assert (Hain : a ∈ l1 ++ (a :: l2) ++ lnew).
  { rewrite !elem_of_app, elem_of_cons. auto. }
  destruct (wf_lookup _ _ _ Hwf Hain) as [n E].
  destruct (Hold a n) as [Hlive Hle]; [left|done|].
  simpl in Hpins. rewrite (callbacks_of_cons _ _ _ _ E) in Hcc, Hfuel |- *.
  rewrite bind_cons, length_app in Hcc, Hfuel.
  destruct (appends_held (more (callback n)) s _ Hch)
    as (s1 & lnew1 & Hops & Hch1 & Hcc1 & Hp1 & Hlen1 & Hcbs1 & Hd1 & Hctr1); [lia|].
  assert (Hf : forEach_visitor (appending_func more eff) a s u
               = Some (true, s1, eff (callback n) u)).
  { unfold forEach_visitor, appending_func, doForEachInvoke. simpl.
    rewrite E. simpl. by rewrite Hops. }
  pose proof Hch1 as (Hwf1 & Hdom1 & Hfr1 & _).
  assert (Hlist : (l1 ++ (a :: l2) ++ lnew) ++ lnew1 = l1 ++ a :: (l2 ++ lnew ++ lnew1)).
  { by rewrite <- !app_assoc. }
  rewrite Hlist in Hwf1, Hdom1.
  pose proof Hwf1 as (_ & Hseg1 & _).
  destruct (dseg_mid _ _ _ _ _ _ Hseg1) as (n1 & E1 & _ & Hnn1).
  rewrite from_option_Some_None in Hnn1.
  simpl hd_error.
  rewrite (loop_step_true _ fuel c0 a s n u s1 _ _ E Hlive Hle Hf E1). rewrite Hnn1.
  assert (Hu : unpin a (pin (hd_error (l2 ++ lnew ++ lnew1)) s1)
               = set_pins (option_list (hd_error (l2 ++ lnew ++ lnew1))) s1).
  { pose proof (unpin_pin a (hd_error (l2 ++ lnew ++ lnew1)) [] s1
                  (chained_stable _ _ Hch1)) as Hu.
    rewrite <- Hpins, <- Hp1, set_pins_id, app_nil_r in Hu. done. }
  rewrite Hu. set (s2 := set_pins (option_list (hd_error (l2 ++ lnew ++ lnew1))) s1).
  assert (Hd2 : ∀ b, b ∈ l1 ++ (a :: l2) ++ lnew → data (heap s2) b = data (heap s) b).
  { intros b Hb. by apply Hd1. }
  assert (Hcb2 : callbacks_of (heap s2) l2 = callbacks_of (heap s) l2).
  { apply callbacks_of_ext. intros b Hb. apply data_callback, Hd2.
    rewrite !elem_of_app, elem_of_cons. auto. }
  destruct (IH fuel s2 (l1 ++ [a]) (lnew ++ lnew1) (eff (callback n) u))
    as (s' & lnew' & Hloop & Hch' & Hpins' & Hcc' & Hcbs' & Hd' & Hctr').
  { unfold s2. apply chained_set_pins.
    replace ((l1 ++ [a]) ++ l2 ++ lnew ++ lnew1)
      with ((l1 ++ (a :: l2) ++ lnew) ++ lnew1); [done|].
    rewrite <- !app_assoc. done. }
  { done. }
  { intros b nb Hb Eb. assert (b ∈ l1 ++ (a :: l2) ++ lnew) as Hb'.
    { rewrite !elem_of_app, elem_of_cons. auto. }
    pose proof (Hd2 b Hb') as Hdb. unfold data in Hdb. rewrite Eb in Hdb.
    destruct (heap s !! b) as [nb0|] eqn:Eb0; [|done]. simpl in Hdb.
    injection Hdb as _ Hc. rewrite Hc. by apply (Hold b nb0); [right|]. }
  { intros b nb [Hb|Hb]%elem_of_app Eb.
    - assert (b ∈ l1 ++ (a :: l2) ++ lnew) as Hb'.
      { rewrite !elem_of_app. auto. }
      pose proof (Hd2 b Hb') as Hdb. unfold data in Hdb. rewrite Eb in Hdb.
      destruct (heap s !! b) as [nb0|] eqn:Eb0; [|done]. simpl in Hdb.
      injection Hdb as _ Hc. rewrite Hc. by apply (Hnew b nb0).
    - destruct (Hctr1 b nb Hb Eb). lia. }
  { unfold s2. simpl. lia. }
  { rewrite Hcb2. unfold s2. simpl. lia. }
  { rewrite Hcb2, length_app. simpl in Hfuel. lia. }
  rewrite Hcb2 in Hloop, Hcbs'. unfold s2 in Hcc', Hd', Hctr'. simpl in Hcc', Hd', Hctr'.
  assert (Hlist' : (l1 ++ [a]) ++ l2 ++ (lnew ++ lnew1) ++ lnew'
                   = l1 ++ (a :: l2) ++ lnew ++ lnew1 ++ lnew').
  { rewrite <- !app_assoc. done. }
  rewrite Hlist' in Hch'.
  exists s', (lnew1 ++ lnew'). rewrite Hloop.
  split; [done|]. split; [done|]. split; [done|]. split; [|split; [|split]].
  - rewrite length_app. lia.
  - rewrite callbacks_of_app, Hcbs', bind_cons. f_equal.
    rewrite <- Hcbs1. apply callbacks_of_ext. intros b Hb. apply data_callback, Hd'.
    rewrite !elem_of_app. auto.
  - intros b Hb. rewrite Hd'.
    + by apply Hd1.
    + revert Hb. rewrite !elem_of_app, !elem_of_cons. tauto.
  - intros b nb [Hb|Hb]%elem_of_app Eb.
    + assert (Hdb : data (heap s') b = data (heap s1) b).
      { apply Hd'. rewrite !elem_of_app. auto. }
      unfold data in Hdb. rewrite Eb in Hdb.
      destruct (heap s1 !! b) as [nb1|] eqn:Eb1; [|done]. simpl in Hdb.
      injection Hdb as _ Hc. rewrite Hc. destruct (Hctr1 b nb1 Hb Eb1). lia.
    + destruct (Hctr' b nb Hb Eb). lia.
Qed.

End Appending.

(** ** Counting the insertions *)

Section Counting.

Context {Callback : Type}.
Implicit Types (s : @State Callback) (h : gmap addr (@Node Callback)).
Implicit Types (n : @Node Callback) (a b x : addr) (l : list addr) (p q : option addr).
Implicit Types (o : @Op Callback) (os : list (@Op Callback)).

(** The number of operations of a sequence that make a node. *)
Lemma insertions_cons o os :
  length (filter (λ o, makes_node o = true) (o :: os)) =
  ((if makes_node o then 1 else 0) + length (filter (λ o, makes_node o = true) os))%nat.
Proof.
  destruct (makes_node o) eqn:Ho.
  - by rewrite filter_cons_True.
  - rewrite filter_cons_False; [done|]. by rewrite Ho.
Qed.

(** An insertion that does not wrap the counter. *)
Lemma linked_new_nowrap s s1 s' l x nx :
  Inv s l → currentCounter s < counterMax →
  counter_step s s1 l → nextAddr s1 = nextAddr s → linked_new s1 s' x nx →
  currentCounter s' = currentCounter s + 1 ∧ nextAddr s' = S (nextAddr s) ∧
  ∀ a n n', heap s !! a = Some n → heap s' !! a = Some n' → counter n' = counter n.
Proof.
  intros HI Hcc Hstep Hna (-> & Hx & _ & Hd & Hna' & Hcc' & _).
  pose proof (Inv_range _ _ HI) as Hr.
  assert (Hh1 : heap s1 = heap s).
  { destruct Hstep as [(_ & ? & _)|(Hw & _)]; [done|].
    apply wrap64_succ_zero in Hw; [lia|done]. }
  split; [|split].
  - rewrite Hcc'. apply (counter_step_nowrap s s1 l); [done|lia].
  - by rewrite Hna', Hna.
  - intros a n n' E E'. assert (a ≠ nextAddr s1) as Hne by (intros ->; congruence).
    pose proof (Hd a Hne) as Hda. unfold data in Hda. rewrite E', Hh1, E in Hda.
    simpl in Hda. congruence.
Qed.

(** One operation, when the counter does not wrap: the counter and the next
    identity move by one for an insertion and not at all for remove, and the
    counter of no node changes. *)
Lemma run_op_counts s l o :
  Inv s l → (makes_node o = true → currentCounter s < counterMax) →
  ∃ s' l', run_op o s = Some s' ∧ Inv s' l' ∧
    currentCounter s' = currentCounter s + (if makes_node o then 1 else 0) ∧
    nextAddr s' = (nextAddr s + (if makes_node o then 1 else 0))%nat ∧
    ∀ a n n', heap s !! a = Some n → heap s' !! a = Some n' → counter n' = counter n.
Proof.
  intros HI Hcc.
  assert (Happ : currentCounter s < counterMax →
    ∀ cb, ∃ s' l', snd <$> append cb s = Some s' ∧ Inv s' l' ∧
    currentCounter s' = currentCounter s + 1 ∧ nextAddr s' = (nextAddr s + 1)%nat ∧
    ∀ a n n', heap s !! a = Some n → heap s' !! a = Some n' → counter n' = counter n).
  { clear Hcc. intros Hcc cb.
    destruct (append_Inv s l cb HI) as (s1 & s' & Hg & _ & Hstep & Happ & HI' & Hnew).
    destruct (getNextCounter_result _ _ _ Hg) as (_ & _ & _ & _ & _ & Hna & _).
    destruct (linked_new_nowrap s s1 s' l _ _ HI Hcc Hstep Hna Hnew) as (? & ? & ?).
    exists s', (l ++ [nextAddr s]). rewrite Happ. split; [done|]. split; [done|]. split; [done|]. split; [lia|done]. }
  destruct o as [cb|cb|cb before|hd]; simpl in *; try specialize (Hcc eq_refl).
  - by apply Happ.
  - destruct (prepend_Inv s l cb HI) as (s1 & s' & Hg & _ & Hstep & Hpre & HI' & Hnew).
    destruct (getNextCounter_result _ _ _ Hg) as (_ & _ & _ & _ & _ & Hna & _).
    destruct (linked_new_nowrap s s1 s' l _ _ HI Hcc Hstep Hna Hnew) as (? & ? & ?).
    exists s', (nextAddr s :: l). rewrite Hpre. split; [done|]. split; [done|]. split; [done|]. split; [lia|done].
  - destruct (lock s before) as [b|] eqn:Hlock.
    + apply lock_Some in Hlock as [-> Hb]. apply (Inv_dom _ _ _ HI) in Hb.
      apply list_elem_of_split in Hb as (l1 & l2 & ->).
      destruct (insert_Inv s l1 b l2 cb HI)
        as (s1 & s' & Hg & _ & Hstep & Hins & HI' & Hnew & _).
      destruct (getNextCounter_result _ _ _ Hg) as (_ & _ & _ & _ & _ & Hna & _).
      destruct (linked_new_nowrap s s1 s' _ _ _ HI Hcc Hstep Hna Hnew) as (? & ? & ?).
      exists s', (l1 ++ nextAddr s :: b :: l2). rewrite Hins. split; [done|]. split; [done|]. split; [done|]. split; [lia|done].
    + unfold insert. rewrite Hlock. by apply Happ.
  - destruct (lock s hd) as [b|] eqn:Hlock.
    + apply lock_Some in Hlock as [-> Hb]. apply (Inv_dom _ _ _ HI) in Hb.
      apply list_elem_of_split in Hb as (l1 & l2 & ->).
      destruct (remove_Inv s l1 b l2 HI) as (s' & Hrm & HI' & Eb & Hd & Hna & Hc).
      exists s', (l1 ++ l2). rewrite Hrm. split; [done|]. split; [done|].
      split; [lia|]. split; [lia|].
      intros a n n' E E'. assert (a ≠ b) as Hne by (intros ->; congruence).
      pose proof (Hd a Hne) as Hda. unfold data in Hda. rewrite E, E' in Hda.
      simpl in Hda. congruence.
    + unfold remove. rewrite Hlock. simpl. exists s, l.
      split; [done|]. split; [done|]. split; [lia|]. split; [lia|].
      intros a n n' E E'. congruence.
Qed.

End Counting.

(** ** A visitor that removes other nodes *)

Section Unsubscribing.

Context {Callback : Type}.
Implicit Types (s : @State Callback) (h : gmap addr (@Node Callback)).
Implicit Types (n : @Node Callback) (a b x : addr) (l : list addr) (p q : option addr).





End Unsubscribing.

(** ** A visitor that dispatches the list it is called from *)

Section Redispatching.

Context {Callback : Type}.
Implicit Types (s : @State Callback) (h : gmap addr (@Node Callback)).
Implicit Types (n : @Node Callback) (a b x : addr) (l : list addr) (p q : option addr).

(** forEach while other iterations hold nodes [ps], on a list that is
    otherwise at a quiescent point. *)
Lemma forEach_held {V} (eff : Callback → V → V) s l ps fuel (u : V) :
  Inv s l → all_live s → (length l ≤ fuel)%nat →
  forEach fuel (FuncCallback (λ cb s u, Some (tt, s, eff cb u))) (set_pins ps s) u =
  Some (set_pins ps s, foldl (λ u cb, eff cb u) u (callbacks_of (heap s) l)).
Proof.
  intros HI Hl Hfuel. pose proof (Inv_wf _ _ HI) as (_ & Hseg & Hhd & _).
  unfold forEach, doForEachIf. simpl.
  assert (Hpin : pin (head s) (set_pins ps s) = set_pins (option_list (hd_error l) ++ ps) s).
  { rewrite Hhd. by destruct (hd_error l). }
  rewrite Hpin, Hhd.
  rewrite (loop_segment _ (λ a u, n ← heap s !! a; Some (true, eff (callback n) u))
             (currentCounter s) s fuel None l ps u (Inv_stable _ _ HI)).
  - rewrite (visible_all s l HI Hl).
    rewrite (visit_until_true _ (λ a u, from_option (λ n, eff (callback n) u) u (heap s !! a))).
    + simpl. rewrite foldl_callbacks_of; [done|]. intros a. by apply (Inv_dom s l a HI).
    + intros a u' [n E]%(Inv_dom s l a HI). by rewrite E.
  - intros x ps' u'. unfold forEach_visitor, doForEachInvoke. simpl.
    by destruct (heap s !! x).
  - done.
  - done.
Qed.

End Redispatching.

(** ** A visitor that removes any nodes, its own included *)

Section Unlinking.

Context {Callback : Type}.
Implicit Types (s : @State Callback) (h : gmap addr (@Node Callback)).
Implicit Types (n : @Node Callback) (a b x : addr) (l k R : list addr) (p q : option addr).

Lemma wf_sweep1 s k : wf s k → wf (sweep1 s) k.
Proof.
  intros H. pose proof H as (? & Hseg & ? & ?).
  unfold wf. simpl. repeat split; try done.
  revert Hseg. apply dseg_frame. intros a Ha.
  by apply (sweep1_keeps s (λ a, a ∈ k)); [apply wf_anchored|].
Qed.

Lemma unlinking_release s0 s k R : unlinking s0 s k R → unlinking s0 (release s) k R.
Proof.
  intros (Hwf & Hnd & Hdis & Hdom & Hd & Hctr & Hrank & Hcc & Hna).
  unfold unlinking. rewrite release_currentCounter, release_nextAddr.
  split; [by apply wf_release|]. split; [done|]. split; [done|].
  split; [|split; [|split; [|split; [|done]]]].
  - intros b [n Eb%release_lookup_Some]. apply Hdom. eauto.
  - intros b Hb. unfold data at 1. rewrite (release_chain_lookup s k b Hwf Hb). by apply Hd.
  - intros b n Hb Eb%release_lookup_Some. by apply (Hctr b n).
  - intros R1 b R2 n c HR Eb%release_lookup_Some Hpt [nc Ec%release_lookup_Some].
    apply (Hrank R1 b R2 n c); eauto.
Qed.

Lemma length_filter_mono {A} (P Q : A → Prop) `{!∀ y : A, Decision (P y)}
    `{!∀ y : A, Decision (Q y)} (l : list A) :
  (∀ y, P y → Q y) → (length (filter P l) ≤ length (filter Q l))%nat.
Proof.
  intros HPQ. induction l as [|y l IH]; [done|].
  destruct (decide (P y)) as [Hy|Hy].
  - rewrite (filter_cons_True P), (filter_cons_True Q) by auto. simpl. lia.
  - rewrite (filter_cons_False P) by done.
    destruct (decide (Q y)).
    + rewrite (filter_cons_True Q) by done. simpl. lia.
    + by rewrite (filter_cons_False Q) by done.
Qed.

(** Destruction reaches every removed node when no iteration holds one:
    the node removed first is referenced by no node, and so on. *)
Lemma sweep_rounds_unlinked R : ∀ j s k,
  wf s k → pins s = [] → NoDup R → (∀ b, b ∈ R → b ∉ k) →
  (∀ b, is_Some (heap s !! b) → b ∈ k ∨ b ∈ R) →
  (∀ R1 b R2 n c, R = R1 ++ b :: R2 → heap s !! b = Some n → points_to c n →
     is_Some (heap s !! c) → c ∈ k ∨ c ∈ R2) →
  (length (filter (λ b, is_Some (heap s !! b)) R) ≤ j)%nat →
  ∀ b, b ∈ R → heap (sweep_rounds j s) !! b = None.
Proof.
  induction R as [|r R IH]; intros j s k Hwf Hpins Hnd Hdis Hdom Hrank Hj b Hb.
  { by apply elem_of_nil in Hb. }
  apply NoDup_cons in Hnd as [Hr HndR].
  assert (Hrank' : ∀ s', (∀ c n, heap s' !! c = Some n → heap s !! c = Some n) →
    ∀ R1 b R2 n c, R = R1 ++ b :: R2 → heap s' !! b = Some n → points_to c n →
      is_Some (heap s' !! c) → c ∈ k ∨ c ∈ R2).
  { intros s' Hsub R1 b' R2 n c -> Eb Hpt [nc Ec].
    apply (Hrank (r :: R1) b' R2 n c); eauto. }
  destruct (heap s !! r) as [nr|] eqn:Er.
  - rewrite filter_cons_True in Hj by eauto. simpl in Hj.
    destruct j as [|j]; [lia|]. simpl.
    assert (Hun : ¬ referenced s r).
    { pose proof Hwf as (_ & _ & Hhd & Htl).
      intros [H|[H|[H|(d & nd & Ed & Hpt)]]].
      - rewrite Hhd in H. apply head_Some_elem_of in H. by apply (Hdis r); [left|].
      - rewrite Htl in H. apply last_Some_elem_of in H. by apply (Hdis r); [left|].
      - rewrite Hpins in H. by apply elem_of_nil in H.
      - destruct (Hdom d) as [Hd|Hd]; [eauto| |].
        + apply (Hdis r); [left|]. by apply (wf_points_to s k r d nd).
        + apply elem_of_cons in Hd as [->|Hd].
          * destruct (Hrank [] r R nd r eq_refl Ed Hpt) as [?|?]; [eauto| |done].
            by apply (Hdis r); [left|].
          * apply list_elem_of_split in Hd as (R1 & R2 & ->).
            destruct (Hrank (r :: R1) d R2 nd r eq_refl Ed Hpt) as [?|?]; [eauto| |].
            -- by apply (Hdis r); [left|].
            -- apply Hr. rewrite elem_of_app, elem_of_cons. auto. }
    assert (Er1 : heap (sweep1 s) !! r = None).
    { destruct (heap (sweep1 s) !! r) as [n'|] eqn:E'; [|done].
      by apply sweep1_lookup_Some in E' as [_ ?]. }
    assert (Hsub : ∀ c n, heap (sweep1 s) !! c = Some n → heap s !! c = Some n).
    { intros c n Ec. by apply sweep1_lookup_Some in Ec as [? _]. }
    apply elem_of_cons in Hb as [->|Hb].
    + destruct (heap (sweep_rounds j (sweep1 s)) !! r) as [n'|] eqn:E'; [|done].
      apply sweep_rounds_lookup_Some in E'. congruence.
    + apply (IH j (sweep1 s) k); try done.
      * by apply wf_sweep1.
      * intros c Hc. apply Hdis. by right.
      * intros c [nc Ec]. destruct (Hdom c) as [?|Hc]; [eauto|by left|].
        apply elem_of_cons in Hc as [->|?]; [congruence|by right].
      * by apply Hrank'.
      * etrans; [|apply Nat.succ_le_mono, Hj].
        etrans; [apply (length_filter_mono _ (λ b, is_Some (heap s !! b)))|lia].
        intros c [nc Ec]. eauto.
  - rewrite filter_cons_False in Hj by (rewrite Er; by intros [? ?]).
    apply elem_of_cons in Hb as [->|Hb].
    + destruct (heap (sweep_rounds j s) !! r) as [n'|] eqn:E'; [|done].
      apply sweep_rounds_lookup_Some in E'. congruence.
    + apply (IH j s k); try done.
      * intros c Hc. apply Hdis. by right.
      * intros c Hc. destruct (Hdom c Hc) as [?|Hc']; [by left|].
        apply elem_of_cons in Hc' as [->|?]; [|by right].
        rewrite Er in Hc. by destruct Hc.
      * by apply Hrank'.
Qed.

(** When the iteration has let go of its last node, only the chain is
    left. *)
Lemma release_unlinked s0 s k R b :
  unlinking s0 s k R → pins s = [] →
  heap (release s) !! b = if decide (b ∈ k) then heap s !! b else None.
Proof.
  intros (Hwf & Hnd & Hdis & Hdom & Hd & Hctr & Hrank & Hcc & Hna) Hpins.
  destruct (decide (b ∈ k)) as [Hb|Hb]; [by apply (release_chain_lookup s k)|].
  destruct (heap s !! b) as [nb|] eqn:Eb.
  - destruct (Hdom b) as [?|HbR]; [eauto|done|].
    apply (sweep_rounds_unlinked R (size (heap s)) s k); try done.
    apply length_le_size.
    + by apply NoDup_filter.
    + intros c [Hc _]%list_elem_of_filter. done.
  - destruct (heap (release s) !! b) as [n'|] eqn:E'; [|done].
    apply release_lookup_Some in E'. congruence.
Qed.

(** *** Trails of removed nodes *)








(** *** One removal *)

Lemma app_snoc_inv {A} (L L1 L2 : list A) (y z : A) :
  L ++ [y] = L1 ++ z :: L2 →
  (L2 = [] ∧ z = y ∧ L1 = L) ∨ (∃ L3, L2 = L3 ++ [y] ∧ L = L1 ++ z :: L3).
Proof.
  destruct L2 as [|w L2 _] using rev_ind.
  - intros [-> ->]%app_inj_tail. by left.
  - intros H. right. exists L2.
    change (L1 ++ z :: L2 ++ [w]) with (L1 ++ (z :: L2) ++ [w]) in H.
    rewrite app_assoc in H. apply app_inj_tail in H as [-> ->]. done.
Qed.

(** doRemoveNode on a node of the chain. *)
Lemma unlinking_doRemoveNode s0 s l1 b l2 R :
  unlinking s0 s (l1 ++ b :: l2) R →
  ∃ n s1, heap s !! b = Some n ∧ next n = hd_error l2 ∧
    doRemoveNode b s = Some s1 ∧
    heap s1 !! b = Some (set_counter removedCounter n) ∧
    (∀ c, c ∉ l1 ++ b :: l2 → heap s1 !! c = heap s !! c) ∧
    pins s1 = pins s ∧
    unlinking s0 s1 (l1 ++ l2) (R ++ [b]).
Proof.
  intros (Hwf & Hnd & Hdis & Hdom & Hd & Hctr & Hrank & Hcc & Hna).
  destruct (doRemoveNode_wf s l1 b l2 Hwf)
    as (n & s1 & E & Hp & Hn & Hrm & Hwf1 & E1 & Hd1 & Hout & Hcc1 & Hna1 & Hpins1).
  pose proof Hwf as (Hndk & _).
  destruct (NoDup_mid _ _ _ Hndk) as (Hb1 & Hb2 & _).
  assert (Hbl : b ∉ l1 ++ l2) by (rewrite elem_of_app; tauto).
  assert (Hbk : b ∈ l1 ++ b :: l2) by (rewrite elem_of_app, elem_of_cons; auto).
  assert (Hsub : ∀ c, c ∈ l1 ++ l2 → c ∈ l1 ++ b :: l2).
  { intros c. rewrite !elem_of_app, elem_of_cons. tauto. }
  assert (Halive : ∀ c, is_Some (heap s1 !! c) → is_Some (heap s !! c)).
  { intros c Hc. destruct (decide (c = b)) as [->|Hne]; [eauto|].
    by apply (data_is_Some _ _ _ (Hd1 c Hne)). }
  exists n, s1. do 6 (split; [done|]).
  unfold unlinking. split; [done|]. split; [|split; [|split; [|split; [|split; [|split]]]]].
  - apply NoDup_app. split; [done|]. split; [|apply NoDup_singleton].
    intros c Hc ->%list_elem_of_singleton. by apply (Hdis b).
  - intros c [Hc| ->%list_elem_of_singleton]%elem_of_app; [|done].
    intros Hck%Hsub. by apply (Hdis c).
  - intros c Hc. rewrite !elem_of_app, list_elem_of_singleton.
    destruct (decide (c = b)) as [->|Hne]; [auto|].
    destruct (Hdom c (Halive c Hc)) as [Hck|?]; [left|auto].
    revert Hck. rewrite !elem_of_app, elem_of_cons. tauto.
  - intros c Hc. rewrite Hd1 by (by intros ->). by apply Hd, Hsub.
  - intros c nc [Hc| ->%list_elem_of_singleton]%elem_of_app Ec.
    + rewrite Hout in Ec by (by apply Hdis). by apply (Hctr c nc).
    + by assert (nc = set_counter removedCounter n) as -> by congruence.
  - intros R1 x R2 nx c HR Ex Hpt Hc.
    destruct (app_snoc_inv _ _ _ _ _ HR) as [(-> & -> & ->)|(R2' & -> & ->)].
    + left. assert (nx = set_counter removedCounter n) as -> by congruence.
      rewrite elem_of_app. destruct Hpt as [H|H]; simpl in H.
      * left. rewrite Hp in H. by apply last_Some_elem_of.
      * right. rewrite Hn in H. by apply head_Some_elem_of.
    + assert (x ∈ R1 ++ x :: R2') as HxR by (rewrite elem_of_app, elem_of_cons; auto).
      rewrite Hout in Ex by (by apply Hdis).
      destruct (Hrank R1 x R2' nx c eq_refl Ex Hpt (Halive c Hc)) as [Hck|?].
      * destruct (decide (c = b)) as [->|Hne].
        -- right. rewrite elem_of_app, list_elem_of_singleton. auto.
        -- left. revert Hck. rewrite !elem_of_app, elem_of_cons. tauto.
      * right. rewrite elem_of_app. auto.
  - split; congruence.
Qed.

(** remove on a node of the chain. *)
Lemma remove_unlinking s0 s l1 b l2 R :
  unlinking s0 s (l1 ++ b :: l2) R →
  ∃ n s1, heap s !! b = Some n ∧ next n = hd_error l2 ∧
    remove (Some b) s = Some (true, release s1) ∧
    heap s1 !! b = Some (set_counter removedCounter n) ∧
    (∀ c, c ∉ l1 ++ b :: l2 → heap s1 !! c = heap s !! c) ∧
    pins s1 = pins s ∧ wf s1 (l1 ++ l2) ∧
    unlinking s0 (release s1) (l1 ++ l2) (R ++ [b]).
Proof.
  intros Hun. pose proof Hun as (Hwf & _).
  destruct (unlinking_doRemoveNode s0 s l1 b l2 R Hun)
    as (n & s1 & E & Hn & Hrm & E1 & Hout & Hpins & Hun1).
  exists n, s1. unfold remove. rewrite (wf_lock s _ b Hwf), Hrm; simpl.
  2:{ rewrite elem_of_app, elem_of_cons. auto. }
  do 6 (split; [done|]). split; [by destruct Hun1|]. by apply unlinking_release.
Qed.









End Unlinking.

(** ** A visitor that inserts nodes anywhere in the list *)

Section Inserting.

Context {Callback : Type}.
Implicit Types (s : @State Callback) (h : gmap addr (@Node Callback)).
Implicit Types (n : @Node Callback) (a b x : addr) (l : list addr) (p q : option addr).













End Inserting.

(** ** Operations called while dispatches are in progress *)

Section Held.

Context {Callback : Type}.
Implicit Types (s : @State Callback) (h : gmap addr (@Node Callback)).
Implicit Types (n : @Node Callback) (a b x : addr) (l k R : list addr) (p q : option addr).

(** Destruction stops when every node that is left is referenced. *)
Lemma sweep_rounds_closed j : ∀ s,
  (size (heap s) ≤ j)%nat →
  ∀ b, is_Some (heap (sweep_rounds j s) !! b) → referenced (sweep_rounds j s) b.
Proof.
  induction j as [|j IH]; intros s Hsz b [n E].
  - simpl in E. assert (heap s = ∅) as Hh by (apply map_size_empty_iff; lia).
    rewrite Hh in E. by rewrite lookup_empty in E.
  - destruct (decide (map_Forall (λ a _, referenced s a) (heap s))) as [Hall|Hex].
    + assert (sweep1 s = s) as Hid.
      { apply sweep1_id. intros a [na Ea]. by apply (Hall a na). }
      rewrite (sweep_rounds_id _ _ Hid) in E |- *. by apply (Hall b n).
    + simpl in E |- *. apply IH; [|eauto].
      apply map_not_Forall in Hex; [|apply _].
      destruct Hex as (a & na & Ea & Hna).
      assert (heap (sweep1 s) ⊂ heap s) as Hsub.
      { split.
        - apply map_subseteq_spec. intros c nc Ec.
          by apply sweep1_lookup_Some in Ec as [? _].
        - intros Hle. rewrite map_subseteq_spec in Hle.
          apply Hle in Ea. apply sweep1_lookup_Some in Ea as [_ ?]. done. }
      apply map_subset_size in Hsub. lia.
Qed.

Lemma release_closed s b : is_Some (heap (release s) !! b) → referenced (release s) b.
Proof. by apply sweep_rounds_closed. Qed.

Lemma store_frame a f h h' c : store a f h = Some h' → c ≠ a → h' !! c = h !! c.
Proof. intros (n & _ & ->)%store_inv Hne. by rewrite lookup_insert_ne. Qed.

Lemma counter_step_frame s s1 l c : counter_step s s1 l → c ∉ l → heap s1 !! c = heap s !! c.
Proof.
  intros [(_ & -> & _)|(_ & _ & H)] Hc; [done|]. by rewrite H, decide_False.
Qed.

(** An operation that makes a node writes to the new node and to nodes of the
    chain only. *)
Lemma append_frame s l cb hd s' c n :
  wf s l → append cb s = Some (hd, s') → c ∉ l → c ≠ nextAddr s →
  heap s' !! c = Some n → heap s !! c = Some n.
Proof.
  intros Hwf H Hc Hx E.
  destruct (getNextCounter_wf s l Hwf) as (s1 & Hg & Hwf1 & Hstep & _ & Hna & _ & _ & _ & _).
  rewrite <- (counter_step_frame s s1 l c Hstep Hc).
  unfold append in H. rewrite Hg in H. simpl in H.
  apply bind_Some in H as (s3 & H3 & [= _ <-]). apply release_lookup_Some in E.
  destruct Hwf1 as (_ & _ & _ & Htl).
  destruct (head s1).
  - apply bind_Some in H3 as (h1 & Hs1 & H3). apply bind_Some in H3 as (t & Ht & H3).
    apply bind_Some in H3 as (h2 & Hs2 & [= <-]). simpl in *.
    assert (c ≠ t).
    { intros ->. apply Hc. rewrite Htl in Ht. apply last_Some in Ht as [l' ->].
      rewrite elem_of_app, list_elem_of_singleton. auto. }
    rewrite (store_frame _ _ _ _ c Hs2), (store_frame _ _ _ _ c Hs1) in E by congruence.
    rewrite lookup_insert_ne in E by congruence. done.
  - injection H3 as <-. simpl in E. rewrite lookup_insert_ne in E by congruence. done.
Qed.

Lemma prepend_frame s l cb hd s' c n :
  wf s l → prepend cb s = Some (hd, s') → c ∉ l → c ≠ nextAddr s →
  heap s' !! c = Some n → heap s !! c = Some n.
Proof.
  intros Hwf H Hc Hx E.
  destruct (getNextCounter_wf s l Hwf) as (s1 & Hg & Hwf1 & Hstep & _ & Hna & _ & _ & _ & _).
  rewrite <- (counter_step_frame s s1 l c Hstep Hc).
  unfold prepend in H. rewrite Hg in H. simpl in H.
  apply bind_Some in H as (s3 & H3 & [= _ <-]). apply release_lookup_Some in E.
  destruct Hwf1 as (_ & _ & Hhd & _).
  destruct (head s1) as [t|] eqn:Ht.
  - apply bind_Some in H3 as (h1 & Hs1 & H3).
    apply bind_Some in H3 as (h2 & Hs2 & [= <-]). simpl in *.
    assert (c ≠ t).
    { intros ->. apply Hc. destruct l; simpl in Hhd; [done|]. injection Hhd as ->. left. }
    rewrite (store_frame _ _ _ _ c Hs2), (store_frame _ _ _ _ c Hs1) in E by congruence.
    rewrite lookup_insert_ne in E by congruence. done.
  - injection H3 as <-. simpl in E. rewrite lookup_insert_ne in E by congruence. done.
Qed.

Lemma insert_frame s l cb before hd s' c n :
  wf s l → fresh s → (∀ b, lock s before = Some b → b ∈ l) →
  insert cb before s = Some (hd, s') → c ∉ l → c ≠ nextAddr s →
  heap s' !! c = Some n → heap s !! c = Some n.
Proof.
  intros Hwf Hfr Hlock H Hc Hx E. unfold insert in H.
  destruct (lock s before) as [b|] eqn:Hl; [|by apply (append_frame s l cb hd s' c n)].
  specialize (Hlock b eq_refl).
  destruct (getNextCounter_wf s l Hwf) as (s1 & Hg & Hwf1 & Hstep & _ & Hna & _ & _ & _ & Hfr1).
  rewrite <- (counter_step_frame s s1 l c Hstep Hc).
  rewrite Hg in H. simpl in H.
  apply bind_Some in H as (s3 & H3 & [= _ <-]). apply release_lookup_Some in E.
  destruct (fresh_notin s1 l Hwf1 (Hfr1 Hfr)) as [Hxl _]. rewrite Hna in Hxl.
  assert (Hxb : nextAddr s ≠ b) by (intros Heq; apply Hxl; by rewrite Heq).
  apply list_elem_of_split in Hlock as (l1 & l2 & ->).
  destruct Hwf1 as (_ & Hseg & _).
  destruct (dseg_mid _ _ _ _ _ _ Hseg) as (nb & Eb & Hpb & _).
  unfold doInsert in H3. simpl in H3. rewrite Hna in H3.
  rewrite lookup_insert_ne, Eb in H3 by done. simpl in H3.
  apply bind_Some in H3 as (h1 & Hs1 & H3). apply bind_Some in H3 as (h2 & Hs2 & H3).
  apply bind_Some in H3 as (b2 & Eb2 & H3). apply bind_Some in H3 as (h3 & Hs3 & H3).
  apply bind_Some in H3 as (h4 & Hs4 & [= <-]).
  assert (Hcb : c ≠ b).
  { intros ->. apply Hc. rewrite elem_of_app, elem_of_cons. auto. }
  assert (E4 : heap (set_heap h4 (mkState (head s1) (tail s1) (currentCounter s1)
                 (<[nextAddr s:=mkNode None None cb (currentCounter s1)]> (heap s1))
                 (S (nextAddr s)) (pins s1))) !! c = Some n).
  { by destruct (decide _) in E. }
  clear E. simpl in E4.
  rewrite (store_frame _ _ _ _ c Hs4) in E4 by done.
  rewrite (store_frame _ _ _ _ b Hs2), (store_frame _ _ _ _ b Hs1) in Eb2 by done.
  rewrite lookup_insert_ne, Eb in Eb2 by done. injection Eb2 as <-.
  assert (h3 !! c = h2 !! c) as E3.
  { destruct (previous nb) as [pv|] eqn:Hpv.
    - apply (store_frame _ _ _ _ c Hs3). intros ->. apply Hc.
      destruct l1 as [|z l1 _] using rev_ind; [done|].
      rewrite last_snoc in Hpb. simpl in Hpb. injection Hpb as ->.
      rewrite !elem_of_app, list_elem_of_singleton. auto.
    - by injection Hs3 as <-. }
  rewrite E3, (store_frame _ _ _ _ c Hs2), (store_frame _ _ _ _ c Hs1) in E4 by done.
  by rewrite lookup_insert_ne in E4.
Qed.

Lemma held_intro s0 s k R :
  unlinking s0 s k R →
  (∀ b, b ∈ k → (b < nextAddr s)%nat) → (∀ b, b ∈ R → (b < nextAddr s)%nat) →
  0 ≤ currentCounter s < counterModulus →
  (∀ b n, b ∈ k → heap s !! b = Some n → counter_ok (currentCounter s) n) →
  (∀ b, is_Some (heap s !! b) → referenced s b) →
  held s k R.
Proof.
  intros (Hwf & Hnd & Hdis & Hdom & _ & Hctr & Hrank & _ & _) Hk HR Hr Hok Hcl.
  split; [|split; [|done]].
  - unfold unlinking. repeat (split; [done|]). done.
  - intros b n E. simpl. destruct (Hdom b) as [?|?]; eauto.
Qed.

Lemma held_chain_older s k R b : held s k R → b ∈ k → (b < nextAddr s)%nat.
Proof.
  intros ((Hwf & _) & Hfr & _) Hb. destruct (wf_lookup _ _ _ Hwf Hb) as [n E].
  by apply (Hfr b n).
Qed.

(** At a quiescent point nothing is removed and kept alive. *)
Lemma Inv_held s l : Inv s l → held s l [].
Proof.
  intros HI. apply (held_intro s).
  - unfold unlinking. split; [by apply Inv_wf|]. split; [apply NoDup_nil_2|].
    split; [intros b Hb; by apply elem_of_nil in Hb|].
    split; [intros b Hb; left; by apply (Inv_dom _ _ _ HI)|].
    split; [done|]. split; [intros b n Hb; by apply elem_of_nil in Hb|].
    split; [|done]. intros R1 b R2 n c HR. by destruct R1.
  - intros b Hb. by apply (Inv_fresh _ _ _ HI).
  - intros b Hb. by apply elem_of_nil in Hb.
  - by apply (Inv_range _ l).
  - intros b n _ E. by apply (Inv_counter _ _ _ _ HI E).
  - intros b Hb. apply (anchored_referenced s (λ a, a ∈ l)); [apply wf_anchored, (Inv_wf _ _ HI)|].
    by apply (Inv_dom _ _ _ HI).
Qed.

(** When no iteration is in progress, such a state is a quiescent point. *)
Lemma held_Inv s k R : held s k R → pins s = [] → Inv s k.
Proof.
  intros (Hun & Hfr & Hr & Hok & HR & Hcl) Hp.
  pose proof (release_unlinked s s k R) as Hrel. rewrite (release_id s Hcl) in Hrel.
  assert (Hdom : ∀ b, is_Some (heap s !! b) ↔ b ∈ k).
  { intros b. specialize (Hrel b Hun Hp). split.
    - intros [n E]. destruct (decide (b ∈ k)); [done|]. congruence.
    - apply wf_lookup, Hun. }
  apply Inv_intro; [apply Hun|done|done| |done].
  intros b n E. split; [by apply (Hfr b n)|]. apply (Hok b n); [|done]. apply Hdom. eauto.
Qed.

(** What an insertion leaves of such a state. *)
Lemma held_linked s k R s1 s3 k' nx :
  held s k R → counter_step s s1 k → 0 < currentCounter s1 < counterModulus →
  nextAddr s1 = nextAddr s →
  wf s3 k' → linked_new s1 s3 (nextAddr s) nx → counter nx = currentCounter s1 →
  (∀ a, a ∈ k' ↔ a = nextAddr s ∨ a ∈ k) →
  (∀ c n, c ∉ k → c ≠ nextAddr s → heap (release s3) !! c = Some n → heap s !! c = Some n) →
  held (release s3) k' R.
Proof.
  intros Hh Hstep Hc1 Hna Hwf3 Hnew Hcx Hk' Hframe.
  pose proof Hh as ((Hwf & Hnd & Hdis & Hdom & _ & Hctr & Hrank & _ & _) & Hfr & Hr & Hok & HR & Hcl).
  destruct Hnew as (_ & _ & Ex & Hd & Hna3 & Hcc3 & _).
  assert (Hnotk : ∀ c, c ∈ R → c ∉ k ∧ c ≠ nextAddr s).
  { intros c Hc. split; [by apply Hdis|]. apply HR in Hc. lia. }
  assert (Hdom3 : ∀ b, is_Some (heap (release s3) !! b) → b ∈ k' ∨ b ∈ R).
  { intros b [n E%release_lookup_Some].
    destruct (decide (b = nextAddr s)) as [->|Hne]; [left; apply Hk'; auto|].
    assert (is_Some (heap s !! b)) as Hb.
    { apply (counter_step_is_Some s s1 k b Hstep).
      apply (data_is_Some _ _ _ (Hd b Hne)). eauto. }
    destruct (Hdom b Hb); [left; apply Hk'; auto|by right]. }
  apply (held_intro (release s3)).
  - unfold unlinking. split; [by apply wf_release|]. split; [done|].
    split; [|split; [done|split; [done|split; [|split; [|done]]]]].
    + intros b Hb [->|Hbk]%Hk'; [apply HR in Hb; lia|by apply (Hdis b)].
    + intros b n Hb E. destruct (Hnotk b Hb) as [? ?]. apply (Hctr b n Hb).
      by apply Hframe.
    + intros R1 b R2 n c -> E Hp [nc Ec].
      assert (b ∈ R1 ++ b :: R2) as Hb by (rewrite elem_of_app, elem_of_cons; auto).
      destruct (Hnotk b Hb) as [? ?].
      destruct (decide (c ∈ k')) as [?|Hck]; [by left|].
      assert (c ∉ k ∧ c ≠ nextAddr s) as [? ?].
      { split; intros ?; apply Hck, Hk'; auto. }
      destruct (Hrank R1 b R2 n c eq_refl) as [?|?]; [by apply Hframe|done| |done|by right].
      exists nc. by apply Hframe.
  - rewrite release_nextAddr, Hna3, Hna. intros b [->|Hb]%Hk'; [lia|].
    pose proof (held_chain_older s k R b Hh Hb). lia.
  - rewrite release_nextAddr, Hna3, Hna. intros b Hb%HR. lia.
  - rewrite release_currentCounter, Hcc3. lia.
  - rewrite release_currentCounter, Hcc3. intros b n Hb E%release_lookup_Some.
    destruct (decide (b = nextAddr s)) as [->|Hne].
    + rewrite Ex in E. injection E as <-. right. lia.
    + apply Hk' in Hb as [?|Hb]; [done|].
      pose proof (Hd b Hne) as Hdb. unfold data in Hdb. rewrite E in Hdb.
      destruct (heap s1 !! b) as [n1|] eqn:E1; [|done]. simpl in Hdb.
      injection Hdb as _ Hcn. unfold counter_ok. rewrite Hcn.
      destruct Hstep as [(Hnw & Hh1 & Hcc1)|(Hw & Hcc1 & Hh1)].
      * rewrite Hh1 in E1. pose proof (Hok b n1 Hb E1) as Hokb.
        rewrite wrap64_succ_zero in Hnw by done. unfold counterMax in Hnw.
        rewrite Hcc1, wrap64_small by lia.
        destruct Hokb as [?|[? ?]]; [by left|]. right. lia.
      * rewrite Hh1, decide_True in E1 by done.
        destruct (heap s !! b) as [n0|]; [|done]. injection E1 as <-. simpl. right. lia.
  - apply release_closed.
Qed.

Lemma held_lock s k R hd b :
  held s k R → live_handle s hd → lock s hd = Some b → hd = Some b ∧ b ∈ k.
Proof.
  intros ((_ & _ & _ & Hdom & _ & Hctr & _) & _) Hlive Hl.
  apply lock_Some in Hl as [-> [n E]]. split; [done|].
  destruct (Hdom b) as [?|Hb]; [eauto|done|].
  exfalso. apply (Hlive b n eq_refl E). by apply (Hctr b n).
Qed.

(** Every operation that is not given the Handle of a removed node returns
    and leaves such a state. *)
Lemma held_op s k R o :
  held s k R → live_handle s (handle_of o) →
  ∃ s' k' R', run_op o s = Some s' ∧ held s' k' R'.
Proof.
  intros Hh Hlive.
  pose proof Hh as (Hun & Hfr & Hr & Hok & HR & Hcl). pose proof Hun as (Hwf & _).
  assert (Happ : ∀ cb, ∃ s' k' R', snd <$> append cb s = Some s' ∧ held s' k' R').
  { intros cb.
    destruct (append_wf s k cb Hwf Hfr)
      as (s1 & s3 & Hg & Hwf1 & Hstep & Hfr1 & Hc1 & Hna & Hp & Ha & Hwf3 & Hnew).
    exists (release s3), (k ++ [nextAddr s]), R. rewrite Ha. split; [done|].
    apply (held_linked s k R s1 s3 _ _ Hh Hstep Hc1 Hna Hwf3 Hnew); [done| |].
    - intros a. rewrite elem_of_app, list_elem_of_singleton. tauto.
    - intros c n Hc Hx E. by apply (append_frame s k cb _ _ c n Hwf Ha). }
  destruct o as [cb|cb|cb before|hd]; simpl in *.
  - apply Happ.
  - destruct (prepend_wf s k cb Hwf Hfr)
      as (s1 & s3 & Hg & Hwf1 & Hstep & Hfr1 & Hc1 & Hna & Hp & Ha & Hwf3 & Hnew).
    exists (release s3), (nextAddr s :: k), R. rewrite Ha. split; [done|].
    apply (held_linked s k R s1 s3 _ _ Hh Hstep Hc1 Hna Hwf3 Hnew); [done| |].
    + intros a. rewrite elem_of_cons. tauto.
    + intros c n Hc Hx E. by apply (prepend_frame s k cb _ _ c n Hwf Ha).
  - destruct (lock s before) as [b|] eqn:Hl.
    + destruct (held_lock s k R before b Hh Hlive Hl) as [-> Hb].
      apply list_elem_of_split in Hb as (l1 & l2 & ->).
      destruct (insert_wf s l1 b l2 cb Hwf Hfr)
        as (s1 & s3 & Hg & Hwf1 & Hstep & Hfr1 & Hc1 & Hna & Hp & Ha & Hwf3 & Hnew & _).
      exists (release s3), (l1 ++ nextAddr s :: b :: l2), R. rewrite Ha. split; [done|].
      apply (held_linked s _ R s1 s3 _ _ Hh Hstep Hc1 Hna Hwf3 Hnew); [done| |].
      * intros a. rewrite !elem_of_app, !elem_of_cons. tauto.
      * intros c n Hc Hx E.
        apply (insert_frame s _ cb (Some b) (Some (nextAddr s)) (release s3) c n Hwf Hfr);
          [|done..].
        intros b' Hb'. rewrite Hl in Hb'. injection Hb' as <-.
        rewrite elem_of_app, elem_of_cons. auto.
    + unfold insert. rewrite Hl. apply Happ.
  - destruct (lock s hd) as [b|] eqn:Hl.
    + destruct (held_lock s k R hd b Hh Hlive Hl) as [-> Hb].
      apply list_elem_of_split in Hb as (l1 & l2 & ->).
      destruct (remove_unlinking s s l1 b l2 R Hun)
        as (n & s1 & E & _ & Hrm & _ & _ & _ & _ & Hun').
      exists (release s1), (l1 ++ l2), (R ++ [b]). rewrite Hrm. split; [done|].
      pose proof Hun' as (_ & _ & _ & _ & Hd' & _ & _ & Hcc' & Hna').
      assert (Hsub : ∀ c, c ∈ l1 ++ l2 → c ∈ l1 ++ b :: l2).
      { intros c. rewrite !elem_of_app, elem_of_cons. tauto. }
      apply (held_intro s); [done| | | | |apply release_closed].
      * rewrite Hna'. intros c Hc%Hsub. by apply (held_chain_older s (l1 ++ b :: l2) R).
      * rewrite Hna'. intros c [Hc|Hc]%elem_of_app; [by apply HR|].
        apply list_elem_of_singleton in Hc as ->.
        apply (held_chain_older s (l1 ++ b :: l2) R); [done|].
        rewrite elem_of_app, elem_of_cons. auto.
      * by rewrite Hcc'.
      * rewrite Hcc'. intros c nc Hc Ec. pose proof (Hd' c Hc) as Hdc.
        unfold data in Hdc. rewrite Ec in Hdc.
        destruct (heap s !! c) as [n0|] eqn:E0; [|done]. simpl in Hdc.
        injection Hdc as _ Hcn. unfold counter_ok. rewrite Hcn.
        apply (Hok c n0); [by apply Hsub|done].
    + unfold remove. rewrite Hl. simpl. eauto.
Qed.

Lemma held_pin s k R p : held s k R → held (pin p s) k R.
Proof.
  destruct p as [a|]; [|done]. intros (Hun & Hfr & Hr & Hok & HR & Hcl).
  split; [exact Hun|]. split; [exact Hfr|]. split; [exact Hr|]. split; [exact Hok|].
  split; [exact HR|]. intros b Hb. destruct (Hcl b Hb) as [?|[?|[?|?]]]; unfold referenced; auto.
  right. right. left. simpl. by right.
Qed.

Lemma held_unpin s k R a : held s k R → held (unpin a s) k R.
Proof.
  intros (Hun & Hfr & Hr & Hok & HR & Hcl). unfold unpin.
  set (t := set_pins (remove1 a (pins s)) s).
  assert (Hun' : unlinking s t k R) by exact Hun.
  apply unlinking_release in Hun'. apply (held_intro s); [done| | | | |apply release_closed].
  - rewrite release_nextAddr. intros b Hb.
    by apply (held_chain_older s k R b (conj Hun (conj Hfr (conj Hr (conj Hok (conj HR Hcl)))))).
  - rewrite release_nextAddr. exact HR.
  - by rewrite release_currentCounter.
  - rewrite release_currentCounter. intros b n Hb E%release_lookup_Some. by apply (Hok b n).
Qed.

(** Such states are kept by every sequence of steps in which no operation is
    given the Handle of a removed node. *)
Lemma live_reach_held s s' :
  rtc live_step s s' → ∀ k R, held s k R → ∃ k' R', held s' k' R'.
Proof.
  induction 1 as [s|s s1 s' Hst _ IH]; intros k R Hh; [eauto|].
  destruct Hst as [o s s1 Hlive Ho|p s|a s].
  - destruct (held_op s k R o Hh Hlive) as (s1' & k1 & R1 & Ho' & Hh1).
    assert (s1' = s1) as -> by congruence. by apply (IH k1 R1).
  - apply (IH k R). by apply held_pin.
  - apply (IH k R). by apply held_unpin.
Qed.

(** A dispatch whose visitor makes such steps is itself made of such
    steps. *)
Lemma loop_live_reach {V} (f : Visitor V) fuel c0 node s (u : V) r s' u' :
  uses_live_api f →
  doForEachIf_loop fuel f c0 node s u = Some (r, s', u') → rtc live_step s s'.
Proof.
  intros Hf. revert node s u. induction fuel as [|fuel IH]; intros node s u.
  - destruct node; [done|]. simpl. intros [= _ <- _]. apply rtc_refl.
  - destruct node as [a|]; [|simpl; intros [= _ <- _]; apply rtc_refl].
    cbn [doForEachIf_loop]. intros (n & E & H)%bind_Some.
    apply bind_Some in H as ([[go s1] u1] & Hv & H).
    assert (rtc live_step s s1) as Hr1.
    { destruct (decide _) as [[Hlive _]|].
      - by apply (Hf a n s u go s1 u1 E Hlive).
      - injection Hv as _ <- _. apply rtc_refl. }
    etrans; [exact Hr1|]. destruct go.
    + apply bind_Some in H as (n1 & E1 & H%IH).
      eapply rtc_l; [apply (live_step_pin (next n1))|].
      eapply rtc_l; [apply (live_step_unpin a)|]. exact H.
    + injection H as _ <- _. apply rtc_once, live_step_unpin.
Qed.

Lemma doForEachIf_live_reach {V} (f : Visitor V) fuel s (u : V) r s' u' :
  uses_live_api f → doForEachIf fuel f s u = Some (r, s', u') → rtc live_step s s'.
Proof.
  intros Hf H. unfold doForEachIf in H. apply (loop_live_reach f) in H; [|done].
  eapply rtc_l; [apply (live_step_pin (head s))|]. exact H.
Qed.

(** A state in which a node's [previous] leads to a node whose [next] does
    not lead back has no well-formed chain. *)
Lemma not_wf_crossed s a b x :
  tail s = Some b → previous <$> heap s !! b = Some (Some a) →
  next <$> heap s !! a = Some (Some x) → x ≠ b → ∀ l, ¬ wf s l.
Proof.
  intros Ht Hb Ha Hne l (_ & Hseg & _ & Htl). rewrite Ht in Htl. symmetry in Htl.
  apply last_Some in Htl as [l1 ->].
  destruct (dseg_mid _ _ _ _ _ _ Hseg) as (nb & Eb & Hpb & _).
  rewrite Eb in Hb. simpl in Hb. injection Hb as Hb. rewrite Hb in Hpb.
  destruct (last l1) as [z|] eqn:Hl1; simpl in Hpb; [|discriminate Hpb].
  injection Hpb as <-. apply last_Some in Hl1 as [l0 ->].
  rewrite <- app_assoc in Hseg. simpl in Hseg.
  destruct (dseg_mid _ _ _ _ _ _ Hseg) as (na & Ea & _ & Hna).
  rewrite Ea in Ha. simpl in Ha, Hna. congruence.
Qed.

End Held.

(** C4.  The constructor establishes the invariant of quiescent points: the
    list is a well-formed doubly linked chain, head is null iff tail is null
    iff the list is empty, and the counter of each node is the removed
    sentinel 0 or strictly positive and at most currentCounter.  append,
    prepend, insert and remove, called at a quiescent point with any Handle,
    return and preserve it.  So do they when they are called while
    dispatches are in progress, as long as remove and insert are not given
    the Handle of a node that carries the removed sentinel: from a quiescent
    point, after any sequence of such calls and of moves of iterations,
    every such call returns, and the invariant holds whenever no iteration
    holds a node any more; in particular it holds after a dispatch whose
    visitor makes such calls only. *)
Theorem C4_operations_preserve_invariant {Callback : Type} :
  Inv (@init Callback) [] ∧
  (∀ (s : @State Callback) l, Inv s l →
    (∀ cb, ∃ s', append cb s = Some (Some (nextAddr s), s') ∧
                 Inv s' (l ++ [nextAddr s])) ∧
    (∀ cb, ∃ s', prepend cb s = Some (Some (nextAddr s), s') ∧
                 Inv s' (nextAddr s :: l)) ∧
    (∀ cb before, ∃ s' l', insert cb before s = Some (Some (nextAddr s), s') ∧
                           Inv s' l') ∧
    (∀ handle, ∃ r s' l', remove handle s = Some (r, s') ∧ Inv s' l')) ∧
  (∀ (s s' : @State Callback) l, Inv s l → rtc live_step s s' →
    (∀ o, live_handle s' (handle_of o) → ∃ s'', run_op o s' = Some s'') ∧
    (pins s' = [] → ∃ l', Inv s' l')) ∧
  (∀ (V : Type) (f : Visitor V) fuel (s : @State Callback) l (u : V) r s' u',
    Inv s l → uses_live_api f → doForEachIf fuel f s u = Some (r, s', u') →
    pins s' = [] → ∃ l', Inv s' l').
Proof.
  assert (Hreach : ∀ (s s' : @State Callback) l, Inv s l → rtc live_step s s' →
            ∃ k R, held s' k R).
  { intros s s' l HI Hr. apply (live_reach_held s s' Hr l []). by apply Inv_held. }
  split; [apply init_Inv|]. split; [|split].
  - intros s l HI. repeat split.
    + intros cb. destruct (append_Inv s l cb HI) as (s1 & s' & _ & _ & _ & ? & ? & _). eauto.
    + intros cb. destruct (prepend_Inv s l cb HI) as (s1 & s' & _ & _ & _ & ? & ? & _). eauto.
    + intros cb before. destruct (lock s before) as [b|] eqn:Hl.
      * apply lock_Some in Hl as [-> Hb]. apply (Inv_dom s l b HI) in Hb.
        apply list_elem_of_split in Hb as (l1 & l2 & ->).
        destruct (insert_Inv s l1 b l2 cb HI) as (s1 & s' & _ & _ & _ & ? & ? & _). eauto.
      * unfold insert. rewrite Hl.
        destruct (append_Inv s l cb HI) as (s1 & s' & _ & _ & _ & ? & ? & _). eauto.
    + intros handle. destruct (lock s handle) as [b|] eqn:Hl.
      * apply lock_Some in Hl as [-> Hb]. apply (Inv_dom s l b HI) in Hb.
        apply list_elem_of_split in Hb as (l1 & l2 & ->).
        destruct (remove_Inv s l1 b l2 HI) as (s' & ? & ? & _). eauto.
      * unfold remove. rewrite Hl. eauto.
  - intros s s' l HI Hr. destruct (Hreach s s' l HI Hr) as (k & R & Hh). split.
    + intros o Hlive. destruct (held_op s' k R o Hh Hlive) as (s'' & _ & _ & Ho & _). eauto.
    + intros Hp. exists k. by apply (held_Inv s' k R).
  - intros V f fuel s l u r s' u' HI Hf Hd Hp.
    destruct (Hreach s s' l HI (doForEachIf_live_reach f fuel s u r s' u' Hf Hd)) as (k & R & Hh).
    exists k. by apply (held_Inv s' k R).
Qed.

Lemma C4_operations_preserve_invariant_witness :
  Inv (three 3) [0; 1; 2]%nat ∧
  ∃ s' l',
    forEach 3 (FuncHandle (λ hd s u, '(_, s1) ← remove hd s;
                                     '(_, s2) ← prepend 9%nat s1;
                                     Some (tt, s2, u)))
            (three 3) tt = Some (s', tt) ∧
    pins s' = [] ∧ Inv s' l'.
Proof.
  assert (HI : Inv (three 3) [0; 1; 2]%nat)
    by (apply (bool_decide_unpack _); vm_compute; exact I).
  split; [exact HI|].
  set (f := forEach_visitor (FuncHandle (λ hd (s : @State nat) (u : unit),
                '(_, s1) ← remove hd s; '(_, s2) ← prepend 9%nat s1; Some (tt, s2, u)))).
  assert (Hf : uses_live_api f).
  { intros a n s u r s' u' E Hlive Hv.
    unfold f, forEach_visitor, doForEachInvoke in Hv.
    apply bind_Some in Hv as ([[x sv] uv] & Hv & [= _ <- _]).
    apply bind_Some in Hv as ([r1 s1] & Hr & Hv).
    apply bind_Some in Hv as ([h2 s2] & Hpre & [= _ <- _]).
    eapply rtc_l; [apply (live_step_op (OpRemove (Some a)) s s1)|].
    - intros a' n' Ha E'. injection Ha as <-. rewrite E in E'. injection E' as <-. exact Hlive.
    - unfold run_op. rewrite Hr. reflexivity.
    - apply rtc_once. apply (live_step_op (OpPrepend 9%nat) s1 s2).
      + intros a' n' Ha. discriminate Ha.
      + unfold run_op. rewrite Hpre. reflexivity. }
  set (s' := match doForEachIf 3 f (three 3) tt with Some (_, s', _) => s' | None => three 3 end).
  assert (Hd : doForEachIf 3 f (three 3) tt = Some (true, s', tt))
    by (vm_compute; reflexivity).
  assert (Hp : pins s' = []) by (vm_compute; reflexivity).
  destruct (proj2 (proj2 (proj2 C4_operations_preserve_invariant))
              unit f 3%nat (three 3) [0; 1; 2]%nat tt true s' tt HI Hf Hd Hp) as [l' HI'].
  exists s', l'. split; [|split; [exact Hp|exact HI']].
  unfold forEach. fold f. rewrite Hd. reflexivity.
Defined.

(** Operations called from a visitor do not always keep the invariant: the
    Handle of a removed node stays valid while the iteration holds the node,
    and insert does not look at the sentinel.  On the list of the callbacks
    1, 2 and 3, a forEach whose visitor, called on the second node, calls
    remove and then insert with the Handle of its node returns at a
    quiescent point where the removed node is linked behind the new one:
    head leads to the first node, the new node, the removed node and the
    third node, whose previous is the first node.  No chain is well formed
    there. *)
Lemma C4_counterexample :
  ∃ s' : @State nat,
    Inv (three 3) [0; 1; 2]%nat ∧
    forEach 3 (FuncHandle (remove_then_insert 9%nat (Some 1%nat))) (three 3) tt
      = Some (s', tt) ∧
    pins s' = [] ∧
    callbacks_of (heap s') [0; 3; 1; 2]%nat = [1; 9; 2; 3]%nat ∧
    (next <$> heap s' !! 0%nat) = Some (Some 3%nat) ∧
    (next <$> heap s' !! 3%nat) = Some (Some 1%nat) ∧
    (next <$> heap s' !! 1%nat) = Some (Some 2%nat) ∧
    (previous <$> heap s' !! 2%nat) = Some (Some 0%nat) ∧
    (counter <$> heap s' !! 1%nat) = Some removedCounter ∧
    handle_bool s' (Some 1%nat) = true ∧
    (∀ l, ¬ wf s' l) ∧ (∀ l, ¬ Inv s' l).
Proof.
  set (s' := match forEach 3 (FuncHandle (remove_then_insert 9%nat (Some 1%nat))) (three 3) tt
             with Some (s', _) => s' | None => three 3 end).
  exists s'. split; [apply (bool_decide_unpack _); vm_compute; exact I|].
  split; [vm_compute; reflexivity|].
  split; [reflexivity|]. split; [vm_compute; reflexivity|].
  split; [vm_compute; reflexivity|]. split; [vm_compute; reflexivity|].
  split; [vm_compute; reflexivity|]. split; [vm_compute; reflexivity|].
  split; [vm_compute; reflexivity|]. split; [vm_compute; reflexivity|].
  assert (Hwf : ∀ l, ¬ wf s' l); [|split; [exact Hwf|]].
  - apply (not_wf_crossed _ 0%nat 2%nat 3%nat);
      [reflexivity|vm_compute; reflexivity|vm_compute; reflexivity|discriminate].
  - intros l Hl. by apply (Hwf l), Inv_wf.
Qed.

(** ** Further properties of the list *)







(** X4.  At a quiescent point of a list none of whose nodes is removed,
    after prepend(cb) forEach and invoke (with the default policy) run cb
    first and then the callbacks that were in the chain, in its order, and
    leave the list as it was. *)
Theorem prepend_is_called_first {Callback : Type} (s : @State Callback) l cb :
  Inv s l → all_live s →
  ∃ hd s', prepend cb s = Some (hd, s') ∧
    ∀ (V : Type) (eff : Callback → V → V) (u : V) (fuel : nat),
      (length l + 1 ≤ fuel)%nat →
      let result := foldl (λ u cb, eff cb u) u (cb :: callbacks_of (heap s) l) in
      forEach fuel (FuncCallback (λ cb s u, Some (tt, s, eff cb u))) s' u =
        Some (s', result) ∧
      ∀ (Args : Type) (args : Args),
        invoke (λ cb (_ : Args) s u, Some (s, eff cb u))
               defaultCanContinueInvoking fuel args s' u = Some (s', result).
Proof.
  intros HI Hl.
  destruct (prepend_quiescent s l cb HI Hl) as (s' & Hpre & HI' & Hl' & Hcbs).
  eexists _, s'. split; [done|]. intros V eff u fuel Hfuel.
  cbv zeta. rewrite <- Hcbs.
  apply (dispatch_calls_chain eff s' _ fuel u HI' Hl'). simpl. lia.
Qed.

Lemma prepend_is_called_first_witness :
  Inv (three 3) [0; 1; 2]%nat ∧ all_live (three 3) ∧
  ∃ hd s', prepend 7%nat (three 3) = Some (hd, s') ∧
    invoke (λ cb (_ : unit) s u, Some (s, u ++ [cb]))
           defaultCanContinueInvoking 4 tt s' [] = Some (s', [7; 1; 2; 3]%nat).
Proof.
  assert (HI : Inv (three 3) [0; 1; 2]%nat)
    by (apply (bool_decide_unpack _); vm_compute; exact I).
  assert (Hl : all_live (three 3)) by (apply (bool_decide_unpack _); vm_compute; exact I).
  split; [exact HI|]. split; [exact Hl|].
  destruct (prepend_is_called_first (three 3) _ 7%nat HI Hl) as (hd & s' & Hpre & H).
  exists hd, s'. split; [exact Hpre|].
  exact (proj2 (H (list nat) (λ cb u, u ++ [cb]) [] 4%nat (le_n 4)) unit tt).
Defined.

(** X5.  At a quiescent point of a list none of whose nodes is removed,
    after insert(cb, before) with the Handle of a node of the chain, forEach
    and invoke (with the default policy) run the callbacks in the order of
    the chain with cb immediately before the callback of that node, and
    leave the list as it was. *)
Theorem insert_is_called_before {Callback : Type} (s : @State Callback) l1 b l2 cb :
  Inv s (l1 ++ b :: l2) → all_live s →
  ∃ hd s', insert cb (Some b) s = Some (hd, s') ∧
    ∀ (V : Type) (eff : Callback → V → V) (u : V) (fuel : nat),
      (length (l1 ++ b :: l2) + 1 ≤ fuel)%nat →
      let result := foldl (λ u cb, eff cb u) u
        (callbacks_of (heap s) l1 ++ cb :: callbacks_of (heap s) (b :: l2)) in
      forEach fuel (FuncCallback (λ cb s u, Some (tt, s, eff cb u))) s' u =
        Some (s', result) ∧
      ∀ (Args : Type) (args : Args),
        invoke (λ cb (_ : Args) s u, Some (s, eff cb u))
               defaultCanContinueInvoking fuel args s' u = Some (s', result).
Proof.
  intros HI Hl.
  destruct (insert_quiescent s l1 b l2 cb HI Hl) as (s' & Hins & HI' & Hl' & Hcbs).
  eexists _, s'. split; [done|]. intros V eff u fuel Hfuel.
  cbv zeta. rewrite <- Hcbs.
  apply (dispatch_calls_chain eff s' _ fuel u HI' Hl').
  revert Hfuel. rewrite !length_app. simpl. lia.
Qed.

Lemma insert_is_called_before_witness :
  Inv (three 3) ([0%nat] ++ 1%nat :: [2%nat]) ∧ all_live (three 3) ∧
  ∃ hd s', insert 7%nat (Some 1%nat) (three 3) = Some (hd, s') ∧
    invoke (λ cb (_ : unit) s u, Some (s, u ++ [cb]))
           defaultCanContinueInvoking 4 tt s' [] = Some (s', [1; 7; 2; 3]%nat).
Proof.
  assert (HI : Inv (three 3) ([0%nat] ++ 1%nat :: [2%nat]))
    by (apply (bool_decide_unpack _); vm_compute; exact I).
  assert (Hl : all_live (three 3)) by (apply (bool_decide_unpack _); vm_compute; exact I).
  split; [exact HI|]. split; [exact Hl|].
  destruct (insert_is_called_before (three 3) _ _ _ 7%nat HI Hl) as (hd & s' & Hins & H).
  exists hd, s'. split; [exact Hins|].
  exact (proj2 (H (list nat) (λ cb u, u ++ [cb]) [] 4%nat (le_n 4)) unit tt).
Defined.

(** X6.  At a quiescent point of a list none of whose nodes is removed,
    after remove on the Handle of a node of the chain, forEach and invoke
    (with the default policy) run the callbacks of the other nodes, in the
    order of the chain, and not the removed one. *)
Theorem removed_is_not_called {Callback : Type} (s : @State Callback) l1 a l2 :
  Inv s (l1 ++ a :: l2) → all_live s →
  ∃ s', remove (Some a) s = Some (true, s') ∧
    ∀ (V : Type) (eff : Callback → V → V) (u : V) (fuel : nat),
      (length (l1 ++ l2) ≤ fuel)%nat →
      let result := foldl (λ u cb, eff cb u) u
        (callbacks_of (heap s) l1 ++ callbacks_of (heap s) l2) in
      forEach fuel (FuncCallback (λ cb s u, Some (tt, s, eff cb u))) s' u =
        Some (s', result) ∧
      ∀ (Args : Type) (args : Args),
        invoke (λ cb (_ : Args) s u, Some (s, eff cb u))
               defaultCanContinueInvoking fuel args s' u = Some (s', result).
Proof.
  intros HI Hl.
  destruct (remove_quiescent s l1 a l2 HI Hl) as (s' & Hrm & HI' & Hl' & Hcbs).
  exists s'. split; [done|]. intros V eff u fuel Hfuel.
  cbv zeta. rewrite <- Hcbs.
  by apply (dispatch_calls_chain eff s' _ fuel u HI' Hl').
Qed.

Lemma removed_is_not_called_witness :
  Inv (three 3) ([0%nat] ++ 1%nat :: [2%nat]) ∧ all_live (three 3) ∧
  ∃ s', remove (Some 1%nat) (three 3) = Some (true, s') ∧
    invoke (λ cb (_ : unit) s u, Some (s, u ++ [cb]))
           defaultCanContinueInvoking 2 tt s' [] = Some (s', [1; 3]%nat).
Proof.
  assert (HI : Inv (three 3) ([0%nat] ++ 1%nat :: [2%nat]))
    by (apply (bool_decide_unpack _); vm_compute; exact I).
  assert (Hl : all_live (three 3)) by (apply (bool_decide_unpack _); vm_compute; exact I).
  split; [exact HI|]. split; [exact Hl|].
  destruct (removed_is_not_called (three 3) _ _ _ HI Hl) as (s' & Hrm & H).
  exists s'. split; [exact Hrm|].
  exact (proj2 (H (list nat) (λ cb u, u ++ [cb]) [] 2%nat (le_n 2)) unit tt).
Defined.



(** X8.  A visitor may remove the node it is called on.  At a quiescent
    point of a list none of whose nodes is removed, forEach with a visitor
    that runs the callback's effect and then calls remove with the Handle it
    was given, for the callbacks that [once] selects, returns; it has run
    every callback of the chain, in order; and it ends at a quiescent point
    where the chain holds, in their order, exactly the callbacks that [once]
    does not select. *)
Theorem visitor_may_remove_its_node {Callback V : Type}
    (once : Callback → bool) (eff : Callback → V → V)
    (s : @State Callback) l (u : V) fuel :
  Inv s l → all_live s → (length l ≤ fuel)%nat →
  ∃ s' l',
    forEach fuel (removing_func once eff) s u =
      Some (s', foldl (λ u cb, eff cb u) u (callbacks_of (heap s) l)) ∧
    Inv s' l' ∧ all_live s' ∧ l' `sublist_of` l ∧
    callbacks_of (heap s') l' =
      filter (λ cb, once cb = false) (callbacks_of (heap s) l).
Proof.
  intros HI Hl Hfuel. pose proof (Inv_wf _ _ HI) as Hwf.
  pose proof Hwf as (_ & _ & Hhd & _).
  destruct (loop_removing once eff fuel (currentCounter s) (pin (head s) s) [] l u)
    as (s' & l' & Hloop & Hwf' & Hdom' & Hpins' & Hd' & Hcbs & Hsub & Hcc' & Hna').
  - destruct Hwf as (? & ? & ? & ?). unfold wf.
    by rewrite pin_heap, pin_head, pin_tail.
  - intros b. rewrite pin_heap. simpl. by apply (Inv_dom _ _ _ HI).
  - rewrite Hhd. destruct (hd_error l); simpl; by rewrite (Inv_pins _ _ HI).
  - intros b n. rewrite pin_heap. intros E. split; [by apply (Hl b n)|].
    destruct (Inv_counter _ _ _ _ HI E) as [H0|[_ ?]]; [|done].
    by destruct (Hl b n E).
  - done.
  - rewrite pin_heap in Hloop, Hd', Hcbs. simpl in Hwf', Hdom', Hd'.
    assert (Hold : ∀ a n', heap s' !! a = Some n' →
              ∃ n, heap s !! a = Some n ∧ callback n' = callback n ∧ counter n' = counter n).
    { intros a n' E'. assert (a ∈ l') as Ha by (apply Hdom'; eauto).
      pose proof (Hd' a Ha) as Hda. unfold data in Hda. rewrite E' in Hda.
      destruct (heap s !! a) as [n|]; [|done]. injection Hda as ? ?. eauto. }
    assert (Hcc : currentCounter s' = currentCounter s) by (by destruct (head s)).
    assert (Hna : nextAddr s' = nextAddr s) by (by rewrite Hna', pin_nextAddr).
    exists s', l'. unfold forEach, doForEachIf. rewrite <- Hhd in Hloop. rewrite Hloop. simpl.
    split; [done|]. split; [|split; [|split; [done|]]].
    + apply Inv_intro; [done|done| | |].
      * intros a. split; [apply Hdom'|]. by apply (wf_lookup s' l').
      * intros a n' E'. destruct (Hold a n' E') as (n & E & _ & Hc). split.
        -- rewrite Hna. pose proof (Inv_fresh_state _ _ HI) as Hf. by apply Hf in E.
        -- rewrite Hcc. pose proof (Inv_counter _ _ _ _ HI E) as Hok.
           unfold counter_ok in *. by rewrite Hc.
      * rewrite Hcc. by eapply Inv_range.
    + intros a n' E'. simpl. destruct (Hold a n' E') as (n & E & _ & Hc).
      rewrite Hc. by apply (Hl a n).
    + rewrite <- Hcbs. apply callbacks_of_ext. intros b Hb. by apply data_callback, Hd'.
Qed.

Lemma visitor_may_remove_its_node_witness :
  Inv (three 3) [0; 1; 2]%nat ∧ all_live (three 3) ∧
  ∃ s' l',
    forEach 3 (removing_func (λ cb, bool_decide (cb ≠ 2%nat)) (λ cb u, u ++ [cb]))
            (three 3) [] = Some (s', [1; 2; 3]%nat) ∧
    Inv s' l' ∧ callbacks_of (heap s') l' = [2%nat].
Proof.
  assert (HI : Inv (three 3) [0; 1; 2]%nat)
    by (apply (bool_decide_unpack _); vm_compute; exact I).
  assert (Hl : all_live (three 3)) by (apply (bool_decide_unpack _); vm_compute; exact I).
  split; [exact HI|]. split; [exact Hl|].
  destruct (visitor_may_remove_its_node (λ cb, bool_decide (cb ≠ 2%nat)) (λ cb u, u ++ [cb])
              (three 3) _ [] 3 HI Hl (le_n 3)) as (s' & l' & Hf & HI' & _ & _ & Hcbs).
  exists s', l'. split; [exact Hf|]. split; [exact HI'|exact Hcbs].
Defined.

(** X9.  A visitor may append to the list it is called from.  At a
    quiescent point of a list none of whose nodes is removed, forEach with a
    visitor that runs the callback's effect and appends the callbacks
    [more cb], when currentCounter does not wrap on the way, returns; it has
    run exactly the callbacks that were in the chain when it began, in
    order, and none of the appended ones; and it ends at a quiescent point
    where the chain is the old chain followed by the appended callbacks, in
    the order of their appends. *)
Theorem visitor_may_append {Callback V : Type}
    (more : Callback → list Callback) (eff : Callback → V → V)
    (s : @State Callback) l (u : V) fuel :
  Inv s l → all_live s →
  currentCounter s + Z.of_nat (length (callbacks_of (heap s) l ≫= more)) ≤ counterMax →
  (length l + length (callbacks_of (heap s) l ≫= more) ≤ fuel)%nat →
  ∃ s' lnew,
    forEach fuel (appending_func more eff) s u =
      Some (s', foldl (λ u cb, eff cb u) u (callbacks_of (heap s) l)) ∧
    Inv s' (l ++ lnew) ∧ all_live s' ∧
    callbacks_of (heap s') (l ++ lnew) =
      callbacks_of (heap s) l ++ (callbacks_of (heap s) l ≫= more).
Proof.
  intros HI Hl Hcc Hfuel. pose proof (Inv_wf _ _ HI) as Hwf.
  pose proof Hwf as (_ & _ & Hhd & _).
  pose proof (Inv_range _ _ HI) as Hr.
  pose proof (loop_appending more eff fuel (currentCounter s) (pin (head s) s) [] l [] u)
    as Hloop.
  rewrite pin_heap, !app_nil_r in Hloop. simpl in Hloop.
  destruct Hloop as (s' & lnew & Hloop & Hch' & Hpins' & Hcc' & Hcbs & Hd' & Hctr').
  - unfold chained. rewrite pin_heap. split; [|split; [|split]].
    + destruct Hwf as (? & ? & ? & ?). unfold wf. by rewrite pin_heap, pin_head, pin_tail.
    + intros b. by apply (Inv_dom _ _ _ HI).
    + pose proof (Inv_fresh_state _ _ HI) as Hf. intros b n E. simpl.
      rewrite pin_nextAddr. rewrite pin_heap in E. by apply (Hf b n).
    + destruct (head s); simpl; lia.
  - rewrite Hhd. destruct (hd_error l); simpl; by rewrite (Inv_pins _ _ HI).
  - intros b n _ E. split; [by apply (Hl b n)|].
    destruct (Inv_counter _ _ _ _ HI E) as [H0|[_ ?]]; [|by destruct (head s)].
    by destruct (Hl b n E).
  - intros b n Hb. by apply elem_of_nil in Hb.
  - destruct (head s); simpl; lia.
  - destruct (head s); simpl; lia.
  - lia.
  - assert (Hcp : currentCounter (pin (head s) s) = currentCounter s) by (by destruct (head s)).
    rewrite Hcp in Hcc', Hctr'.
    destruct Hch' as (Hwf' & Hdom' & Hfr' & _).
    assert (Hold : ∀ a n', a ∈ l → heap s' !! a = Some n' →
              ∃ n, heap s !! a = Some n ∧ callback n' = callback n ∧ counter n' = counter n).
    { intros a n' Ha E'. pose proof (Hd' a Ha) as Hda. unfold data in Hda. rewrite E' in Hda.
      destruct (heap s !! a) as [n|]; [|done]. injection Hda as ? ?. eauto. }
    exists s', lnew. unfold forEach, doForEachIf. rewrite <- Hhd in Hloop. rewrite Hloop. simpl.
    split; [done|]. split; [|split].
    + apply Inv_intro; [done|done| | |].
      * intros a. split; [apply Hdom'|]. by apply (wf_lookup s' _).
      * intros a n' E'. split; [by apply (Hfr' a n')|].
        assert (a ∈ l ++ lnew) as [Ha|Ha]%elem_of_app by (apply Hdom'; eauto).
        -- destruct (Hold a n' Ha E') as (n & E & _ & Hc).
           pose proof (Inv_counter _ _ _ _ HI E) as Hok.
           unfold counter_ok in *. rewrite Hc. lia.
        -- destruct (Hctr' a n' Ha E'). right. lia.
      * rewrite <- Hcbs, callbacks_of_length in Hcc.
        -- unfold counterMax in Hcc. lia.
        -- intros a Ha. apply (wf_lookup s' _ a Hwf'). rewrite elem_of_app. auto.
    + intros a n' E'. simpl.
      assert (a ∈ l ++ lnew) as [Ha|Ha]%elem_of_app by (apply Hdom'; eauto).
      * destruct (Hold a n' Ha E') as (n & E & _ & Hc). rewrite Hc. by apply (Hl a n).
      * destruct (Hctr' a n' Ha E'). unfold removedCounter. lia.
    + rewrite callbacks_of_app, Hcbs. f_equal.
      apply callbacks_of_ext. intros b Hb. by apply data_callback, Hd'.
Qed.

Lemma visitor_may_append_witness :
  Inv (three 3) [0; 1; 2]%nat ∧ all_live (three 3) ∧
  ∃ s' lnew,
    forEach 5 (appending_func (λ cb, if decide (cb = 2%nat) then [8; 9]%nat else [])
                              (λ cb u, u ++ [cb]))
            (three 3) [] = Some (s', [1; 2; 3]%nat) ∧
    Inv s' ([0; 1; 2]%nat ++ lnew) ∧
    callbacks_of (heap s') ([0; 1; 2]%nat ++ lnew) = [1; 2; 3; 8; 9]%nat.
Proof.
  assert (HI : Inv (three 3) [0; 1; 2]%nat)
    by (apply (bool_decide_unpack _); vm_compute; exact I).
  assert (Hl : all_live (three 3)) by (apply (bool_decide_unpack _); vm_compute; exact I).
  split; [exact HI|]. split; [exact Hl|].
  destruct (visitor_may_append (λ cb, if decide (cb = 2%nat) then [8; 9]%nat else [])
              (λ cb u, u ++ [cb]) (three 3) [0; 1; 2]%nat [] 5 HI Hl)
    as (s' & lnew & Hf & HI' & _ & Hcbs).
  - vm_compute. intros H. discriminate H.
  - vm_compute. lia.
  - exists s', lnew. split; [exact Hf|]. split; [exact HI'|exact Hcbs].
Defined.

(** X10.  From a quiescent point, a sequence of calls of append, prepend,
    insert and remove in which the insertions are too few for currentCounter
    to pass its maximum moves currentCounter by exactly the number of
    insertions (remove does not move it), and every node that was there and
    that no remove of the sequence was called with keeps its counter: the
    counters are reset only when currentCounter wraps. *)
Theorem counter_counts_insertions {Callback : Type}
    (s : @State Callback) l (os : list Op) :
  Inv s l →
  currentCounter s + Z.of_nat (length (filter (λ o, makes_node o = true) os)) ≤ counterMax →
  ∃ s' l', run_ops os s = Some s' ∧ Inv s' l' ∧
    currentCounter s' =
      currentCounter s + Z.of_nat (length (filter (λ o, makes_node o = true) os)) ∧
    ∀ a n, heap s !! a = Some n → OpRemove (Some a) ∉ os →
      ∃ n', heap s' !! a = Some n' ∧ counter n' = counter n.
Proof.
  revert s l. induction os as [|o os IH]; intros s l HI Hcc.
  - exists s, l. split; [done|]. split; [done|]. split; [simpl; lia|]. eauto.
  - rewrite insertions_cons in Hcc |- *.
    destruct (run_op_counts s l o HI) as (s1 & l1 & Ho & HI1 & Hcc1 & _ & Hc1).
    { intros Hm. rewrite Hm in Hcc. lia. }
    destruct (run_op_Inv s l o HI) as (s1' & l1' & Ho' & _ & _ & _ & Hk1).
    assert (s1' = s1) as -> by congruence.
    destruct (IH s1 l1 HI1) as (s' & l' & Hos & HI' & Hcc' & Hk').
    { rewrite Hcc1. destruct (makes_node o); lia. }
    exists s', l'. simpl. rewrite Ho. simpl. split; [done|]. split; [done|]. split.
    + rewrite Hcc', Hcc1. destruct (makes_node o); lia.
    + intros a n E Hno. rewrite not_elem_of_cons in Hno. destruct Hno as [Hno1 Hno2].
      destruct (Hk1 a n E) as (n1 & E1 & _); [congruence|].
      destruct (Hk' a n1 E1 Hno2) as (n' & E' & Hc'). exists n'. split; [done|].
      rewrite Hc'. by apply (Hc1 a n n1).
Qed.

Lemma counter_counts_insertions_witness :
  Inv (@init nat) [] ∧
  ∃ s' l', run_ops [OpAppend 1%nat; OpPrepend 2%nat; OpRemove (Some 0%nat); OpAppend 3%nat]
                   init = Some s' ∧
    Inv s' l' ∧ currentCounter s' = 3.
Proof.
  assert (HI : Inv (@init nat) []) by (apply (bool_decide_unpack _); vm_compute; exact I).
  split; [exact HI|].
  destruct (counter_counts_insertions (@init nat) []
              [OpAppend 1%nat; OpPrepend 2%nat; OpRemove (Some 0%nat); OpAppend 3%nat] HI)
    as (s' & l' & Hos & HI' & Hcc & _).
  - vm_compute. intros H. discriminate H.
  - exists s', l'. split; [exact Hos|]. split; [exact HI'|exact Hcc].
Defined.



(** X12.  A callback may dispatch the list it is called from.  At a
    quiescent point of a list none of whose nodes is removed, forEach with a
    visitor that first runs forEach on the same list, with the effect
    [eff_in] for each callback, and then the effect [eff] of its own
    callback, returns and leaves the list as it was: for each callback of
    the chain in order, the inner dispatch has run the effects of all the
    callbacks of the chain, in order, before the callback's own effect. *)
Theorem visitor_may_dispatch {Callback V : Type}
    (eff_in eff : Callback → V → V) (s : @State Callback) l (u : V) fuel fuel_in :
  Inv s l → all_live s → (length l ≤ fuel)%nat → (length l ≤ fuel_in)%nat →
  forEach fuel (redispatching_func fuel_in eff_in eff) s u =
  Some (s, foldl (λ u cb, eff cb (foldl (λ u cb', eff_in cb' u) u
                                        (callbacks_of (heap s) l)))
                 u (callbacks_of (heap s) l)).
Proof.
  intros HI Hl Hfuel Hin. unfold forEach.
  rewrite (doForEachIf_quiescent_all _
             (λ cb u, eff cb (foldl (λ u cb', eff_in cb' u) u (callbacks_of (heap s) l)))
             s l fuel u HI Hl Hfuel); [done|].
  intros a ps u'. unfold forEach_visitor, redispatching_func, doForEachInvoke. simpl.
  destruct (heap s !! a) as [n|]; [|done]. simpl.
  by rewrite (forEach_held eff_in s l ps fuel_in u' HI Hl Hin).
Qed.

Lemma visitor_may_dispatch_witness :
  Inv (three 3) [0; 1; 2]%nat ∧ all_live (three 3) ∧
  forEach 3 (redispatching_func 3 (λ cb u, u ++ [cb]) (λ cb u, u ++ [(10 * cb)%nat]))
          (three 3) [] =
  Some (three 3, [1; 2; 3; 10; 1; 2; 3; 20; 1; 2; 3; 30]%nat).
Proof.
  assert (HI : Inv (three 3) [0; 1; 2]%nat)
    by (apply (bool_decide_unpack _); vm_compute; exact I).
  assert (Hl : all_live (three 3)) by (apply (bool_decide_unpack _); vm_compute; exact I).
  split; [exact HI|]. split; [exact Hl|].
  exact (visitor_may_dispatch (λ cb u, u ++ [cb]) (λ cb u, u ++ [(10 * cb)%nat])
           (three 3) [0; 1; 2]%nat [] 3 3 HI Hl (le_n 3) (le_n 3)).
Defined.

(** X13.  The Handle of a node stays valid while an iteration holds the
    node, and remove does not look at the counter of the node it is given;
    so the visitors of X8 and X11 cannot be combined freely.  On the list of
    three callbacks appended to the constructor's list, a forEach whose
    visitor, called on the second node, calls remove with the Handle of its
    own node, of the third node, of its own node once more and of the first
    node returns with head at the third node, which is removed, and with
    tail null: no chain is well formed any more, and the next append has no
    result, since it dereferences tail. *)
Theorem repeated_remove_breaks_the_list {Callback : Type} (ca cb cc cd : Callback) :
  ∃ ha sa hb sb hc sc s',
    append ca init = Some (ha, sa) ∧ append cb sa = Some (hb, sb) ∧
    append cc sb = Some (hc, sc) ∧ Inv sc [0; 1; 2]%nat ∧ all_live sc ∧
    forEach 3 (FuncHandle (remove_around ha hb hc)) sc tt = Some (s', tt) ∧
    head s' = hc ∧ tombstoned 2%nat s' ∧ handle_bool s' hc = true ∧
    tail s' = None ∧ (∀ l, ¬ wf s' l) ∧ append cd s' = None.
Proof.
  eexists _, _, _, _, _, _, _.
  split; [vm_compute; reflexivity|]. split; [vm_compute; reflexivity|].
  split; [vm_compute; reflexivity|].
  split; [apply (bool_decide_unpack _); vm_compute; exact I|].
  split; [apply (bool_decide_unpack _); vm_compute; exact I|].
  split; [vm_compute; reflexivity|].
  split; [reflexivity|]. split.
  { intros n. vm_compute. intros [= <-]. reflexivity. }
  split; [vm_compute; reflexivity|]. split; [reflexivity|]. split.
  - intros l Hwf. destruct (wf_empty_iff _ _ Hwf) as [Hht _].
    simpl in Hht. destruct Hht as [_ Hht]. by specialize (Hht eq_refl).
  - vm_compute. reflexivity.
Qed.




